(** * arm_bin2elf: recovering the section layout of a flattened ARM image

    A shallow embedding of [arm_bin2elf.py] and the properties of its
    address arithmetic, of the [.ARM.exidx] scanner, of the section layout
    resolver and reconciler, and of the payload installation.

    Python integers are unbounded, so they are [Z]; [c_uint] is the wrap
    modulo [2^32].  The firmware image is the list of its bytes.  Python
    dictionaries keep insertion order, which the section ordering depends
    on, so they are association lists with unique keys.  Exceptions and the
    warnings printed on the error stream are explicit. *)

From Stdlib Require Import ZArith List String Ascii Bool Lia Sorted.
From Stdlib.Strings Require Import Byte.
From Equations Require Import Equations.
Import ListNotations.
Local Open Scope string_scope.
Local Open Scope list_scope.
Local Open Scope Z_scope.

(* ===================================================================== *)
(** * Part I: the embedding *)
(* ===================================================================== *)

(** ** Outcomes of a computation *)

(** The exceptions the embedded functions can raise. *)
Inductive exn : Type :=
| AssertionError (msg : string)
| EOFError (msg : string)
| KeyError (key : string)
| IndexError
| ZeroDivisionError
| AttributeError
| OSError.  (* seek to a negative file offset *)

(** [OutOfFuel] is not a Python outcome: it marks a [while] loop that the
    model stopped after the number of iterations it was given. *)
Inductive outcome (A : Type) : Type :=
| Ok (a : A)
| Raise (e : exn)
| OutOfFuel.
Arguments Ok {A} a.
Arguments Raise {A} e.
Arguments OutOfFuel {A}.

Definition obind {A B} (c : outcome A) (k : A -> outcome B) : outcome B :=
  match c with
  | Ok a => k a
  | Raise e => Raise e
  | OutOfFuel => OutOfFuel
  end.

Notation "x <- c ;; k" := (obind c (fun x => k))
  (at level 61, c at next level, right associativity).
Notation "' p <- c ;; k" := (obind c (fun x => let 'p := x in k))
  (at level 61, p pattern, c at next level, right associativity).

(** Lines printed with [eprint] (the error stream). *)
Inductive warning : Type :=
| Warn_multiple_matches (match_count sect_align : Z)
| Warn_looking_for_empty
| Warn_beyond_limit (sortaddr : Z)
| Warn_size_reduced (sectname : string) (sectpos_delta : Z).

(** A computation that also prints warnings: the lines printed so far stay
    printed when an exception is raised. *)
Definition M (A : Type) : Type := (list warning * outcome A)%type.

Definition ret {A} (a : A) : M A := ([], Ok a).
Definition raise {A} (e : exn) : M A := ([], Raise e).
Definition eprint (w : warning) : M unit := ([w], Ok tt).
Definition lift {A} (c : outcome A) : M A := ([], c).

Definition mbind {A B} (c : M A) (k : A -> M B) : M B :=
  match c with
  | (ws, Ok a) => let (ws', r) := k a in (ws ++ ws', r)
  | (ws, Raise e) => (ws, Raise e)
  | (ws, OutOfFuel) => (ws, OutOfFuel)
  end.

Notation "x <~ c ;; k" := (mbind c (fun x => k))
  (at level 61, c at next level, right associativity).
Notation "' p <~ c ;; k" := (mbind c (fun x => let 'p := x in k))
  (at level 61, p pattern, c at next level, right associativity).
Notation "c ;;; k" := (mbind c (fun _ => k))
  (at level 61, right associativity).

(** ** AddressMath *)

(** [c_uint(v).value] *)
Definition c_uint (v : Z) : Z := v mod 2 ^ 32.

(** [sign_extend(value, bits)], for [bits >= 1] (Python refuses a negative
    shift count). *)
Definition sign_extend (value bits : Z) : Z :=
  let sign_bit := Z.shiftl 1 (bits - 1) in
  Z.land value (sign_bit - 1) - Z.land value sign_bit.

(** [prel31_to_addr(ptr, refptr)] *)
Definition prel31_to_addr (ptr refptr : Z) : Z :=
  let offset := sign_extend ptr 31 in
  c_uint (refptr + offset).

(** The testable property of the address arithmetic, as the specification
    words it. *)
Definition prel31_bound_property (field reference : Z) : Prop :=
  (Z.testbit field 30 = false ->
     reference - 2 ^ 30 <= prel31_to_addr field reference) /\
  (Z.testbit field 30 = true ->
     prel31_to_addr field reference < reference).

(** ** The firmware image *)

Definition image : Type := list byte.

Definition byte_val (b : byte) : Z := Z.of_N (Byte.to_N b).

(** [fwpartfile.seek(pos, os.SEEK_SET)] followed by [fwpartfile.read(n)]:
    a negative offset is refused by [seek]; [read] returns the bytes that
    are there, at most [n] of them (all of them for a negative [n]). *)
Definition read_at (img : image) (pos n : Z) : outcome (list byte) :=
  if pos <? 0 then Raise OSError
  else if n <? 0 then Ok (skipn (Z.to_nat pos) img)
  else Ok (firstn (Z.to_nat n) (skipn (Z.to_nat pos) img)).

(** A little-endian [c_uint] filled from four bytes. *)
Definition le32 (b0 b1 b2 b3 : byte) : Z :=
  byte_val b0 + 2 ^ 8 * byte_val b1 + 2 ^ 16 * byte_val b2
  + 2 ^ 24 * byte_val b3.

(** [class ExIdxEntry(LittleEndianStructure)] *)
Record ExIdxEntry : Type := { tboffs : Z; entry : Z }.

(** [sizeof(ExIdxEntry)] *)
Definition sizeof_ExIdxEntry : Z := 8.

(** [fwpartfile.seek(pos); fwpartfile.readinto(eexidx) == sizeof(eexidx)]:
    [Some] the record when all eight bytes were there. *)
Definition readinto_ExIdxEntry (img : image) (pos : Z)
  : outcome (option ExIdxEntry) :=
  buf <- read_at img pos sizeof_ExIdxEntry ;;
  match buf with
  | [b0; b1; b2; b3; b4; b5; b6; b7] =>
      Ok (Some {| tboffs := le32 b0 b1 b2 b3; entry := le32 b4 b5 b6 b7 |})
  | _ => Ok None
  end.

(** [fwpartfile.seek(pos); fwpartfile.readinto(c_uint(0)) == 4] *)
Definition readinto_c_uint (img : image) (pos : Z) : outcome (option Z) :=
  buf <- read_at img pos 4 ;;
  match buf with
  | [b0; b1; b2; b3] => Ok (Some (le32 b0 b1 b2 b3))
  | _ => Ok None
  end.

(** [(a % b) != 0] *)
Definition not_multiple (a b : Z) : outcome bool :=
  if b =? 0 then Raise ZeroDivisionError else Ok (negb (a mod b =? 0)).

(** ** Configuration *)

(** A Python [dict] from section names to integers, in insertion order. *)
Definition dict : Type := list (string * Z).

Fixpoint dict_get (d : dict) (k : string) : option Z :=
  match d with
  | [] => None
  | (k', v) :: d' => if String.eqb k k' then Some v else dict_get d' k
  end.

(** [k in d] *)
Definition dict_mem (d : dict) (k : string) : bool :=
  match dict_get d k with Some _ => true | None => false end.

(** [d[k] = v]: an existing key keeps its place. *)
Fixpoint dict_set (d : dict) (k : string) (v : Z) : dict :=
  match d with
  | [] => [(k, v)]
  | (k', v') :: d' =>
      if String.eqb k k' then (k', v) :: d' else (k', v') :: dict_set d' k v
  end.

(** [d[k]] *)
Definition dict_lookup (d : dict) (k : string) : outcome Z :=
  match dict_get d k with Some v => Ok v | None => Raise (KeyError k) end.

Definition dict_wf (d : dict) : Prop := NoDup (map fst d).

(** The options object [po]. *)
Record Options : Type := {
  baseaddr : Z;
  addrspacelen : Z;
  expect_func_align : Z;
  expect_sect_align : Z;
  section_addr : dict;
  section_size : dict;
  verbose : Z;
  dry_run : bool
}.

Definition set_section_addr (po : Options) (d : dict) : Options :=
  {| baseaddr := baseaddr po; addrspacelen := addrspacelen po;
     expect_func_align := expect_func_align po;
     expect_sect_align := expect_sect_align po;
     section_addr := d; section_size := section_size po;
     verbose := verbose po; dry_run := dry_run po |}.

Definition set_section_size (po : Options) (d : dict) : Options :=
  {| baseaddr := baseaddr po; addrspacelen := addrspacelen po;
     expect_func_align := expect_func_align po;
     expect_sect_align := expect_sect_align po;
     section_addr := section_addr po; section_size := d;
     verbose := verbose po; dry_run := dry_run po |}.

(** ** EntryValidator *)

(** The test shared by the first word and the personality routine: the
    address is outside the code region or not a function start. *)
Definition outside_text (addr memaddr_base func_align arr_pos : Z)
  : outcome bool :=
  if addr <=? memaddr_base then Ok true
  else if addr >=? memaddr_base + arr_pos then Ok true
  else not_multiple addr func_align.

(** [armfw_is_proper_ARMexidx_entry] *)
Definition armfw_is_proper_ARMexidx_entry (po : Options) (img : image)
    (eexidx : ExIdxEntry) (memaddr_base func_align arr_pos ent_pos : Z)
  : outcome bool :=
  if (tboffs eexidx =? 0)
     || negb (Z.land (tboffs eexidx) 0x80000000 =? 0) then Ok false
  else
  let glob_offs := prel31_to_addr (tboffs eexidx) (memaddr_base + ent_pos) in
  bad <- outside_text glob_offs memaddr_base func_align arr_pos ;;
  if bad : bool then Ok false
  else if entry eexidx =? 0x01 then Ok true
  else if negb (Z.land (entry eexidx) 0x80000000 =? 0) then
    if negb (Z.land (entry eexidx) 0x70000000 =? 0) then Ok false
    else Ok true
  else
  let tbent_offs := prel31_to_addr (entry eexidx) (memaddr_base + ent_pos) in
  if ((tbent_offs >=? memaddr_base + arr_pos - expect_sect_align po * 0x10)
        && (tbent_offs <=? memaddr_base + arr_pos - 4))
     || ((tbent_offs <? memaddr_base + ent_pos + expect_sect_align po * 0x20)
        && (tbent_offs >=? memaddr_base + ent_pos + sizeof_ExIdxEntry))
  then
    if negb (tbent_offs mod 4 =? 0) then Ok false
    else
      r <- readinto_c_uint img (tbent_offs - memaddr_base) ;;
      match r with
      | None => Ok false
      | Some pers_routine_offs =>
          bad <- outside_text pers_routine_offs memaddr_base func_align
                   arr_pos ;;
          if bad : bool then Ok false else Ok true
      end
  else Ok false.

(** ** ExceptionIndexScanner *)

(** The inner [while] of [armfw_detect_sect_ARMexidx]: counts the proper
    entries read from [entry_pos] on, for the candidate section at [pos].
    Returns [(reached_eof, entry_count, entry_pos)]. *)
Fixpoint count_entries (fuel : nat) (po : Options) (img : image)
    (memaddr_base func_align pos entry_pos entry_count : Z)
  : outcome (bool * Z * Z) :=
  match fuel with
  | O => OutOfFuel
  | S fuel' =>
      r <- readinto_ExIdxEntry img entry_pos ;;
      match r with
      | None => Ok (true, entry_count, entry_pos)
      | Some eexidx =>
          proper <- armfw_is_proper_ARMexidx_entry po img eexidx
                      memaddr_base func_align pos entry_pos ;;
          if proper : bool then
            count_entries fuel' po img memaddr_base func_align pos
              (entry_pos + sizeof_ExIdxEntry) (entry_count + 1)
          else Ok (false, entry_count, entry_pos)
      end
  end.

(** [len(set(padding))] *)
Definition distinct_bytes (buf : list byte) : Z :=
  Z.of_nat (List.length (nodup byte_eq_dec buf)).

(** "verify if padding area is completely filled with 0x00": the entry
    count that is left after the check. *)
Definition check_padding (img : image) (sect_align entry_pos entry_count : Z)
  : outcome Z :=
  if entry_count >? 0 then
    if entry_pos mod sect_align >? 0 then
      padding <- read_at img entry_pos
                   (sect_align - entry_pos mod sect_align) ;;
      match padding with
      | [] => Raise IndexError
      | b0 :: _ =>
          if negb (byte_val b0 =? 0x00) || (distinct_bytes padding >? 1)
          then Ok 0
          else Ok entry_count
      end
    else Ok entry_count
  else Ok entry_count.

(** One turn of the outer [while], up to the decision about the candidate
    at [pos]: [None] when the end of the file was reached, else the entry
    count ([0] for no match). *)
Definition examine_candidate (fuel : nat) (po : Options) (img : image)
    (memaddr_base func_align sect_align pos : Z) : outcome (option Z) :=
  '(reached_eof, entry_count, entry_pos) <-
     count_entries fuel po img memaddr_base func_align pos pos 0 ;;
  if reached_eof : bool then Ok None
  else
    entry_count <- check_padding img sect_align entry_pos entry_count ;;
    Ok (Some entry_count).

(** The best match so far. *)
Record matches : Type := {
  match_count : Z;
  match_pos : Z;
  match_entries : Z
}.

Definition no_match : matches :=
  {| match_count := 0; match_pos := -1; match_entries := 0 |}.

(** "If entry is ok, consider it a match" *)
Definition consider (m : matches) (pos entry_count : Z) : matches :=
  if entry_count >? 0 then
    {| match_count := match_count m + 1; match_pos := pos;
       match_entries := entry_count |}
  else m.

(** The outer [while] of [armfw_detect_sect_ARMexidx]; [fuel_in] is what
    each inner loop is given. *)
Fixpoint scan_candidates (fuel fuel_in : nat) (po : Options) (img : image)
    (memaddr_base func_align sect_align pos : Z) (m : matches)
  : outcome matches :=
  match fuel with
  | O => OutOfFuel
  | S fuel' =>
      r <- examine_candidate fuel_in po img memaddr_base func_align
             sect_align pos ;;
      match r with
      | None => Ok m
      | Some entry_count =>
          scan_candidates fuel' fuel_in po img memaddr_base func_align
            sect_align (pos + sect_align) (consider m pos entry_count)
      end
  end.

(** [armfw_detect_sect_ARMexidx]; the lines printed on the standard output
    at higher verbosity are left out. *)
Definition armfw_detect_sect_ARMexidx (fuel : nat) (po : Options)
    (img : image) (memaddr_base start_pos func_align sect_align : Z)
  : M (Z * Z) :=
  if negb (sect_align >=? sizeof_ExIdxEntry) then
    raise (AssertionError "Section alignment exceeds .ARM.exidx entry size")
  else
    m <~ lift (scan_candidates fuel fuel po img memaddr_base func_align
                 sect_align start_pos no_match) ;;
    (if match_count m >? 1
     then eprint (Warn_multiple_matches (match_count m) sect_align)
     else ret tt) ;;;
    if match_count m <? 1 then ret (-1, 0)
    else ret (match_pos m, match_entries m * sizeof_ExIdxEntry).

(** The scan of one alignment, described candidate by candidate.  The
    [k]-th candidate position: *)
Definition candidate_pos (start_pos sect_align : Z) (k : nat) : Z :=
  start_pos + Z.of_nat k * sect_align.

Section Candidates.
Variables (fuel : nat) (po : Options) (img : image).
Variables (memaddr_base func_align sect_align : Z).

(** The number of entries of the run accepted at [pos]; [0] when the
    candidate is not accepted. *)
Definition run_length (pos : Z) : Z :=
  match examine_candidate fuel po img memaddr_base func_align sect_align
          pos with
  | Ok (Some entry_count) => entry_count
  | _ => 0
  end.

Definition accepted (pos : Z) : bool := run_length pos >? 0.

(** The accepted candidates among the first [K], in scanning order. *)
Definition accepted_runs (start_pos : Z) (K : nat) : list Z :=
  filter accepted (map (candidate_pos start_pos sect_align) (seq 0 K)).
End Candidates.


Definition zero_fill (padding : list byte) : bool :=
  forallb (fun b => byte_val b =? 0x00) padding.

(** *** Sample images *)

Definition byte_of_Z (z : Z) : byte :=
  match Byte.of_N (Z.to_N (z mod 256)) with Some b => b | None => x00 end.

(** The four bytes of a little-endian 32-bit word. *)
Definition enc32 (v : Z) : list byte :=
  [byte_of_Z v; byte_of_Z (v / 2 ^ 8); byte_of_Z (v / 2 ^ 16);
   byte_of_Z (v / 2 ^ 24)].

(** The options [main] builds when only the image is named. *)
Definition po_default : Options :=
  {| baseaddr := 0x1000000; addrspacelen := 0x2000000;
     expect_func_align := 2; expect_sect_align := 0x10;
     section_addr := []; section_size := [];
     verbose := 0; dry_run := false |}.


(** Two runs: one entry at offset 16 with zero padding, two entries at
    offset 32, then sixteen zero bytes. *)
Definition img_two_runs : image :=
  repeat x01 16
  ++ enc32 0x7FFFFFF8 ++ enc32 0x01 ++ repeat x00 8
  ++ enc32 0x7FFFFFF0 ++ enc32 0x01 ++ enc32 0x7FFFFFE8 ++ enc32 0x01
  ++ repeat x00 16.

(** Two runs of one entry each, at offsets 16 and 32, with zero padding;
    then, at offset 48, an entry for the function at offset 4 whose second
    word is a table offset of -64: the table entry would lie 16 bytes
    below the base address. *)
Definition img_table_below_base : image :=
  repeat x01 16
  ++ enc32 0x7FFFFFF8 ++ enc32 0x01 ++ repeat x00 8
  ++ enc32 0x7FFFFFF0 ++ enc32 0x01 ++ repeat x00 8
  ++ enc32 0x7FFFFFD4 ++ enc32 0x7FFFFFC0 ++ repeat x00 8.

(** ** EmptyRegionScanner *)

(** The [while] of [armfw_detect_empty_sect_ARMexidx]. *)
Fixpoint scan_empty (fuel : nat) (img : image)
    (sect_align pos match_count match_pos : Z) : outcome (Z * Z) :=
  match fuel with
  | O => OutOfFuel
  | S fuel' =>
      buf <- read_at img pos sect_align ;;
      if negb (Z.of_nat (List.length buf) =? sect_align) then
        Ok (match_count, match_pos)
      else if existsb (fun b => byte_val b =? 0x00) buf
              && (distinct_bytes buf =? 1) then
        scan_empty fuel' img sect_align (pos + sect_align)
          (match_count + 1) (pos + sect_align)
      else if match_count >? 0 then Ok (match_count, match_pos)
      else
        scan_empty fuel' img sect_align (pos + sect_align)
          match_count match_pos
  end.

(** [armfw_detect_empty_sect_ARMexidx] *)
Definition armfw_detect_empty_sect_ARMexidx (fuel : nat) (po : Options)
    (img : image) (memaddr_base start_pos func_align sect_align : Z)
  : outcome (Z * Z) :=
  '(match_count, match_pos) <- scan_empty fuel img sect_align start_pos 0 (-1) ;;
  if match_count <? 1 then Ok (-1, 0) else Ok (match_pos, 0).

(** ** SectionLayoutResolver *)

(** [armfw_bin2elf_settle_sect_ARMexidx] *)
Definition armfw_bin2elf_settle_sect_ARMexidx (fuel : nat) (po : Options)
    (img : image) : M Options :=
  let sectname := ".ARM.exidx" in
  let sect_align := expect_sect_align po in
  '(po, sect_len) <~
    (if negb (dict_mem (section_addr po) sectname) then
       '(sect_pos, sect_len) <~
          armfw_detect_sect_ARMexidx fuel po img (baseaddr po) 0
            (expect_func_align po) sect_align ;;
       '(sect_pos, sect_len) <~
          (if sect_pos <? 0 then
             let sect_align := Z.shiftr (expect_sect_align po) 1 in
             armfw_detect_sect_ARMexidx fuel po img (baseaddr po) 0
               (expect_func_align po) sect_align
           else ret (sect_pos, sect_len)) ;;
       '(sect_pos, sect_len) <~
          (if sect_pos <? 0 then
             (if verbose po >? 1 then eprint Warn_looking_for_empty
              else ret tt) ;;;
             let sect_align := expect_sect_align po in
             lift (armfw_detect_empty_sect_ARMexidx fuel po img (baseaddr po)
                     0 (expect_func_align po) sect_align)
           else ret (sect_pos, sect_len)) ;;
       if sect_pos <? 0 then
         raise (EOFError
                  "No matches found for section '.ARM.exidx' in binary file.")
       else
         ret (set_section_addr po
                (dict_set (section_addr po) sectname (baseaddr po + sect_pos)),
              sect_len)
     else
       addr <~ lift (dict_lookup (section_addr po) sectname) ;;
       let sect_pos := addr - baseaddr po in
       let sect_len := expect_sect_align po in
       ret (po, sect_len)) ;;
  if negb (dict_mem (section_size po) sectname) then
    ret (set_section_size po (dict_set (section_size po) sectname sect_len))
  else ret po.

(** [armfw_bin2elf_settle_sect_text] *)
Definition armfw_bin2elf_settle_sect_text (po : Options) : outcome Options :=
  let sectname := ".ARM.exidx" in
  if negb (dict_mem (section_addr po) sectname) then
    Raise (AssertionError
             "Settling '.text' not possible without '.ARM.exidx' settled")
  else
  addr <- dict_lookup (section_addr po) sectname ;;
  let sect_pos := addr - baseaddr po in
  let sectname := ".text" in
  po <- (if negb (dict_mem (section_addr po) sectname) then
           if sect_pos >? expect_func_align po * 8 then
             Ok (set_section_addr po
                   (dict_set (section_addr po) sectname (baseaddr po + 0x0)))
           else
             Raise (EOFError
               "No place for '.text' section before the '.ARM.exidx' section in binary file.")
         else Ok po) ;;
  if negb (dict_mem (section_size po) sectname) then
    text_addr <- dict_lookup (section_addr po) sectname ;;
    Ok (set_section_size po
          (dict_set (section_size po) sectname
             (sect_pos - (text_addr - baseaddr po))))
  else Ok po.

(** Options with the anchor placed by hand, sixteen bytes into the image:
    exactly [8 * expect_func_align]. *)
Definition po_exidx_at_16 : Options :=
  set_section_addr po_default [(".ARM.exidx", 0x1000010)].

(** ** LayoutReconciler *)

(** [sorted(set(values))] *)
Fixpoint insert_sorted (a : Z) (l : list Z) : list Z :=
  match l with
  | [] => [a]
  | b :: l' =>
      if a <? b then a :: l
      else if a =? b then l
      else b :: insert_sorted a l'
  end.

Definition sorted_set (l : list Z) : list Z := fold_right insert_sorted [] l.

(** [sectname in sections_order] *)
Definition list_mem (sectname : string) (l : list string) : bool :=
  existsb (String.eqb sectname) l.

(** "First add sections with size equal zero" *)
Definition add_empty_sections (po : Options) (sortaddr : Z)
    (sections_order : list string) : list string :=
  fold_left
    (fun order (item : string * Z) =>
       let (sectname, addr) := item in
       if addr =? sortaddr then
         match dict_get (section_size po) sectname with
         | Some size => if size <? 1 then order ++ [sectname] else order
         | None => order
         end
       else order)
    (section_addr po) sections_order.

(** "The non-zero sized section should be last" *)
Definition add_other_sections (po : Options) (sortaddr : Z)
    (sections_order : list string) : list string :=
  fold_left
    (fun order (item : string * Z) =>
       let (sectname, addr) := item in
       if addr =? sortaddr then
         if negb (list_mem sectname order) then order ++ [sectname]
         else order
       else order)
    (section_addr po) sections_order.

(** The [for sortaddr in ...] loop of [armfw_bin2elf_get_sections_order],
    with its [break]. *)
Fixpoint order_from (po : Options) (addrspace_limit : Z) (addrs : list Z)
    (sections_order : list string) : M (list string) :=
  match addrs with
  | [] => ret sections_order
  | sortaddr :: addrs' =>
      if sortaddr >? addrspace_limit then
        eprint (Warn_beyond_limit sortaddr) ;;; ret sections_order
      else
        order_from po addrspace_limit addrs'
          (add_other_sections po sortaddr
             (add_empty_sections po sortaddr sections_order))
  end.

(** [armfw_bin2elf_get_sections_order] *)
Definition armfw_bin2elf_get_sections_order (po : Options)
    (addrspace_limit : Z) : M (list string) :=
  order_from po addrspace_limit (sorted_set (map snd (section_addr po))) [].

(** A [for] loop over a list, in [M]. *)
Fixpoint mfold {S A : Type} (f : S -> A -> M S) (l : list A) (s : S) : M S :=
  match l with
  | [] => ret s
  | a :: l' => s' <~ f s a ;; mfold f l' s'
  end.

(** One turn of the loop of [armfw_bin2elf_update_sect_sizes]; the state
    is [po.section_size] and [sectaddr_next]. *)
Definition update_sect_size (po : Options) (sections_order : list string)
    (addrspace_limit : Z) (st : dict * Z) (sectname : string)
  : M (dict * Z) :=
  let (sizes, sectaddr_next) := st in
  addr <~ lift (dict_lookup (section_addr po) sectname) ;;
  let sectpos_delta := sectaddr_next - addr in
  if negb (sectpos_delta >=? 0) then
    raise (AssertionError
             (if String.eqb sectname (last sections_order "")
              then "Address space length too small to fit section '"
                   ++ sectname ++ "'"
              else "Trusting addresses leads to negative distance after '"
                   ++ sectname ++ "'")%string)
  else
  let sectpos_delta :=
    if addr + sectpos_delta >? addrspace_limit + 1 - expect_sect_align po
    then addrspace_limit + 1 - expect_sect_align po - addr
    else sectpos_delta in
  if negb (sectpos_delta >=? 0) then
    raise (AssertionError
             ("Trusting address limits leads to negative distance after '"
              ++ sectname ++ "'")%string)
  else
  sizes <~
    match dict_get sizes sectname with
    | Some size =>
        if size >? sectpos_delta then
          eprint (Warn_size_reduced sectname sectpos_delta) ;;;
          ret (dict_set sizes sectname sectpos_delta)
        else ret sizes
    | None => ret (dict_set sizes sectname sectpos_delta)
    end ;;
  ret (sizes, addr).

(** [armfw_bin2elf_update_sect_sizes] *)
Definition armfw_bin2elf_update_sect_sizes (po : Options)
    (sections_order : list string) (addrspace_limit : Z) : M Options :=
  let sectaddr_next := baseaddr po + addrspacelen po + 1 in
  st <~ mfold (update_sect_size po sections_order addrspace_limit)
          (rev sections_order) (section_size po, sectaddr_next) ;;
  ret (set_section_size po (fst st)).

(** The space budgets, described from the layout: each section may grow
    up to the address of the next one in the order, the last one up to
    [baseaddr + addrspacelen + 1], and none beyond
    [addrspace_limit + 1 - expect_sect_align]. *)
Definition addr_of (po : Options) (sectname : string) : Z :=
  match dict_get (section_addr po) sectname with Some a => a | None => 0 end.

Definition next_addr (po : Options) (higher : list string) : Z :=
  match higher with
  | [] => baseaddr po + addrspacelen po + 1
  | sectname :: _ => addr_of po sectname
  end.

Definition budget (po : Options) (addrspace_limit : Z) (sectname : string)
    (higher : list string) : Z :=
  Z.min (next_addr po higher - addr_of po sectname)
        (addrspace_limit + 1 - expect_sect_align po - addr_of po sectname).

Fixpoint budgets (po : Options) (addrspace_limit : Z)
    (sections_order : list string) : list (string * Z) :=
  match sections_order with
  | [] => []
  | sectname :: higher =>
      (sectname, budget po addrspace_limit sectname higher)
      :: budgets po addrspace_limit higher
  end.

(** The budget of the highest section in the words of the specification:
    the gap "to the address-space limit, minus one section-alignment unit
    of headroom". *)
Definition claimed_budget_of_highest (po : Options) (addrspace_limit : Z)
    (sectname : string) : Z :=
  addrspace_limit + 1 - expect_sect_align po - addr_of po sectname.

(** The size a section ends with, given the size asked for and its
    budget. *)
Definition settled_size (explicit : option Z) (b : Z) : Z :=
  match explicit with
  | Some size => if size >? b then b else size
  | None => b
  end.

Definition size_warning (po : Options) (item : string * Z) : list warning :=
  let (sectname, b) := item in
  match dict_get (section_size po) sectname with
  | Some size => if size >? b then [Warn_size_reduced sectname b] else []
  | None => []
  end.

(** The [while] loops of [armfw_bin2elf_get_sections_align]:
    [while (x % sect_align) != 0: sect_align = (sect_align >> 1)]. *)
Equations? halve_until_divides (x sect_align : Z) : outcome Z
  by wf (Z.abs_nat sect_align) lt :=
  halve_until_divides x sect_align with Z.eq_dec sect_align 0 := {
    | left _ => Raise ZeroDivisionError
    | right Hnz with Z.eq_dec (x mod sect_align) 0 := {
        | left _ => Ok sect_align
        | right Hrem => halve_until_divides x (Z.shiftr sect_align 1) } }.
Proof.
  rewrite Z.shiftr_div_pow2 by lia. change (2 ^ 1) with 2.
  assert (sect_align <> 1) by (intros ->; apply Hrem, Z.mod_1_r).
  assert (sect_align <> -1).
  { intros ->. apply Hrem. apply Z.mod_divide; [lia |].
    exists (- x). lia. }
  pose proof (Z.div_mod sect_align 2 ltac:(lia)).
  pose proof (Z.mod_pos_bound sect_align 2 ltac:(lia)).
  lia.
Qed.

(** The body of the loop of [armfw_bin2elf_get_sections_align]. *)
Definition section_align (po : Options) (sectname : string) : outcome Z :=
  let sect_align := Z.shiftl (expect_sect_align po) 1 in
  addr <- dict_lookup (section_addr po) sectname ;;
  sect_align <- halve_until_divides addr sect_align ;;
  size <- dict_lookup (section_size po) sectname ;;
  sect_align <- halve_until_divides size sect_align ;;
  Ok sect_align.

(** [armfw_bin2elf_get_sections_align] *)
Fixpoint get_sections_align_from (po : Options)
    (sections_order : list string) (sections_align : dict) : outcome dict :=
  match sections_order with
  | [] => Ok sections_align
  | sectname :: rest =>
      sect_align <- section_align po sectname ;;
      get_sections_align_from po rest
        (dict_set sections_align sectname sect_align)
  end.

Definition armfw_bin2elf_get_sections_align (po : Options)
    (sections_order : list string) : outcome dict :=
  get_sections_align_from po sections_order [].

(** The candidate alignments: twice the expected one, halved again and
    again. *)
Definition candidate_align (po : Options) (halvings : nat) : Z :=
  Z.shiftr (Z.shiftl (expect_sect_align po) 1) (Z.of_nat halvings).

(** [armfw_bin2elf_get_sections_pos] *)
Fixpoint get_sections_pos_from (po : Options) (sections_order : list string)
    (sections_pos : dict) : outcome dict :=
  match sections_order with
  | [] => Ok sections_pos
  | sectname :: rest =>
      addr <- dict_lookup (section_addr po) sectname ;;
      let sect_pos := addr - baseaddr po in
      let sect_pos := if sect_pos <? 0 then 0 else sect_pos in
      get_sections_pos_from po rest (dict_set sections_pos sectname sect_pos)
  end.

Definition armfw_bin2elf_get_sections_pos (po : Options)
    (sections_order : list string) : outcome dict :=
  get_sections_pos_from po sections_order [].

(** ** ContainerBuilder *)

(** Modelled from the spec: the section descriptor of the container
    library (pyelftools with write support), which is not part of the
    sources: "per-descriptor mutable address/alignment/size/payload
    fields".  [set_data] installs the payload; the source notes that "for
    non-bss sections, size will be updated automatically when replacing
    data". *)
Inductive section_type : Type := SHT_NOBITS | SHT_PROGBITS | SHT_ARM_EXIDX.

Record elf_section : Type := {
  sh_type : section_type;
  sh_addr : Z;
  sh_addralign : Z;
  sh_size : Z;
  sect_data : list byte
}.

Definition set_data (sect : elf_section) (data : list byte) : elf_section :=
  {| sh_type := sh_type sect; sh_addr := sh_addr sect;
     sh_addralign := sh_addralign sect;
     sh_size := Z.of_nat (List.length data); sect_data := data |}.

(** The part of the loop of [armfw_bin2elf_update_elffile] that fills the
    descriptor [sect] found for [sectname]: address, alignment, and size
    or payload. *)
Definition update_elffile_section (po : Options) (img : image)
    (sections_pos sections_align : dict) (sectname : string)
    (sect : elf_section) : outcome elf_section :=
  addr <- dict_lookup (section_addr po) sectname ;;
  align <- dict_lookup sections_align sectname ;;
  let sect :=
    {| sh_type := sh_type sect; sh_addr := addr; sh_addralign := align;
       sh_size := sh_size sect; sect_data := sect_data sect |} in
  match sh_type sect with
  | SHT_NOBITS =>
      size <- dict_lookup (section_size po) sectname ;;
      Ok {| sh_type := sh_type sect; sh_addr := sh_addr sect;
            sh_addralign := sh_addralign sect;
            sh_size := size; sect_data := sect_data sect |}
  | _ =>
      size <- dict_lookup (section_size po) sectname ;;
      if size <=? 0 then Ok (set_data sect [])
      else
        pos <- dict_lookup sections_pos sectname ;;
        size <- dict_lookup (section_size po) sectname ;;
        data_buf <- read_at img pos size ;;
        match data_buf with
        | [] =>
            Raise (EOFError ("Couldn't read section '" ++ sectname
                             ++ "' from binary file.")%string)
        | _ => Ok (set_data sect data_buf)
        end
  end.

(** Options and a template descriptor for a [.data] section of eight
    bytes placed at the start of the image. *)
Definition po_data_8 : Options :=
  set_section_size
    (set_section_addr po_default [(".data", 0x1000000)]) [(".data", 8)].

Definition sect_progbits : elf_section :=
  {| sh_type := SHT_PROGBITS; sh_addr := 0; sh_addralign := 1;
     sh_size := 0; sect_data := [] |}.

(** A settled layout with two more sections given by hand: an empty one
    at the address of [.data], one beyond the 32-bit address space, and
    one further up. *)
Definition po_far_section : Options :=
  set_section_size
    (set_section_addr po_default
       [(".ARM.exidx", 0x1001000); (".text", 0x1000000);
        (".data", 0x1001020); (".bss", 0x1002000);
        (".far", 0x100000000); (".zero", 0x1001020);
        (".farther", 0x100000010)])
    [(".ARM.exidx", 0x20); (".text", 0x1000); (".data", 0x2000);
     (".zero", 0)].

(** A settled layout of the default address space with one more
    uninitialized section, [.bss2], given by hand with an address and no
    size: it is the highest section. *)
Definition po_extra_bss : Options :=
  set_section_size
    (set_section_addr po_default
       [(".bss2", 0x2800000); (".ARM.exidx", 0x1001000);
        (".text", 0x1000000); (".data", 0x1001020); (".bss", 0x1002000)])
    [(".ARM.exidx", 0x20); (".text", 0x1000); (".data", 0xFE0);
     (".bss", 0x1FFE000)].

(** Options with a section whose address and size are multiples of twice
    the expected alignment. *)
Definition po_aligned_32 : Options :=
  set_section_size
    (set_section_addr po_default [(".text", 0x1000000)]) [(".text", 0x1000)].

(** ** SectionLayoutResolver, continued *)

(** The step the resolver repeats for [.data], [.bss] and the numbered
    [.bss] sections: a section without an address is placed right after
    the previous one, rounded up to [sect_align = 1]; a section with an
    address gives the new position.  Returns the options and [sect_pos]. *)
Definition place_after (po : Options) (sectname : string)
    (sect_pos sect_len : Z) : outcome (Options * Z) :=
  let sect_align := 1 in
  if negb (dict_mem (section_addr po) sectname) then
    let sect_pos := sect_pos + sect_len in
    let sect_pos :=
      if negb (sect_pos mod sect_align =? 0)
      then sect_pos + (sect_align - sect_pos mod sect_align)
      else sect_pos in
    Ok (set_section_addr po
          (dict_set (section_addr po) sectname (baseaddr po + sect_pos)),
        sect_pos)
  else
    addr <- dict_lookup (section_addr po) sectname ;;
    Ok (po, addr - baseaddr po).

(** [armfw_bin2elf_settle_sect_data]; the length of the image is what
    [fwpartfile.seek(0, os.SEEK_END); fwpartfile.tell()] gives. *)
Definition armfw_bin2elf_settle_sect_data (po : Options) (img : image)
  : outcome Options :=
  let sectname := ".ARM.exidx" in
  if negb (dict_mem (section_addr po) sectname) then
    Raise (AssertionError
             "Settling '.data' not possible without '.ARM.exidx' settled")
  else
  addr <- dict_lookup (section_addr po) sectname ;;
  let sect_pos := addr - baseaddr po in
  sect_len <- dict_lookup (section_size po) sectname ;;
  let sectname := ".data" in
  '(po, sect_pos) <- place_after po sectname sect_pos sect_len ;;
  if negb (dict_mem (section_size po) sectname) then
    let sect_len := Z.of_nat (List.length img) - sect_pos in
    Ok (set_section_size po (dict_set (section_size po) sectname sect_len))
  else Ok po.

(** [re.search('^[.]bss[0-9]+$', sectname)]; [$] also matches before a
    final newline. *)
Definition is_digit (c : Ascii.ascii) : bool :=
  (48 <=? Ascii.nat_of_ascii c)%nat && (Ascii.nat_of_ascii c <=? 57)%nat.

Fixpoint digits_to_end (s : string) : bool :=
  match s with
  | EmptyString => true
  | String c s' =>
      if is_digit c then digits_to_end s'
      else Ascii.eqb c "010"%char
           && match s' with EmptyString => true | _ => false end
  end.

Definition is_numbered_bss (sectname : string) : bool :=
  match sectname with
  | String "."%char (String "b"%char (String "s"%char (String "s"%char
      (String c rest)))) => is_digit c && digits_to_end rest
  | _ => false
  end.

(** "Allow more .bss sections, as long as size is provided": the loop over
    [po.section_size.keys()]. *)
Fixpoint settle_more_bss (po : Options) (keys : list string)
    (sect_pos sect_len : Z) : outcome Options :=
  match keys with
  | [] => Ok po
  | sectname :: keys' =>
      if negb (is_numbered_bss sectname) then
        settle_more_bss po keys' sect_pos sect_len
      else if negb (dict_mem (section_size po) sectname) then Ok po
      else
        '(po, sect_pos) <- place_after po sectname sect_pos sect_len ;;
        sect_len <- dict_lookup (section_size po) sectname ;;
        settle_more_bss po keys' sect_pos sect_len
  end.

(** [armfw_bin2elf_settle_sect_bss] *)
Definition armfw_bin2elf_settle_sect_bss (po : Options) : outcome Options :=
  let sectname := ".data" in
  if negb (dict_mem (section_addr po) sectname) then
    Raise (AssertionError
             "Settling '.bss' not possible without '.data' settled")
  else
  addr <- dict_lookup (section_addr po) sectname ;;
  let sect_pos := addr - baseaddr po in
  sect_len <- dict_lookup (section_size po) sectname ;;
  let sectname := ".bss" in
  '(po, sect_pos) <- place_after po sectname sect_pos sect_len ;;
  '(po, sect_len) <-
     (if negb (dict_mem (section_size po) sectname) then
        let sect_len := addrspacelen po - sect_pos in
        let sect_len := if sect_len <? 0 then 0 else sect_len in
        Ok (set_section_size po
              (dict_set (section_size po) sectname sect_len), sect_len)
      else
        sect_len <- dict_lookup (section_size po) sectname ;;
        Ok (po, sect_len)) ;;
  settle_more_bss po (map fst (section_size po)) sect_pos sect_len.

(** ** The conversion, up to the layout *)

(** The first stage of [armfw_bin2elf]: "set addresses and sizes of
    sections within `po`". *)
Definition armfw_bin2elf_settle (fuel : nat) (po : Options) (img : image)
  : M Options :=
  po <~ armfw_bin2elf_settle_sect_ARMexidx fuel po img ;;
  po <~ lift (armfw_bin2elf_settle_sect_text po) ;;
  po <~ lift (armfw_bin2elf_settle_sect_data po img) ;;
  lift (armfw_bin2elf_settle_sect_bss po).

(** What [armfw_bin2elf] has computed when it turns to the template. *)
Record layout : Type := {
  lay_po : Options;
  lay_order : list string;
  lay_align : dict;
  lay_pos : dict
}.

(** [armfw_bin2elf], before the template is copied and patched;
    [is_arm64] is [False]. *)
Definition armfw_bin2elf_layout (fuel : nat) (po : Options) (img : image)
  : M layout :=
  po <~ armfw_bin2elf_settle fuel po img ;;
  let addrspace_limit := 2 ^ 32 - 1 in
  sections_order <~ armfw_bin2elf_get_sections_order po addrspace_limit ;;
  po <~ armfw_bin2elf_update_sect_sizes po sections_order addrspace_limit ;;
  sections_align <~ lift (armfw_bin2elf_get_sections_align po
                            sections_order) ;;
  sections_pos <~ lift (armfw_bin2elf_get_sections_pos po sections_order) ;;
  ret {| lay_po := po; lay_order := sections_order;
         lay_align := sections_align; lay_pos := sections_pos |}.

(** ** The template copy *)

(** The [while] of [armfw_bin2elf_copy_template]: [rest] is what the
    template still holds, [written] what the output file holds. *)
Fixpoint copy_loop (fuel : nat) (chunk : nat) (dry : bool)
    (rest written : list byte) (n : Z) : outcome (list byte * Z) :=
  match fuel with
  | O => OutOfFuel
  | S fuel' =>
      let copy_buffer := firstn chunk rest in
      match copy_buffer with
      | [] => Ok (written, n)
      | _ =>
          copy_loop fuel' chunk dry (skipn chunk rest)
            (if dry then written else written ++ copy_buffer)
            (n + Z.of_nat (List.length copy_buffer))
      end
  end.

(** [armfw_bin2elf_copy_template]: the bytes written to the output file,
    [None] when it is not opened, and the count [n]. *)
Definition armfw_bin2elf_copy_template (fuel : nat) (po : Options)
    (template : list byte) : outcome (option (list byte) * Z) :=
  '(written, n) <- copy_loop fuel (Z.to_nat (1024 * 1024)) (dry_run po)
                     template [] 0 ;;
  Ok (if dry_run po then None else Some written, n).

(** ** The section arguments of the command line *)

(** The argument is the string of its bytes: the two character classes of
    the pattern hold ASCII characters only, so a character outside ASCII
    is in neither, like each of its bytes.

    What [parse_section_param] can raise: [arg_m] is [None] when the
    pattern is found nowhere, and [int(literal, 0)] refuses the literal. *)
Inductive arg_error : Type :=
| Arg_AttributeError
| Arg_ValueError (literal : string).

(** The value [sect] it returns. *)
Record section_param : Type := {
  sp_addr : dict;
  sp_len : dict
}.

Definition in_range (lo hi : nat) (c : ascii) : bool :=
  (lo <=? nat_of_ascii c)%nat && (nat_of_ascii c <=? hi)%nat.

(** [[0-9A-Za-z._-]] *)
Definition is_name_char (c : ascii) : bool :=
  in_range 48 57 c || in_range 65 90 c || in_range 97 122 c
  || Ascii.eqb c "."%char || Ascii.eqb c "_"%char || Ascii.eqb c "-"%char.

(** [[Xx0-9A-Fa-f]] *)
Definition is_num_char (c : ascii) : bool :=
  Ascii.eqb c "X"%char || Ascii.eqb c "x"%char
  || in_range 48 57 c || in_range 65 70 c || in_range 97 102 c.

(** A greedy [[...]+]: the longest prefix in the class, and the rest. *)
Fixpoint span_chars (p : ascii -> bool) (s : string) : string * string :=
  match s with
  | String c s' =>
      if p c then let (run, rest) := span_chars p s' in (String c run, rest)
      else (EmptyString, s)
  | EmptyString => (EmptyString, EmptyString)
  end.

(** [re.search] tries every start position in turn: the group [name]
    starts at the first character of its class; [None] without one. *)
Fixpoint search_name (s : string) : option (string * string) :=
  match s with
  | EmptyString => None
  | String c s' =>
      if is_name_char c then Some (span_chars is_name_char s)
      else search_name s'
  end.

(** [(@(?P<addr>[Xx0-9A-Fa-f]+))?] and its like with [:]: the separator
    and at least one character of the class, or nothing. *)
Definition optional_number (sep : ascii) (s : string)
  : option string * string :=
  match s with
  | String c s' =>
      if Ascii.eqb c sep then
        match span_chars is_num_char s' with
        | (EmptyString, _) => (None, s)
        | (run, rest) => (Some run, rest)
        end
      else (None, s)
  | EmptyString => (None, s)
  end.

Definition digit_value (c : ascii) : option Z :=
  if in_range 48 57 c then Some (Z.of_nat (nat_of_ascii c) - 48)
  else if in_range 65 70 c then Some (Z.of_nat (nat_of_ascii c) - 55)
  else if in_range 97 102 c then Some (Z.of_nat (nat_of_ascii c) - 87)
  else None.

(** The digits of a literal in [base], most significant first. *)
Fixpoint digits_value (base : Z) (s : string) (acc : Z) : option Z :=
  match s with
  | EmptyString => Some acc
  | String c s' =>
      match digit_value c with
      | Some d =>
          if d <? base then digits_value base s' (acc * base + d) else None
      | None => None
      end
  end.

(** [int(literal, 0)] on a literal of the class [[Xx0-9A-Fa-f]+]: the
    prefix [0x] or [0b] selects the base and needs a digit after it; a
    decimal literal has no leading zero unless it is zero, and the
    interpreter refuses more than 4300 decimal digits
    ([sys.int_max_str_digits]). *)
Definition int_base0 (literal : string) : arg_error + Z :=
  let refuse := inl (Arg_ValueError literal) in
  let digits base ds :=
    match ds with
    | EmptyString => refuse
    | _ => match digits_value base ds 0 with
           | Some v => inr v
           | None => refuse
           end
    end in
  match literal with
  | String "0"%char (String c ds) =>
      if Ascii.eqb c "x"%char || Ascii.eqb c "X"%char then digits 16 ds
      else if Ascii.eqb c "b"%char || Ascii.eqb c "B"%char then digits 2 ds
      else
        match digits_value 10 literal 0 with
        | Some v =>
            if (v =? 0) && (String.length literal <=? 4300)%nat
            then inr v else refuse
        | None => refuse
        end
  | _ =>
      match digits_value 10 literal 0 with
      | Some v =>
          if (String.length literal <=? 4300)%nat then inr v else refuse
      | None => refuse
      end
  end.

(** One group of [parse_section_param]: when it took part in the match,
    its value is stored under the name. *)
Definition group_entry (name : string) (group : option string)
  : arg_error + dict :=
  match group with
  | None => inr []
  | Some literal =>
      match int_base0 literal with
      | inl e => inl e
      | inr v => inr (dict_set [] name v)
      end
  end.

(** [parse_section_param] *)
Definition parse_section_param (s : string) : arg_error + section_param :=
  match search_name s with
  | None => inl Arg_AttributeError
  | Some (name, rest) =>
      let (addr, rest) := optional_number "@"%char rest in
      let (len, _) := optional_number ":"%char rest in
      match group_entry name addr with
      | inl e => inl e
      | inr sect_addr =>
          match group_entry name len with
          | inl e => inl e
          | inr sect_len => inr {| sp_addr := sect_addr; sp_len := sect_len |}
          end
      end
  end.

(** [d.update(other)] *)
Definition dict_update (d other : dict) : dict :=
  fold_left (fun d item => dict_set d (fst item) (snd item)) other d.

(** "Flatten the sections we got in arguments": the loop of [main] over
    [po.section], from two empty dictionaries. *)
Definition main_flatten_sections (section : list section_param)
  : dict * dict :=
  fold_left
    (fun (st : dict * dict) sect =>
       (dict_update (fst st) (sp_addr sect),
        dict_update (snd st) (sp_len sect)))
    section ([], []).

(** Every character of [s] is in the class. *)
Fixpoint all_chars (p : ascii -> bool) (s : string) : bool :=
  match s with
  | EmptyString => true
  | String c s' => p c && all_chars p s'
  end.

(** [format(n, 'x')] for [n >= 0]. *)
Definition hex_char (d : Z) : ascii :=
  ascii_of_nat (Z.to_nat (if d <? 10 then 48 + d else 87 + d)).

Fixpoint hex_digits (fuel : nat) (n : Z) (acc : string) : string :=
  match fuel with
  | O => acc
  | S fuel' =>
      let acc := String (hex_char (n mod 16)) acc in
      if n / 16 =? 0 then acc else hex_digits fuel' (n / 16) acc
  end.

Definition hex_of_Z (n : Z) : string :=
  hex_digits (S (Z.to_nat (Z.log2 n))) n EmptyString.

(** ** The address space set up by [main] *)

Definition set_addrspacelen (po : Options) (len : Z) : Options :=
  {| baseaddr := baseaddr po; addrspacelen := len;
     expect_func_align := expect_func_align po;
     expect_sect_align := expect_sect_align po;
     section_addr := section_addr po; section_size := section_size po;
     verbose := verbose po; dry_run := dry_run po |}.

(** [max(po.section_addr, key=po.section_addr.get)]: the first key with
    the largest value. *)
Definition dict_argmax (first : string * Z) (rest : dict) : string :=
  fst (fold_left
         (fun (best item : string * Z) =>
            if snd item >? snd best then item else best)
         rest first).

(** The part of [main] "getting end of last section, to update address
    space length if it is too small". *)
Definition main_expand_addrspacelen (po : Options) : outcome Options :=
  match section_addr po with
  | [] => Ok po
  | first :: rest =>
      let sect_last := dict_argmax first rest in
      addr <- dict_lookup (section_addr po) sect_last ;;
      size <- dict_lookup (section_size po) sect_last ;;
      let last_section_end := addr + size - baseaddr po in
      if last_section_end >? addrspacelen po then
        Ok (set_addrspacelen po (Z.min last_section_end 0xFFFFFFFF))
      else Ok po
  end.

(** The offset a [prel31] word stores for [target] when the word itself
    is at [refptr]: the low 31 bits of the signed distance. *)
Definition prel31_of_addr (target refptr : Z) : Z :=
  (target - refptr) mod 2 ^ 31.

(** [fwpartfile.seek(pos); fwpartfile.read(sect_align)]: the window the
    scan for an empty section looks at. *)
Definition window_at (img : image) (pos sect_align : Z) : list byte :=
  firstn (Z.to_nat sect_align) (skipn (Z.to_nat pos) img).

(** What the best match so far is, at any point of a scan from
    [start_pos]: none yet, or an accepted candidate. *)
Definition match_is_sound (po : Options) (img : image)
    (memaddr_base func_align sect_align : Z) (fuel_in : nat)
    (start_pos : Z) (m : matches) : Prop :=
  (match_count m = 0 /\ match_pos m = -1 /\ match_entries m = 0) \/
  (1 <= match_count m /\ 0 < match_entries m /\
   (exists k : nat, match_pos m = candidate_pos start_pos sect_align k) /\
   examine_candidate fuel_in po img memaddr_base func_align sect_align
     (match_pos m) = Ok (Some (match_entries m))).

(** ** The section order, described from the layout *)

(** The section has a size, and it is below one. *)
Definition sized_below_one (po : Options) (sectname : string) : bool :=
  match dict_get (section_size po) sectname with
  | Some size => size <? 1
  | None => false
  end.

(** The sections placed at [sortaddr]: those with a size below one, then
    the others, each group in the order of [po.section_addr]. *)
Definition sections_at (po : Options) (sortaddr : Z) : list string :=
  map fst
    (filter (fun item : string * Z =>
               (snd item =? sortaddr) && sized_below_one po (fst item))
       (section_addr po))
  ++ map fst
       (filter (fun item : string * Z =>
                  (snd item =? sortaddr)
                  && negb (sized_below_one po (fst item)))
          (section_addr po)).

(** All sections placed within the limit, by ascending address. *)
Definition sections_within (po : Options) (addrspace_limit : Z)
  : list string :=
  flat_map (sections_at po)
    (filter (fun a => a <=? addrspace_limit)
       (sorted_set (map snd (section_addr po)))).

(** [x] may come before [y] in the order: it lies lower, or at the same
    address and then not as a sized section before an empty one. *)
Definition may_precede (po : Options) (x y : string) : Prop :=
  addr_of po x < addr_of po y \/
  (addr_of po x = addr_of po y /\
   (sized_below_one po y = true -> sized_below_one po x = true)).

(** ** What the resolver keeps *)

(** [po'] is [po] with more sections settled: the settings are the same,
    and every address and size that [po] has is still there. *)
Definition extends (po po' : Options) : Prop :=
  baseaddr po' = baseaddr po /\
  addrspacelen po' = addrspacelen po /\
  expect_func_align po' = expect_func_align po /\
  expect_sect_align po' = expect_sect_align po /\
  verbose po' = verbose po /\
  dry_run po' = dry_run po /\
  (forall n v, dict_get (section_addr po) n = Some v ->
     dict_get (section_addr po') n = Some v) /\
  (forall n v, dict_get (section_size po) n = Some v ->
     dict_get (section_size po') n = Some v) /\
  (dict_wf (section_addr po) -> dict_wf (section_addr po')) /\
  (dict_wf (section_size po) -> dict_wf (section_size po')).

(** The section has an address and a size. *)
Definition settled (po : Options) (sectname : string) : Prop :=
  dict_get (section_addr po) sectname <> None /\
  dict_get (section_size po) sectname <> None.

(** The sample image of two runs, settled with the default options. *)
Definition po_two_runs_settled : Options :=
  Eval vm_compute in
    match armfw_bin2elf_settle 100 po_default img_two_runs with
    | (_, Ok po') => po'
    | _ => po_default
    end.

(** Options with [.ARM.exidx], [.text] and [.data] settled and a second
    uninitialized section given by its size only. *)
Definition po_bss2_sized : Options :=
  set_section_size
    (set_section_addr po_default
       [(".ARM.exidx", 0x1001000); (".text", 0x1000000);
        (".data", 0x1001020)])
    [(".ARM.exidx", 0x20); (".text", 0x1000); (".data", 0xFE0);
     (".bss", 0x1000); (".bss2", 0x400)].

Definition po_bss2_settled : Options :=
  Eval vm_compute in
    match armfw_bin2elf_settle_sect_bss po_bss2_sized with
    | Ok po' => po'
    | _ => po_bss2_sized
    end.

(** Options as a caller other than [main] could give them: no expected
    section alignment. *)
Definition po_no_alignment : Options :=
  {| baseaddr := 0x1000000; addrspacelen := 0x2000000;
     expect_func_align := 2; expect_sect_align := 0;
     section_addr := [(".text", 0x1000000)];
     section_size := [(".text", 0x1000)];
     verbose := 0; dry_run := false |}.

(** The layout of the sample image of two runs with the default options. *)
Definition lay_two_runs : layout :=
  Eval vm_compute in
    match armfw_bin2elf_layout 100 po_default img_two_runs with
    | (_, Ok lay) => lay
    | _ => {| lay_po := po_default; lay_order := [];
              lay_align := []; lay_pos := [] |}
    end.


(* ===================================================================== *)
(** * Part II: properties *)
(* ===================================================================== *)

(** ** AddressMath *)

Lemma land_pow2_testbit (a n : Z) :
  0 <= n -> Z.land a (2 ^ n) = if Z.testbit a n then 2 ^ n else 0.
Proof.
  intros Hn. apply Z.bits_inj'. intros m Hm.
  rewrite Z.land_spec, Z.pow2_bits_eqb by assumption.
  destruct (Z.eqb_spec n m) as [->|Hne].
  - destruct (Z.testbit a m) eqn:E; simpl.
    + rewrite Z.pow2_bits_true by assumption. reflexivity.
    + rewrite Z.bits_0. reflexivity.
  - rewrite andb_false_r.
    destruct (Z.testbit a n).
    + rewrite Z.pow2_bits_false by assumption. reflexivity.
    + rewrite Z.bits_0. reflexivity.
Qed.

Lemma sign_extend_31 (v : Z) :
  sign_extend v 31 = v mod 2 ^ 30 - (if Z.testbit v 30 then 2 ^ 30 else 0).
Proof.
  unfold sign_extend.
  change (Z.shiftl 1 (31 - 1)) with (2 ^ 30).
  change (2 ^ 30 - 1) with (Z.ones 30).
  rewrite Z.land_ones by lia.
  rewrite land_pow2_testbit by lia. reflexivity.
Qed.

Lemma sign_extend_31_range (v : Z) :
  (Z.testbit v 30 = false -> 0 <= sign_extend v 31 < 2 ^ 30) /\
  (Z.testbit v 30 = true -> - 2 ^ 30 <= sign_extend v 31 < 0).
Proof.
  rewrite sign_extend_31.
  pose proof (Z.mod_pos_bound v (2 ^ 30) ltac:(lia)).
  split; intros ->; lia.
Qed.

(** C7, as amended: without wrap-around of the 32-bit sum, a field whose
    bit 30 is clear resolves to at least [reference - 2^30] and a field
    whose bit 30 is set resolves strictly below [reference]. *)
Theorem prel31_to_addr_bounds (field reference : Z) :
  0 <= field < 2 ^ 32 -> Z.testbit field 31 = false ->
  0 <= reference < 2 ^ 32 ->
  0 <= reference + sign_extend field 31 < 2 ^ 32 ->
  prel31_bound_property field reference.
Proof.
  intros _ _ Href Hsum.
  unfold prel31_bound_property, prel31_to_addr, c_uint. cbv zeta.
  rewrite Z.mod_small by assumption.
  destruct (sign_extend_31_range field) as [H0 H1].
  split; intros Hb; [specialize (H0 Hb) | specialize (H1 Hb)]; lia.
Qed.

Lemma prel31_to_addr_bounds_witness :
  prel31_bound_property 0x7FFFFFF8 0x1000010.
Proof.
  apply (prel31_to_addr_bounds 0x7FFFFFF8 0x1000010);
    [lia | reflexivity | lia | vm_compute; split; [discriminate | reflexivity]].
Defined.

(** C7, as stated, fails where the sum wraps: a forward offset from the top
    of the address space lands at the bottom, and a backward offset from
    the bottom lands at the top. *)
Lemma prel31_to_addr_wraps :
  (Z.testbit 1 31 = false /\ Z.testbit 1 30 = false /\
   prel31_to_addr 1 0xFFFFFFFF = 0 /\
   ~ prel31_bound_property 1 0xFFFFFFFF) /\
  (Z.testbit 0x7FFFFFFF 31 = false /\ Z.testbit 0x7FFFFFFF 30 = true /\
   prel31_to_addr 0x7FFFFFFF 0 = 0xFFFFFFFF /\
   ~ prel31_bound_property 0x7FFFFFFF 0).
Proof.
  repeat split; try reflexivity.
  - intros [H _]. specialize (H eq_refl). vm_compute in H. auto.
  - intros [_ H]. specialize (H eq_refl). vm_compute in H. discriminate.
Qed.

(** ** Reading the image *)

Lemma read_at_nonneg (img : image) (pos n : Z) (buf : list byte) :
  read_at img pos n = Ok buf -> 0 <= pos.
Proof.
  unfold read_at. destruct (Z.ltb_spec pos 0); [discriminate | lia].
Qed.

Lemma readinto_ExIdxEntry_some (img : image) (pos : Z) (e : ExIdxEntry) :
  readinto_ExIdxEntry img pos = Ok (Some e) ->
  0 <= pos /\ pos + sizeof_ExIdxEntry <= Z.of_nat (List.length img).
Proof.
  unfold readinto_ExIdxEntry, read_at, sizeof_ExIdxEntry.
  destruct (Z.ltb_spec pos 0) as [|Hpos]; [discriminate |]. simpl.
  intros Hr. split; [assumption |].
  assert (Hl : (8 <= List.length (skipn (Z.to_nat pos) img))%nat).
  { destruct (skipn (Z.to_nat pos) img) as [|b0 [|b1 [|b2 [|b3 [|b4 [|b5
      [|b6 [|b7 r]]]]]]]]; simpl in Hr; try discriminate. simpl. lia. }
  rewrite length_skipn in Hl. lia.
Qed.


(** ** The padding check *)

Lemma nodup_short_all_equal (l : list byte) (x y : byte) :
  (List.length (nodup byte_eq_dec l) <= 1)%nat ->
  In x l -> In y l -> x = y.
Proof.
  intros Hlen Hx Hy.
  apply (nodup_In byte_eq_dec) in Hx. apply (nodup_In byte_eq_dec) in Hy.
  destruct (nodup byte_eq_dec l) as [|a [|b r]]; simpl in *;
    [contradiction | | lia].
  destruct Hx as [<-|[]], Hy as [<-|[]]. reflexivity.
Qed.

Lemma all_equal_nodup_short (l : list byte) (b : byte) :
  (forall x, In x l -> x = b) ->
  (List.length (nodup byte_eq_dec l) <= 1)%nat.
Proof.
  intros Hall.
  pose proof (NoDup_nodup byte_eq_dec l) as Hnd.
  assert (Hall' : forall x, In x (nodup byte_eq_dec l) -> x = b)
    by (intros x Hx; apply Hall; apply (nodup_In byte_eq_dec); exact Hx).
  destruct (nodup byte_eq_dec l) as [|a [|a' r]]; simpl; try lia.
  exfalso. inversion Hnd as [|? ? Hnotin _]; subst.
  apply Hnotin. left.
  rewrite (Hall' a) by (left; reflexivity).
  rewrite (Hall' a') by (right; left; reflexivity). reflexivity.
Qed.


(** ** The scan of one alignment *)

Section Scan.
Variables (po : Options) (img : image).
Variables (memaddr_base func_align sect_align : Z).

Lemma count_entries_bounds (fuel : nat) (pos entry_pos entry_count : Z)
    (eof : bool) (c p : Z) :
  count_entries fuel po img memaddr_base func_align pos entry_pos
    entry_count = Ok (eof, c, p) ->
  0 <= entry_pos <= p /\
  (eof = false -> p + sizeof_ExIdxEntry <= Z.of_nat (List.length img)) /\
  (eof = false -> p = entry_pos -> c = entry_count) /\
  (eof = false ->
   entry_pos + sizeof_ExIdxEntry <= Z.of_nat (List.length img)).
Proof.
  revert entry_pos entry_count.
  induction fuel as [|fuel IH]; intros entry_pos entry_count; simpl;
    [discriminate |].
  destruct (readinto_ExIdxEntry img entry_pos) as [[e|]| |] eqn:Hr;
    simpl; try discriminate.
  - apply readinto_ExIdxEntry_some in Hr.
    destruct (armfw_is_proper_ARMexidx_entry po img e memaddr_base
                func_align pos entry_pos) as [[|]| |]; simpl;
      try discriminate.
    + intros H. apply IH in H. unfold sizeof_ExIdxEntry in *.
      intuition lia.
    + intros H. inversion H; subst. intuition lia.
  - intros H. inversion H; subst.
    unfold readinto_ExIdxEntry in Hr.
    destruct (read_at img p sizeof_ExIdxEntry) eqn:Hread;
      simpl in Hr; try discriminate.
    apply read_at_nonneg in Hread. intuition (try discriminate; lia).
Qed.

Lemma examine_candidate_ok (fuel : nat) (pos : Z) (r : option Z) :
  examine_candidate fuel po img memaddr_base func_align sect_align pos
    = Ok r ->
  0 <= pos /\
  (r <> None -> pos + sizeof_ExIdxEntry <= Z.of_nat (List.length img)).
Proof.
  unfold examine_candidate.
  destruct (count_entries fuel po img memaddr_base func_align pos pos 0)
    as [[[eof c] p]| |] eqn:Hc; simpl; try discriminate.
  apply count_entries_bounds in Hc.
  destruct eof; intros H.
  - inversion H; subst. split; [lia | congruence].
  - split; [lia |]. intros _. apply Hc. reflexivity.
Qed.

Lemma last_cons {A} (a d : A) (l : list A) : last (a :: l) d = last l a.
Proof.
  revert a d. induction l as [|b l IH]; intros a d; [reflexivity |].
  change (last (a :: b :: l) d) with (last (b :: l) d).
  rewrite (IH b d), (IH b a). reflexivity.
Qed.

Variable fuel_in : nat.

Let examine := examine_candidate fuel_in po img memaddr_base func_align
                 sect_align.
Let rl := run_length fuel_in po img memaddr_base func_align sect_align.
Let acc := accepted fuel_in po img memaddr_base func_align sect_align.

(** The accumulator of the scan summarises the accepted candidates:
    their number, and the position and length of the last one. *)
Lemma fold_consider_summary (ps : list Z) (m : matches) :
  fold_left (fun m p => consider m p (rl p)) ps m
  = {| match_count := match_count m
                      + Z.of_nat (List.length (filter acc ps));
       match_pos := last (filter acc ps) (match_pos m);
       match_entries := last (map rl (filter acc ps)) (match_entries m) |}.
Proof.
  revert m. induction ps as [|p ps IH]; intros m; simpl.
  - destruct m; simpl. f_equal. lia.
  - rewrite IH. unfold consider, acc, accepted. fold rl.
    destruct (rl p >? 0) eqn:E; [| reflexivity].
    cbn [match_count match_pos match_entries map].
    rewrite !last_cons. f_equal.
    cbn [List.length]. lia.
Qed.

Lemma candidate_pos_succ (pos : Z) (k : nat) :
  candidate_pos (pos + sect_align) sect_align k
  = candidate_pos pos sect_align (S k).
Proof. unfold candidate_pos. lia. Qed.

(** The scan examines every candidate up to the one that meets the end
    of the file, whatever was accepted before. *)
Lemma scan_candidates_fold (K : nat) :
  forall (fuel : nat) (pos : Z) (m : matches),
  (K < fuel)%nat ->
  (forall k, (k < K)%nat ->
     exists n, examine (candidate_pos pos sect_align k) = Ok (Some n)) ->
  examine (candidate_pos pos sect_align K) = Ok None ->
  scan_candidates fuel fuel_in po img memaddr_base func_align sect_align
    pos m
  = Ok (fold_left (fun m p => consider m p (rl p))
          (map (candidate_pos pos sect_align) (seq 0 K)) m).
Proof.
  induction K as [|K IH]; intros fuel pos m Hfuel Hsome Hnone;
    (destruct fuel as [|fuel]; [lia |]); simpl.
  - replace (candidate_pos pos sect_align 0) with pos in Hnone
      by (unfold candidate_pos; lia).
    unfold examine in Hnone. rewrite Hnone. reflexivity.
  - destruct (Hsome 0%nat ltac:(lia)) as [n Hn].
    replace (candidate_pos pos sect_align 0) with pos in *
      by (unfold candidate_pos; lia).
    unfold examine in Hn. rewrite Hn. simpl.
    rewrite IH.
    + rewrite <- seq_shift, map_map.
      replace (rl pos) with n
        by (unfold rl, run_length; rewrite Hn; reflexivity).
      f_equal. f_equal.
      apply map_ext. intros k. apply candidate_pos_succ.
    + lia.
    + intros k Hk. rewrite candidate_pos_succ. apply Hsome. lia.
    + rewrite candidate_pos_succ. exact Hnone.
Qed.

(** No more candidates are examined than the image has bytes. *)
Lemma candidates_within_image (start_pos : Z) (K : nat) :
  sizeof_ExIdxEntry <= sect_align ->
  (forall k, (k < K)%nat ->
     exists n,
       examine (candidate_pos start_pos sect_align k) = Ok (Some n)) ->
  examine (candidate_pos start_pos sect_align K) = Ok None ->
  (K <= List.length img)%nat.
Proof.
  unfold sizeof_ExIdxEntry. intros Hal Hsome Hnone.
  destruct K as [|K]; [lia |].
  destruct (Hsome 0%nat ltac:(lia)) as [n0 H0].
  destruct (Hsome K ltac:(lia)) as [n Hn].
  apply examine_candidate_ok in H0. apply examine_candidate_ok in Hn.
  destruct H0 as [H0 _]. destruct Hn as [_ Hn].
  specialize (Hn ltac:(discriminate)).
  unfold candidate_pos, sizeof_ExIdxEntry in *. nia.
Qed.
End Scan.

(** X29: at one alignment, let the examination of each of the first [K]
    candidates end without an error and without meeting the end of the
    file, and let the next one meet it.  Then the scanner has tried all of
    them, returns the position and the byte length of the last accepted
    one ([(-1, 0)] when there is none), and prints the ambiguity warning
    exactly when more than one was accepted. *)
Theorem detect_returns_last_match (fuel : nat) (po : Options) (img : image)
    (memaddr_base start_pos func_align sect_align : Z) (K : nat) :
  sizeof_ExIdxEntry <= sect_align ->
  (List.length img < fuel)%nat ->
  (forall k, (k < K)%nat ->
     exists n,
       examine_candidate fuel po img memaddr_base func_align sect_align
         (candidate_pos start_pos sect_align k) = Ok (Some n)) ->
  examine_candidate fuel po img memaddr_base func_align sect_align
    (candidate_pos start_pos sect_align K) = Ok None ->
  let runs :=
    accepted_runs fuel po img memaddr_base func_align sect_align start_pos K
  in
  armfw_detect_sect_ARMexidx fuel po img memaddr_base start_pos func_align
    sect_align
  = ((if (1 <? List.length runs)%nat
      then [Warn_multiple_matches (Z.of_nat (List.length runs)) sect_align]
      else []),
     Ok (last runs (-1),
         last (map (run_length fuel po img memaddr_base func_align
                      sect_align) runs) 0 * sizeof_ExIdxEntry)).
Proof.
  intros Hal Hfuel Hsome Hnone runs.
  pose proof (candidates_within_image po img memaddr_base func_align
                sect_align fuel start_pos K Hal Hsome Hnone) as HK.
  unfold armfw_detect_sect_ARMexidx.
  destruct (Z.geb_spec sect_align sizeof_ExIdxEntry) as [_|]; [| lia].
  cbn [negb].
  rewrite (scan_candidates_fold po img memaddr_base func_align sect_align
             fuel K fuel start_pos no_match ltac:(lia) Hsome Hnone).
  rewrite fold_consider_summary.
  fold (accepted_runs fuel po img memaddr_base func_align sect_align
          start_pos K). fold runs.
  unfold lift, mbind, eprint, ret.
  cbn [match_count match_pos match_entries no_match].
  destruct runs as [|p [|q runs']].
  - reflexivity.
  - reflexivity.
  - cbn [List.length Nat.ltb Nat.leb].
    destruct (Z.gtb_spec (0 + Z.of_nat (S (S (List.length runs')))) 1);
      [| lia].
    destruct (Z.ltb_spec (0 + Z.of_nat (S (S (List.length runs')))) 1);
      [lia |].
    replace (0 + Z.of_nat (S (S (List.length runs'))))
      with (Z.of_nat (S (S (List.length runs')))) by lia.
    reflexivity.
Qed.

Lemma detect_returns_last_match_witness :
  armfw_detect_sect_ARMexidx 100 po_default img_two_runs 0x1000000 0 2 0x10
  = ([Warn_multiple_matches 2 0x10], Ok (32, 16)).
Proof.
  apply (detect_returns_last_match 100 po_default img_two_runs 0x1000000 0
           2 0x10 4).
  - unfold sizeof_ExIdxEntry. lia.
  - vm_compute. lia.
  - intros k Hk.
    destruct k as [|[|[|[|k]]]]; [| | | | lia];
      vm_compute; eexists; reflexivity.
  - vm_compute. reflexivity.
Defined.

(** C1, failing input: an error in the examination of a later candidate
    loses the matches found before it.  On [img_table_below_base] the
    candidates at offsets 16 and 32 are accepted, each a run of one entry.
    The entry at offset 48 passes the tests of its first word, and its
    table address, 16 bytes below the base address, passes the window
    test, whose lower bound [memaddr_base + arr_pos - 0x100] lies below
    the base address: the validator seeks to file offset -16.  The
    [OSError] ends the scan: the scanner returns no position and prints no
    warning, and settling [.ARM.exidx] fails with it. *)
Theorem detect_raises_after_two_matches :
  examine_candidate 100 po_default img_table_below_base 0x1000000 2 0x10 16
  = Ok (Some 1) /\
  examine_candidate 100 po_default img_table_below_base 0x1000000 2 0x10 32
  = Ok (Some 1) /\
  examine_candidate 100 po_default img_table_below_base 0x1000000 2 0x10 48
  = Raise OSError /\
  armfw_detect_sect_ARMexidx 100 po_default img_table_below_base 0x1000000
    0 2 0x10
  = ([], Raise OSError) /\
  armfw_bin2elf_settle_sect_ARMexidx 100 po_default img_table_below_base
  = ([], Raise OSError).
Proof.
  repeat split; vm_compute; reflexivity.
Qed.

(** ** Termination of the scan *)

Lemma outside_text_fuel (addr memaddr_base func_align arr_pos : Z) :
  outside_text addr memaddr_base func_align arr_pos <> OutOfFuel.
Proof.
  unfold outside_text, not_multiple.
  repeat match goal with |- context [if ?c then _ else _] => destruct c end;
    discriminate.
Qed.

Lemma armfw_is_proper_ARMexidx_entry_fuel (po : Options) (img : image)
    (e : ExIdxEntry) (memaddr_base func_align arr_pos ent_pos : Z) :
  armfw_is_proper_ARMexidx_entry po img e memaddr_base func_align arr_pos
    ent_pos <> OutOfFuel.
Proof.
  unfold armfw_is_proper_ARMexidx_entry.
  destruct (_ || _); [discriminate |].
  match goal with |- context [outside_text ?a ?b ?c ?d] =>
    pose proof (outside_text_fuel a b c d);
    destruct (outside_text a b c d) as [[|]| |] end;
    simpl; try discriminate; try congruence.
  repeat match goal with
         | |- context [if ?c then _ else _] => destruct c
         end; try discriminate.
  unfold readinto_c_uint, read_at.
  repeat match goal with
         | |- context [if ?c then _ else _] => destruct c
         end; simpl; try discriminate;
  match goal with |- context [match ?l with _ => _ end] =>
    destruct l as [|? [|? [|? [|? [|? ?]]]]] end; simpl; try discriminate;
  match goal with |- context [outside_text ?a ?b ?c ?d] =>
    pose proof (outside_text_fuel a b c d);
    destruct (outside_text a b c d) as [[|]| |] end;
    simpl; try discriminate; congruence.
Qed.

Lemma readinto_ExIdxEntry_fuel (img : image) (pos : Z) :
  readinto_ExIdxEntry img pos <> OutOfFuel.
Proof.
  unfold readinto_ExIdxEntry, read_at.
  destruct (pos <? 0); [discriminate |]. simpl.
  destruct (skipn (Z.to_nat pos) img) as [|b0 [|b1 [|b2 [|b3 [|b4 [|b5
      [|b6 [|b7 r]]]]]]]]; simpl; discriminate.
Qed.

Section Termination.
Variables (po : Options) (img : image).
Variables (memaddr_base func_align sect_align : Z).

Lemma count_entries_fuel (fuel : nat) :
  forall pos entry_pos entry_count,
  Z.of_nat (List.length img) - entry_pos < Z.of_nat fuel ->
  (0 < fuel)%nat ->
  count_entries fuel po img memaddr_base func_align pos entry_pos
    entry_count <> OutOfFuel.
Proof.
  induction fuel as [|fuel IH]; intros pos entry_pos entry_count Hlen Hpos;
    [lia |]. simpl.
  pose proof (readinto_ExIdxEntry_fuel img entry_pos) as Hnf.
  destruct (readinto_ExIdxEntry img entry_pos) as [[e|]| |] eqn:Hr;
    simpl; try discriminate; try congruence.
  apply readinto_ExIdxEntry_some in Hr. unfold sizeof_ExIdxEntry in *.
  pose proof (armfw_is_proper_ARMexidx_entry_fuel po img e memaddr_base
                func_align pos entry_pos) as Hv.
  destruct (armfw_is_proper_ARMexidx_entry po img e memaddr_base
              func_align pos entry_pos) as [[|]| |]; simpl;
    try discriminate; try congruence.
  apply IH; lia.
Qed.

Lemma check_padding_fuel (entry_pos entry_count : Z) :
  check_padding img sect_align entry_pos entry_count <> OutOfFuel.
Proof.
  unfold check_padding, read_at.
  repeat match goal with
         | |- context [if ?c then _ else _] => destruct c
         end; simpl; try discriminate;
  match goal with |- context [match ?l with _ => _ end] =>
    destruct l end; try discriminate;
  destruct (_ || _); discriminate.
Qed.

Lemma examine_candidate_fuel (fuel : nat) (pos : Z) :
  (List.length img < fuel)%nat -> 0 <= pos ->
  examine_candidate fuel po img memaddr_base func_align sect_align pos
  <> OutOfFuel.
Proof.
  intros Hfuel Hpos. unfold examine_candidate.
  pose proof (count_entries_fuel fuel pos pos 0 ltac:(lia) ltac:(lia))
    as Hc.
  destruct (count_entries fuel po img memaddr_base func_align pos pos 0)
    as [[[eof c] p]| |]; simpl; try discriminate; try congruence.
  destruct eof; [discriminate |].
  pose proof (check_padding_fuel p c) as Hp.
  destruct (check_padding img sect_align p c); simpl;
    try discriminate; congruence.
Qed.

Lemma scan_candidates_fuel (fuel_in : nat) :
  sizeof_ExIdxEntry <= sect_align ->
  (List.length img < fuel_in)%nat ->
  forall (fuel : nat) (pos : Z) (m : matches),
  0 <= pos ->
  Z.of_nat (List.length img) - pos < Z.of_nat fuel -> (0 < fuel)%nat ->
  scan_candidates fuel fuel_in po img memaddr_base func_align sect_align
    pos m <> OutOfFuel.
Proof.
  unfold sizeof_ExIdxEntry. intros Hal Hin.
  induction fuel as [|fuel IH]; intros pos m Hpos Hlen Hfuel; [lia |].
  simpl.
  pose proof (examine_candidate_fuel fuel_in pos Hin Hpos) as Hx.
  destruct (examine_candidate fuel_in po img memaddr_base func_align
              sect_align pos) as [[n|]| |] eqn:He; simpl;
    try discriminate; try congruence.
  apply examine_candidate_ok in He. destruct He as [_ He].
  specialize (He ltac:(discriminate)). unfold sizeof_ExIdxEntry in He.
  apply IH; lia.
Qed.
End Termination.

(** The scanner returns, or raises, within the iterations it is given as
    soon as these exceed the length of the image. *)
Lemma armfw_detect_sect_ARMexidx_terminates (fuel : nat) (po : Options)
    (img : image) (memaddr_base start_pos func_align sect_align : Z) :
  (List.length img < fuel)%nat -> 0 <= start_pos ->
  snd (armfw_detect_sect_ARMexidx fuel po img memaddr_base start_pos
         func_align sect_align) <> OutOfFuel.
Proof.
  intros Hfuel Hstart. unfold armfw_detect_sect_ARMexidx.
  destruct (Z.geb_spec sect_align sizeof_ExIdxEntry) as [Hal|];
    cbn [negb]; [| discriminate].
  pose proof (scan_candidates_fuel po img memaddr_base func_align sect_align
                fuel ltac:(lia) Hfuel fuel start_pos no_match Hstart
                ltac:(lia) ltac:(lia)) as Hs.
  unfold lift, mbind, eprint, ret.
  destruct (scan_candidates fuel fuel po img memaddr_base func_align
              sect_align start_pos no_match) as [m| |];
    try discriminate; try congruence.
  destruct (match_count m >? 1), (match_count m <? 1); discriminate.
Qed.

(** ** The padding of a candidate *)





(** ** Dictionaries *)

Lemma dict_get_set_same (d : dict) (k : string) (v : Z) :
  dict_get (dict_set d k v) k = Some v.
Proof.
  induction d as [|[k' v'] d IH]; simpl.
  - rewrite String.eqb_refl. reflexivity.
  - destruct (String.eqb k k') eqn:E; simpl; rewrite E;
      [reflexivity | exact IH].
Qed.

Lemma dict_get_set_other (d : dict) (k k' : string) (v : Z) :
  k <> k' -> dict_get (dict_set d k v) k' = dict_get d k'.
Proof.
  intros Hne. induction d as [|[k0 v0] d IH]; simpl.
  - destruct (String.eqb_spec k' k); [congruence | reflexivity].
  - destruct (String.eqb_spec k k0) as [->|Hk]; simpl.
    + destruct (String.eqb_spec k' k0); [congruence | reflexivity].
    + destruct (String.eqb_spec k' k0); [reflexivity | exact IH].
Qed.

Lemma dict_get_In (d : dict) (k : string) (v : Z) :
  dict_get d k = Some v -> In (k, v) d.
Proof.
  induction d as [|[k' v'] d IH]; simpl; [discriminate |].
  destruct (String.eqb_spec k k') as [->|Hk].
  - intros [= ->]. left. reflexivity.
  - intros H. right. exact (IH H).
Qed.

Lemma dict_wf_In_get (d : dict) (k : string) (v : Z) :
  dict_wf d -> In (k, v) d -> dict_get d k = Some v.
Proof.
  unfold dict_wf. induction d as [|[k' v'] d IH]; simpl; [contradiction |].
  intros Hnd Hin. inversion Hnd as [|? ? Hnotin Hnd']; subst.
  destruct Hin as [[= -> ->]|Hin].
  - rewrite String.eqb_refl. reflexivity.
  - destruct (String.eqb_spec k k') as [->|Hk]; [| exact (IH Hnd' Hin)].
    exfalso. apply Hnotin. apply (in_map fst) in Hin. exact Hin.
Qed.

(** ** SectionLayoutResolver *)

(** C10: with an address given for [.ARM.exidx] and no size, the section
    keeps its address and gets the section alignment as its size, whatever
    the image holds and even when the scanners are given no iteration at
    all: neither scanner is run. *)
Theorem settle_ARMexidx_address_override (fuel : nat) (po : Options)
    (img : image) (addr : Z) :
  dict_get (section_addr po) ".ARM.exidx" = Some addr ->
  dict_get (section_size po) ".ARM.exidx" = None ->
  exists po',
    armfw_bin2elf_settle_sect_ARMexidx fuel po img = ([], Ok po') /\
    section_addr po' = section_addr po /\
    dict_get (section_size po') ".ARM.exidx" = Some (expect_sect_align po) /\
    armfw_bin2elf_settle_sect_ARMexidx 0 po [] = ([], Ok po').
Proof.
  intros Haddr Hsize.
  exists (set_section_size po
            (dict_set (section_size po) ".ARM.exidx" (expect_sect_align po))).
  assert (Hrun : forall f i,
            armfw_bin2elf_settle_sect_ARMexidx f po i
            = ([], Ok (set_section_size po
                         (dict_set (section_size po) ".ARM.exidx"
                            (expect_sect_align po))))).
  { intros f i. unfold armfw_bin2elf_settle_sect_ARMexidx.
    unfold dict_mem, dict_lookup. rewrite Haddr. cbn [negb].
    unfold lift, mbind, ret. rewrite Hsize. reflexivity. }
  split; [apply Hrun |]. split; [reflexivity |].
  split; [| apply Hrun].
  unfold set_section_size. cbn [section_size].
  apply dict_get_set_same.
Qed.

Lemma settle_ARMexidx_address_override_witness :
  exists po',
    armfw_bin2elf_settle_sect_ARMexidx 100 po_exidx_at_16 img_two_runs
      = ([], Ok po') /\
    section_addr po' = section_addr po_exidx_at_16 /\
    dict_get (section_size po') ".ARM.exidx" = Some 0x10 /\
    armfw_bin2elf_settle_sect_ARMexidx 0 po_exidx_at_16 [] = ([], Ok po').
Proof.
  apply (settle_ARMexidx_address_override 100 po_exidx_at_16 img_two_runs
           0x1000010); reflexivity.
Defined.

(** Without the override the scanner is run: on the same image it finds
    the section at offset 32, and with no iteration allowed it cannot
    finish. *)
Lemma settle_ARMexidx_scans_without_override :
  (exists po',
     armfw_bin2elf_settle_sect_ARMexidx 100 po_default img_two_runs
       = ([Warn_multiple_matches 2 0x10], Ok po') /\
     dict_get (section_addr po') ".ARM.exidx" = Some 0x1000020 /\
     dict_get (section_size po') ".ARM.exidx" = Some 16) /\
  armfw_bin2elf_settle_sect_ARMexidx 0 po_default img_two_runs
    = ([], OutOfFuel).
Proof.
  split; [eexists; repeat split; vm_compute; reflexivity |].
  vm_compute. reflexivity.
Qed.

(** C5, as amended: with no override for [.text], the code region starts
    at the base address and spans the offset of [.ARM.exidx]; the resolver
    raises exactly when that span is at most eight times the function
    alignment. *)
Theorem settle_text_needs_more_than_8_aligns (po : Options)
    (exidx_addr : Z) :
  dict_get (section_addr po) ".ARM.exidx" = Some exidx_addr ->
  dict_get (section_addr po) ".text" = None ->
  dict_get (section_size po) ".text" = None ->
  let span := exidx_addr - baseaddr po in
  (span <= 8 * expect_func_align po ->
   exists msg, armfw_bin2elf_settle_sect_text po = Raise (EOFError msg)) /\
  (8 * expect_func_align po < span ->
   exists po',
     armfw_bin2elf_settle_sect_text po = Ok po' /\
     dict_get (section_addr po') ".text" = Some (baseaddr po) /\
     dict_get (section_size po') ".text" = Some span /\
     dict_get (section_addr po') ".ARM.exidx" = Some exidx_addr).
Proof.
  intros Hex Htext Hsize span.
  unfold armfw_bin2elf_settle_sect_text, dict_mem, dict_lookup.
  rewrite Hex, Htext. cbn [negb obind]. fold span.
  split; intros Hspan.
  - destruct (Z.gtb_spec span (expect_func_align po * 8)); [lia |].
    eexists. reflexivity.
  - destruct (Z.gtb_spec span (expect_func_align po * 8)); [| lia].
    cbn [obind set_section_addr section_size section_addr].
    rewrite Hsize. cbn [negb].
    rewrite dict_get_set_same. cbn [obind].
    eexists. split; [reflexivity |].
    unfold set_section_size, set_section_addr.
    cbn [section_addr section_size baseaddr].
    rewrite !dict_get_set_same.
    rewrite dict_get_set_other by discriminate.
    repeat split; try assumption; f_equal; lia.
Qed.

Lemma settle_text_needs_more_than_8_aligns_witness :
  (0x1000010 - 0x1000000 <= 8 * 2 ->
   exists msg,
     armfw_bin2elf_settle_sect_text po_exidx_at_16 = Raise (EOFError msg)) /\
  (8 * 2 < 0x1000010 - 0x1000000 ->
   exists po',
     armfw_bin2elf_settle_sect_text po_exidx_at_16 = Ok po' /\
     dict_get (section_addr po') ".text" = Some 0x1000000 /\
     dict_get (section_size po') ".text" = Some (0x1000010 - 0x1000000) /\
     dict_get (section_addr po') ".ARM.exidx" = Some 0x1000010).
Proof.
  apply (settle_text_needs_more_than_8_aligns po_exidx_at_16 0x1000010);
    reflexivity.
Defined.

(** C5, as stated, fails on a span of exactly eight times the function
    alignment: the span is not smaller than the bound, and the resolver
    raises all the same. *)
Lemma settle_text_rejects_span_of_8_aligns :
  dict_get (section_addr po_exidx_at_16) ".ARM.exidx" = Some 0x1000010 /\
  0x1000010 - baseaddr po_exidx_at_16
    = 8 * expect_func_align po_exidx_at_16 /\
  armfw_bin2elf_settle_sect_text po_exidx_at_16
    = Raise (EOFError
        "No place for '.text' section before the '.ARM.exidx' section in binary file.").
Proof. repeat split. Qed.

(** ** LayoutReconciler: the order of sections *)

Lemma insert_sorted_In (a x : Z) (l : list Z) :
  In x (insert_sorted a l) <-> x = a \/ In x l.
Proof.
  induction l as [|b l IH]; simpl; [intuition |].
  destruct (Z.ltb_spec a b); [simpl; intuition |].
  destruct (Z.eqb_spec a b) as [->|Hne]; simpl; [intuition |].
  rewrite IH. intuition.
Qed.

Lemma sorted_set_In (x : Z) (l : list Z) : In x (sorted_set l) <-> In x l.
Proof.
  unfold sorted_set. induction l as [|a l IH]; simpl; [reflexivity |].
  rewrite insert_sorted_In, IH. intuition.
Qed.

Section Order.
Variables (po : Options) (addrspace_limit : Z).

(** A name enters the order only with an item of [po.section_addr] at the
    address being handled. *)
Lemma add_empty_sections_In (sortaddr : Z) (n : string)
    (order : list string) :
  In n (add_empty_sections po sortaddr order) ->
  In n order \/ In (n, sortaddr) (section_addr po).
Proof.
  unfold add_empty_sections. revert order.
  induction (section_addr po) as [|[k a] items IH]; intros order; simpl;
    [auto |].
  intros H. apply IH in H. destruct H as [H|H]; [| auto].
  destruct (Z.eqb_spec a sortaddr) as [->|]; [| auto].
  destruct (dict_get (section_size po) k) as [size|]; [| auto].
  destruct (size <? 1); [| auto].
  apply in_app_or in H. destruct H as [H|[<-|[]]]; auto.
Qed.

Lemma add_other_sections_In (sortaddr : Z) (n : string)
    (order : list string) :
  In n (add_other_sections po sortaddr order) ->
  In n order \/ In (n, sortaddr) (section_addr po).
Proof.
  unfold add_other_sections. revert order.
  induction (section_addr po) as [|[k a] items IH]; intros order; simpl;
    [auto |].
  intros H. apply IH in H. destruct H as [H|H]; [| auto].
  destruct (Z.eqb_spec a sortaddr) as [->|]; [| auto].
  destruct (negb (list_mem k order)); [| auto].
  apply in_app_or in H. destruct H as [H|[<-|[]]]; auto.
Qed.

(** The loop never raises; what it adds lies within the limit; it warns
    once, at the first address beyond the limit, when there is one. *)
Lemma order_from_spec (addrs : list Z) :
  forall order0,
  exists ws order,
    order_from po addrspace_limit addrs order0 = (ws, Ok order) /\
    (forall n, In n order ->
       In n order0 \/
       exists a, In (n, a) (section_addr po) /\ a <= addrspace_limit) /\
    ((exists a, In a addrs /\ addrspace_limit < a) ->
     exists a0, ws = [Warn_beyond_limit a0] /\ In a0 addrs /\
                addrspace_limit < a0) /\
    ((forall a, In a addrs -> a <= addrspace_limit) -> ws = []).
Proof.
  induction addrs as [|a addrs IH]; intros order0; simpl.
  - exists [], order0. repeat split; auto.
    intros (a & [] & _).
  - destruct (Z.gtb_spec a addrspace_limit) as [Hgt|Hle].
    + exists [Warn_beyond_limit a], order0. repeat split; auto.
      * intros _. exists a. auto.
      * intros Hall. specialize (Hall a (or_introl eq_refl)). lia.
    + destruct (IH (add_other_sections po a
                      (add_empty_sections po a order0)))
        as (ws & order & Heq & Hin & Hwarn & Hnone).
      exists ws, order. split; [exact Heq |]. split; [| split].
      * intros n Hn. apply Hin in Hn. destruct Hn as [Hn|Hn]; [| auto].
        apply add_other_sections_In in Hn. destruct Hn as [Hn|Hn].
        -- apply add_empty_sections_In in Hn. destruct Hn as [Hn|Hn];
             [auto | right; exists a; auto].
        -- right. exists a. auto.
      * intros (a' & [->|Ha'] & Hlim); [lia |].
        destruct Hwarn as (a0 & -> & Ha0 & Hlim0); [eauto |].
        exists a0. auto.
      * intros Hall. apply Hnone. intros a' Ha'. apply Hall. auto.
Qed.
End Order.

(** C9: a section whose address exceeds the address-space limit is left
    out of the section order, with every section at a higher address; the
    function returns the order and only prints a warning. *)
Theorem sections_beyond_limit_omitted (po : Options) (addrspace_limit : Z)
    (sectname : string) (addr : Z) :
  dict_wf (section_addr po) ->
  dict_get (section_addr po) sectname = Some addr ->
  addrspace_limit < addr ->
  exists a0 order,
    armfw_bin2elf_get_sections_order po addrspace_limit
      = ([Warn_beyond_limit a0], Ok order) /\
    addrspace_limit < a0 /\
    ~ In sectname order /\
    (forall sectname' addr',
       dict_get (section_addr po) sectname' = Some addr' ->
       addr < addr' -> ~ In sectname' order).
Proof.
  intros Hwf Hget Hlim. unfold armfw_bin2elf_get_sections_order.
  destruct (order_from_spec po addrspace_limit
              (sorted_set (map snd (section_addr po))) [])
    as (ws & order & Heq & Hin & Hwarn & _).
  destruct Hwarn as (a0 & -> & _ & Hlim0).
  { exists addr. split; [| exact Hlim].
    apply sorted_set_In. apply dict_get_In in Hget.
    apply (in_map snd) in Hget. exact Hget. }
  assert (Hout : forall n a, dict_get (section_addr po) n = Some a ->
                   addrspace_limit < a -> ~ In n order).
  { intros n a Hn Ha Hno. apply Hin in Hno.
    destruct Hno as [[]|(a' & Hitem & Hle)].
    apply (dict_wf_In_get _ _ _ Hwf) in Hitem. rewrite Hitem in Hn.
    injection Hn as ->. lia. }
  exists a0, order. split; [exact Heq |]. split; [exact Hlim0 |].
  split; [exact (Hout _ _ Hget Hlim) |].
  intros n a Hn Ha. apply (Hout _ _ Hn). lia.
Qed.

Lemma sections_beyond_limit_omitted_witness :
  exists a0 order,
    armfw_bin2elf_get_sections_order po_far_section (2 ^ 32 - 1)
      = ([Warn_beyond_limit a0], Ok order) /\
    2 ^ 32 - 1 < a0 /\
    ~ In ".far" order /\
    (forall sectname' addr',
       dict_get (section_addr po_far_section) sectname' = Some addr' ->
       0x100000000 < addr' -> ~ In sectname' order).
Proof.
  apply (sections_beyond_limit_omitted po_far_section (2 ^ 32 - 1) ".far"
           0x100000000).
  - unfold dict_wf. vm_compute.
    repeat (constructor; [simpl; intuition discriminate |]). constructor.
  - reflexivity.
  - lia.
Defined.

(** ** LayoutReconciler: the sizes *)

Lemma mbind_assoc {A B C} (c : M A) (f : A -> M B) (g : B -> M C) :
  mbind (mbind c f) g = mbind c (fun a => mbind (f a) g).
Proof.
  destruct c as [ws [a| |]]; simpl; try reflexivity.
  destruct (f a) as [ws1 [b| |]]; simpl; try reflexivity.
  destruct (g b) as [ws2 r]. rewrite app_assoc. reflexivity.
Qed.

Lemma mbind_ext {A B} (c : M A) (f g : A -> M B) :
  (forall a, f a = g a) -> mbind c f = mbind c g.
Proof.
  intros H. destruct c as [ws [a| |]]; simpl; try reflexivity.
  rewrite H. reflexivity.
Qed.

Lemma mfold_app {S A} (f : S -> A -> M S) (l1 l2 : list A) (s : S) :
  mfold f (l1 ++ l2) s = mbind (mfold f l1 s) (mfold f l2).
Proof.
  revert s. induction l1 as [|a l1 IH]; intros s; simpl.
  - destruct (mfold f l2 s) as [ws r]. reflexivity.
  - rewrite mbind_assoc. apply mbind_ext. exact IH.
Qed.

Lemma budgets_In (po : Options) (limit : Z) (l : list string)
    (n : string) (b : Z) :
  In (n, b) (budgets po limit l) -> In n l.
Proof.
  induction l as [|a l IH]; simpl; [auto |].
  intros [[= -> _]|H]; auto.
Qed.

Section Sizes.
Variables (po : Options) (sections_order : list string).
Variable addrspace_limit : Z.

Let step := update_sect_size po sections_order addrspace_limit.
Let top := baseaddr po + addrspacelen po + 1.
Let cap := addrspace_limit + 1 - expect_sect_align po.

(** One turn of the loop when the budget is not negative. *)
Lemma update_sect_size_ok (sizes : dict) (next : Z) (n : string) (a : Z) :
  dict_get (section_addr po) n = Some a ->
  let b := Z.min (next - a) (cap - a) in
  0 <= b ->
  step (sizes, next) n
  = (match dict_get sizes n with
     | Some size => if size >? b then [Warn_size_reduced n b] else []
     | None => []
     end,
     Ok (match dict_get sizes n with
         | Some size => if size >? b then dict_set sizes n b else sizes
         | None => dict_set sizes n b
         end, a)).
Proof.
  intros Ha b Hb. unfold step, update_sect_size, dict_lookup.
  rewrite Ha. unfold lift, mbind, raise, ret, eprint. fold cap.
  assert (Hd : 0 <= next - a) by (unfold b in Hb; lia).
  destruct (Z.geb_spec (next - a) 0); [| lia]. cbn [negb].
  replace (if a + (next - a) >? cap then cap - a else next - a) with b.
  2:{ unfold b. destruct (Z.gtb_spec (a + (next - a)) cap); lia. }
  destruct (Z.geb_spec b 0); [| lia]. cbn [negb].
  destruct (dict_get sizes n) as [size|]; [| reflexivity].
  destruct (size >? b); reflexivity.
Qed.

(** One turn of the loop when the budget is negative. *)
Lemma update_sect_size_negative (sizes : dict) (next : Z) (n : string)
    (a : Z) :
  dict_get (section_addr po) n = Some a ->
  Z.min (next - a) (cap - a) < 0 ->
  exists msg, step (sizes, next) n = ([], Raise (AssertionError msg)).
Proof.
  intros Ha Hb. unfold step, update_sect_size, dict_lookup.
  rewrite Ha. unfold lift, mbind, raise. fold cap.
  destruct (Z.geb_spec (next - a) 0); cbn [negb];
    [| eexists; reflexivity].
  destruct (Z.gtb_spec (a + (next - a)) cap).
  - destruct (Z.geb_spec (cap - a) 0); cbn [negb];
      [lia | eexists; reflexivity].
  - destruct (Z.geb_spec (next - a) 0); cbn [negb];
      [lia | eexists; reflexivity].
Qed.

(** The loop, over the sections [l] taken from the highest down. *)
Lemma update_loop_spec (l : list string) :
  NoDup l ->
  (forall n, In n l -> dict_get (section_addr po) n <> None) ->
  (forall n b, In (n, b) (budgets po addrspace_limit l) -> 0 <= b) ->
  exists sizes',
    mfold step (rev l) (section_size po, top)
    = (flat_map (size_warning po) (rev (budgets po addrspace_limit l)),
       Ok (sizes', next_addr po l)) /\
    (forall n, ~ In n l ->
       dict_get sizes' n = dict_get (section_size po) n) /\
    (forall n b, In (n, b) (budgets po addrspace_limit l) ->
       dict_get sizes' n
       = Some (settled_size (dict_get (section_size po) n) b)).
Proof.
  induction l as [|a l IH]; intros Hnd Haddr Hbud.
  - exists (section_size po). simpl. repeat split; auto.
    intros n b [].
  - inversion Hnd as [|? ? Hnotin Hnd']; subst.
    destruct IH as (sizes1 & Hrun & Hkeep & Hset); auto.
    { intros n Hn. apply Haddr. right. exact Hn. }
    { intros n b Hn. apply (Hbud n). right. exact Hn. }
    destruct (dict_get (section_addr po) a) as [addr|] eqn:Ha;
      [| exfalso; apply (Haddr a); [left; reflexivity | exact Ha]].
    assert (Hb : budget po addrspace_limit a l
                 = Z.min (next_addr po l - addr) (cap - addr)).
    { unfold budget, addr_of. rewrite Ha. reflexivity. }
    pose proof (Hbud a _ (or_introl eq_refl)) as Hb0. rewrite Hb in Hb0.
    pose proof (update_sect_size_ok sizes1 (next_addr po l) a addr Ha Hb0)
      as Hstep.
    rewrite (Hkeep a Hnotin) in Hstep. rewrite <- Hb in Hstep.
    set (b := budget po addrspace_limit a l) in *.
    eexists. split; [| split].
    + cbn [rev budgets]. rewrite mfold_app, Hrun.
      cbn [mfold mbind]. rewrite Hstep. cbn [mbind ret].
      rewrite flat_map_app. cbn [flat_map size_warning].
      fold b. rewrite !app_nil_r.
      cbn [next_addr]. unfold addr_of. rewrite Ha. reflexivity.
    + intros n Hn.
      assert (n <> a) by (intros ->; apply Hn; left; reflexivity).
      assert (~ In n l) by (intros Hin; apply Hn; right; exact Hin).
      destruct (dict_get (section_size po) a) as [size|];
        [destruct (size >? b) |];
        rewrite ?dict_get_set_other by congruence; auto.
    + intros n b' [[= -> <-]|Hn].
      * fold b. unfold settled_size.
        destruct (dict_get (section_size po) n) as [size|] eqn:Hs.
        -- destruct (size >? b); [apply dict_get_set_same |].
           rewrite (Hkeep n Hnotin). exact Hs.
        -- apply dict_get_set_same.
      * assert (n <> a).
        { intros ->. apply Hnotin. exact (budgets_In _ _ _ _ _ Hn). }
        rewrite <- (Hset n b' Hn).
        destruct (dict_get (section_size po) a) as [size|];
          [destruct (size >? b) |];
          rewrite ?dict_get_set_other by congruence; auto.
Qed.

(** A negative budget stops the loop with an assertion failure. *)
Lemma update_loop_negative (l : list string) :
  NoDup l ->
  (forall n, In n l -> dict_get (section_addr po) n <> None) ->
  (exists n b, In (n, b) (budgets po addrspace_limit l) /\ b < 0) ->
  exists ws msg,
    mfold step (rev l) (section_size po, top)
    = (ws, Raise (AssertionError msg)).
Proof.
  induction l as [|a l IH]; intros Hnd Haddr Hneg.
  - destruct Hneg as (n & b & [] & _).
  - inversion Hnd as [|? ? Hnotin Hnd']; subst.
    assert (Haddr' : forall n, In n l ->
              dict_get (section_addr po) n <> None)
      by (intros n Hn; apply Haddr; right; exact Hn).
    cbn [rev]. rewrite mfold_app.
    destruct (Forall_Exists_dec (fun p : string * Z => 0 <= snd p)
                (fun p => Z_le_dec 0 (snd p))
                (budgets po addrspace_limit l)) as [Hall|Hex].
    + rewrite Forall_forall in Hall.
      destruct (update_loop_spec l Hnd' Haddr') as (sizes1 & Hrun & _).
      { intros n b Hn. exact (Hall _ Hn). }
      rewrite Hrun. cbn [mfold mbind].
      destruct Hneg as (n & b & [[= <- <-]|Hn] & Hb);
        [| specialize (Hall _ Hn); simpl in Hall; lia].
      destruct (dict_get (section_addr po) a) as [addr|] eqn:Ha;
        [| exfalso; apply (Haddr a); [left; reflexivity | exact Ha]].
      destruct (update_sect_size_negative sizes1 (next_addr po l) a addr Ha)
        as (msg & Hstep).
      { unfold budget, addr_of in Hb. rewrite Ha in Hb. exact Hb. }
      rewrite Hstep. cbn [mbind]. eauto.
    + rewrite Exists_exists in Hex. destruct Hex as ([n b] & Hn & Hb).
      destruct (IH Hnd' Haddr') as (ws & msg & Hrun).
      { exists n, b. simpl in Hb. split; [exact Hn | lia]. }
      rewrite Hrun. cbn [mbind]. eauto.
Qed.
End Sizes.

(** The pass when no budget is negative. *)
Lemma update_sect_sizes_ok (po : Options)
    (sections_order : list string) (addrspace_limit : Z) :
  NoDup sections_order ->
  (forall n, In n sections_order ->
     dict_get (section_addr po) n <> None) ->
  (forall n b,
     In (n, b) (budgets po addrspace_limit sections_order) -> 0 <= b) ->
  exists po',
    armfw_bin2elf_update_sect_sizes po sections_order addrspace_limit
    = (flat_map (size_warning po)
         (rev (budgets po addrspace_limit sections_order)),
       Ok po') /\
    section_addr po' = section_addr po /\
    (forall n b,
       In (n, b) (budgets po addrspace_limit sections_order) ->
       dict_get (section_size po') n
       = Some (settled_size (dict_get (section_size po) n) b)) /\
    (forall n, ~ In n sections_order ->
       dict_get (section_size po') n = dict_get (section_size po) n).
Proof.
  intros Hnd Haddr Hbud.
  destruct (update_loop_spec po sections_order addrspace_limit
              sections_order Hnd Haddr Hbud) as (sizes' & Hrun & Hkeep & Hset).
  exists (set_section_size po sizes').
  unfold armfw_bin2elf_update_sect_sizes.
  rewrite Hrun. cbn [mbind ret fst]. rewrite app_nil_r.
  repeat split; auto.
Qed.

(** A negative budget makes the pass fail an assertion. *)
Lemma update_sect_sizes_negative_budget (po : Options)
    (sections_order : list string) (addrspace_limit : Z) :
  NoDup sections_order ->
  (forall n, In n sections_order ->
     dict_get (section_addr po) n <> None) ->
  (exists n b,
     In (n, b) (budgets po addrspace_limit sections_order) /\ b < 0) ->
  exists ws msg,
    armfw_bin2elf_update_sect_sizes po sections_order addrspace_limit
    = (ws, Raise (AssertionError msg)).
Proof.
  intros Hnd Haddr Hneg.
  destruct (update_loop_negative po sections_order addrspace_limit
              sections_order Hnd Haddr Hneg) as (ws & msg & Hrun).
  exists ws, msg. unfold armfw_bin2elf_update_sect_sizes.
  rewrite Hrun. reflexivity.
Qed.

(** C6, as amended: the budget of a section is the gap to the address of
    the next section of the order, for the last one to
    [baseaddr + addrspacelen + 1], and never more than the gap to
    [addrspace_limit + 1 - expect_sect_align].  Either the pass returns:
    then no budget is negative, a section without a size has got exactly
    its budget, a size above the budget has been cut down to it with a
    warning, and any other size is kept.  Or some budget is negative and
    the pass fails an assertion.  No size is ever written below zero. *)
Theorem update_sect_sizes_budget (po : Options)
    (sections_order : list string) (addrspace_limit : Z) :
  NoDup sections_order ->
  (forall n, In n sections_order ->
     dict_get (section_addr po) n <> None) ->
  match armfw_bin2elf_update_sect_sizes po sections_order addrspace_limit
  with
  | (ws, Ok po') =>
      ws = flat_map (size_warning po)
             (rev (budgets po addrspace_limit sections_order)) /\
      section_addr po' = section_addr po /\
      (forall n b,
         In (n, b) (budgets po addrspace_limit sections_order) ->
         0 <= b /\
         dict_get (section_size po') n
         = Some (settled_size (dict_get (section_size po) n) b)) /\
      (forall n, ~ In n sections_order ->
         dict_get (section_size po') n = dict_get (section_size po) n)
  | (ws, Raise e) =>
      (exists msg, e = AssertionError msg) /\
      (exists n b,
         In (n, b) (budgets po addrspace_limit sections_order) /\ b < 0)
  | (ws, OutOfFuel) => False
  end.
Proof.
  intros Hnd Haddr.
  destruct (Forall_Exists_dec (fun p : string * Z => 0 <= snd p)
              (fun p => Z_le_dec 0 (snd p))
              (budgets po addrspace_limit sections_order)) as [Hall|Hex].
  - rewrite Forall_forall in Hall.
    assert (Hbud : forall n b,
              In (n, b) (budgets po addrspace_limit sections_order) ->
              0 <= b) by (intros n b Hn; exact (Hall _ Hn)).
    destruct (update_sect_sizes_ok po sections_order addrspace_limit
                Hnd Haddr Hbud) as (po' & -> & Hsame & Hset & Hkeep).
    split; [reflexivity |]. split; [exact Hsame |].
    split; [| exact Hkeep].
    intros n b Hn. split; [exact (Hbud n b Hn) | exact (Hset n b Hn)].
  - rewrite Exists_exists in Hex. destruct Hex as ([n b] & Hn & Hb).
    simpl in Hb.
    assert (Hneg : exists n b,
              In (n, b) (budgets po addrspace_limit sections_order) /\
              b < 0) by (exists n, b; split; [exact Hn | lia]).
    destruct (update_sect_sizes_negative_budget po sections_order
                addrspace_limit Hnd Haddr Hneg) as (ws & msg & ->).
    split; [eauto | exact Hneg].
Qed.

Lemma update_sect_sizes_budget_witness :
  match armfw_bin2elf_update_sect_sizes po_far_section
          [".text"; ".ARM.exidx"; ".zero"; ".data"; ".bss"] (2 ^ 32 - 1)
  with
  | (ws, Ok po') =>
      ws = [Warn_size_reduced ".data" 0xFE0] /\
      section_addr po' = section_addr po_far_section /\
      (forall n b,
         In (n, b)
           [(".text", 0x1000); (".ARM.exidx", 0x20); (".zero", 0);
            (".data", 0xFE0); (".bss", 0x1FFE001)] ->
         0 <= b /\
         dict_get (section_size po') n
         = Some (settled_size (dict_get (section_size po_far_section) n)
                   b)) /\
      (forall n,
         ~ In n [".text"; ".ARM.exidx"; ".zero"; ".data"; ".bss"] ->
         dict_get (section_size po') n
         = dict_get (section_size po_far_section) n)
  | (ws, Raise e) =>
      (exists msg, e = AssertionError msg) /\
      (exists n b,
         In (n, b)
           [(".text", 0x1000); (".ARM.exidx", 0x20); (".zero", 0);
            (".data", 0xFE0); (".bss", 0x1FFE001)] /\ b < 0)
  | (ws, OutOfFuel) => False
  end.
Proof.
  apply (update_sect_sizes_budget po_far_section
           [".text"; ".ARM.exidx"; ".zero"; ".data"; ".bss"] (2 ^ 32 - 1)).
  - repeat (constructor; [simpl; intuition discriminate |]). constructor.
  - intros n Hn. simpl in Hn.
    repeat (destruct Hn as [<-|Hn]; [discriminate |]). destruct Hn.
Defined.

(** C6, as stated, fails for the highest section: in the default
    address space, the section [.bss2] placed at [0x2800000] without a
    size gets the gap up to [baseaddr + addrspacelen + 1], which is
    [0x800001], not the gap up to the address-space limit less one
    alignment unit. *)
Lemma highest_section_budget_is_addrspacelen :
  armfw_bin2elf_get_sections_order po_extra_bss (2 ^ 32 - 1)
    = ([], Ok [".text"; ".ARM.exidx"; ".data"; ".bss"; ".bss2"]) /\
  dict_get (section_size po_extra_bss) ".bss2" = None /\
  (exists po',
     armfw_bin2elf_update_sect_sizes po_extra_bss
       [".text"; ".ARM.exidx"; ".data"; ".bss"; ".bss2"] (2 ^ 32 - 1)
       = ([Warn_size_reduced ".bss" 0x17FE000], Ok po') /\
     dict_get (section_size po') ".bss2" = Some 0x800001) /\
  claimed_budget_of_highest po_extra_bss (2 ^ 32 - 1) ".bss2"
    = 0xFD7FFFF0 /\
  0x800001 <> claimed_budget_of_highest po_extra_bss (2 ^ 32 - 1) ".bss2" /\
  0x800001
  <> baseaddr po_extra_bss + addrspacelen po_extra_bss
     - expect_sect_align po_extra_bss - addr_of po_extra_bss ".bss2".
Proof.
  split; [vm_compute; reflexivity |].
  split; [reflexivity |].
  split; [eexists; split; vm_compute; reflexivity |].
  repeat split; vm_compute; discriminate.
Qed.

(** ** LayoutReconciler: the alignments *)

Lemma halve_until_divides_step (x a : Z) :
  halve_until_divides x a
  = if a =? 0 then Raise ZeroDivisionError
    else if x mod a =? 0 then Ok a
    else halve_until_divides x (Z.shiftr a 1).
Proof.
  rewrite halve_until_divides_equation_1.
  destruct (Z.eq_dec a 0) as [->|Ha]; simpl; [reflexivity |].
  destruct (Z.eqb_spec a 0); [contradiction |].
  destruct (Z.eq_dec (x mod a) 0) as [Hm|Hm]; simpl.
  - rewrite Hm. reflexivity.
  - destruct (Z.eqb_spec (x mod a) 0); [contradiction | reflexivity].
Qed.

Lemma pow2_nat_pos (i : nat) : 0 < 2 ^ Z.of_nat i.
Proof. apply Z.pow_pos_nonneg; lia. Qed.

Lemma pow2_nat_succ (i : nat) : 2 ^ Z.of_nat (S i) = 2 * 2 ^ Z.of_nat i.
Proof. rewrite Nat2Z.inj_succ, Z.pow_succ_r by lia. reflexivity. Qed.

Lemma pow2_nat_shiftr (i : nat) :
  Z.shiftr (2 ^ Z.of_nat (S i)) 1 = 2 ^ Z.of_nat i.
Proof.
  rewrite Z.shiftr_div_pow2 by lia. rewrite pow2_nat_succ.
  change (2 ^ 1) with 2. rewrite Z.mul_comm. apply Z.div_mul. lia.
Qed.

Lemma pow2_nat_divide (i j : nat) :
  (i <= j)%nat -> (2 ^ Z.of_nat i | 2 ^ Z.of_nat j).
Proof.
  intros Hij. exists (2 ^ (Z.of_nat j - Z.of_nat i)).
  rewrite <- Z.pow_add_r by lia. f_equal. lia.
Qed.

(** From a power of two, the halving stops at the largest power of two,
    not above the start, that divides [x]: the loop always ends. *)
Lemma halve_until_divides_pow2 (x : Z) (j : nat) :
  exists i : nat,
    (i <= j)%nat /\
    halve_until_divides x (2 ^ Z.of_nat j) = Ok (2 ^ Z.of_nat i) /\
    (2 ^ Z.of_nat i | x) /\
    (forall i' : nat, (i' <= j)%nat -> (2 ^ Z.of_nat i' | x) ->
       (i' <= i)%nat).
Proof.
  induction j as [|j IH].
  - exists 0%nat. rewrite halve_until_divides_step. simpl.
    rewrite Z.mod_1_r. simpl. repeat split; auto.
    exists x. lia.
  - rewrite halve_until_divides_step.
    pose proof (pow2_nat_pos (S j)) as Hpos.
    destruct (Z.eqb_spec (2 ^ Z.of_nat (S j)) 0); [lia |].
    destruct (Z.eqb_spec (x mod 2 ^ Z.of_nat (S j)) 0) as [Hm|Hm].
    + exists (S j). repeat split; auto.
      apply Z.mod_divide; [lia | exact Hm].
    + rewrite pow2_nat_shiftr.
      destruct IH as (i & Hi & Hrun & Hdiv & Hmax).
      exists i. repeat split; auto.
      intros i' Hi' Hd.
      destruct (Nat.eq_dec i' (S j)) as [->|];
        [| apply Hmax; [lia | exact Hd]].
      exfalso. apply Hm. apply Z.mod_divide; [lia | exact Hd].
Qed.

Lemma candidate_align_pow2 (po : Options) (k h : nat) :
  expect_sect_align po = 2 ^ Z.of_nat k -> (h <= S k)%nat ->
  candidate_align po h = 2 ^ Z.of_nat (S k - h).
Proof.
  intros HE Hh. unfold candidate_align. rewrite HE.
  rewrite Z.shiftl_mul_pow2, Z.shiftr_div_pow2 by lia.
  change (2 ^ 1) with 2. rewrite Z.mul_comm, <- pow2_nat_succ.
  replace (Z.of_nat (S k)) with (Z.of_nat (S k - h) + Z.of_nat h) by lia.
  rewrite Z.pow_add_r by lia.
  apply Z.div_mul. pose proof (pow2_nat_pos h). lia.
Qed.

(** The body of the loop: for an expected alignment that is a power of
    two, it ends with the largest candidate dividing both the address and
    the size. *)
Lemma section_align_spec (po : Options) (sectname : string)
    (addr size : Z) (k : nat) :
  expect_sect_align po = 2 ^ Z.of_nat k ->
  dict_get (section_addr po) sectname = Some addr ->
  dict_get (section_size po) sectname = Some size ->
  exists h : nat,
    (h <= S k)%nat /\
    section_align po sectname = Ok (candidate_align po h) /\
    (candidate_align po h | addr) /\
    (candidate_align po h | size) /\
    (forall h' : nat, (h' <= S k)%nat ->
       (candidate_align po h' | addr) -> (candidate_align po h' | size) ->
       candidate_align po h' <= candidate_align po h) /\
    1 <= candidate_align po h <= 2 * expect_sect_align po.
Proof.
  intros HE Haddr Hsize.
  destruct (halve_until_divides_pow2 addr (S k))
    as (i1 & Hi1 & Hrun1 & Hdiv1 & Hmax1).
  destruct (halve_until_divides_pow2 size i1)
    as (i2 & Hi2 & Hrun2 & Hdiv2 & Hmax2).
  exists (S k - i2)%nat.
  assert (Hc : candidate_align po (S k - i2) = 2 ^ Z.of_nat i2).
  { rewrite (candidate_align_pow2 po k) by (auto; lia). f_equal. lia. }
  rewrite Hc.
  split; [lia |]. split; [| split; [| split; [| split]]].
  - unfold section_align, dict_lookup. rewrite Haddr, Hsize. cbn [obind].
    rewrite HE, Z.shiftl_mul_pow2 by lia. change (2 ^ 1) with 2.
    rewrite Z.mul_comm, <- pow2_nat_succ.
    rewrite Hrun1. cbn [obind]. rewrite Hrun2. reflexivity.
  - apply (Z.divide_trans _ (2 ^ Z.of_nat i1));
      [apply pow2_nat_divide; exact Hi2 | exact Hdiv1].
  - exact Hdiv2.
  - intros h' Hh' Ha Hs.
    rewrite (candidate_align_pow2 po k h' HE Hh') in *.
    assert (H1 : (S k - h' <= i1)%nat) by (apply Hmax1; [lia | exact Ha]).
    assert (H2 : (S k - h' <= i2)%nat) by (apply Hmax2; [lia | exact Hs]).
    apply Z.pow_le_mono_r; lia.
  - pose proof (pow2_nat_pos i2). split; [lia |].
    rewrite HE, <- pow2_nat_succ. apply Z.pow_le_mono_r; lia.
Qed.

(** The table of alignments holds, for each section of the order, what
    the loop body computes for it. *)
Lemma get_sections_align_from_spec (po : Options) (order : list string) :
  (forall n, In n order -> exists a, section_align po n = Ok a) ->
  forall acc, exists aligns,
    get_sections_align_from po order acc = Ok aligns /\
    (forall n, In n order ->
       exists a, section_align po n = Ok a /\ dict_get aligns n = Some a) /\
    (forall n, ~ In n order -> dict_get aligns n = dict_get acc n).
Proof.
  induction order as [|s order IH]; intros Hall acc; simpl.
  - exists acc. repeat split; auto; contradiction.
  - destruct (Hall s (or_introl eq_refl)) as (a & Ha). rewrite Ha.
    cbn [obind].
    destruct (IH (fun n Hn => Hall n (or_intror Hn)) (dict_set acc s a))
      as (aligns & Hrun & Hin & Hout).
    exists aligns. split; [exact Hrun |]. split.
    + intros n [<-|Hn]; [| exact (Hin n Hn)].
      destruct (in_dec string_dec s order) as [Hs|Hs];
        [exact (Hin s Hs) |].
      exists a. rewrite (Hout s Hs), dict_get_set_same. auto.
    + intros n Hn.
      rewrite Hout by (intros H; apply Hn; right; exact H).
      apply dict_get_set_other. intros ->. apply Hn. left. reflexivity.
Qed.

(** C3, as amended: for an expected alignment that is a power of two, the
    inference returns a table that gives every section of the order the
    largest candidate, among twice the expected alignment and its
    successive halves, that divides both the address and the size of the
    section; that alignment is at most twice the expected one. *)
Theorem get_sections_align_largest_candidate (po : Options)
    (sections_order : list string) (k : nat) :
  expect_sect_align po = 2 ^ Z.of_nat k ->
  (forall n, In n sections_order ->
     dict_get (section_addr po) n <> None /\
     dict_get (section_size po) n <> None) ->
  exists sections_align,
    armfw_bin2elf_get_sections_align po sections_order = Ok sections_align /\
    forall n addr size,
      In n sections_order ->
      dict_get (section_addr po) n = Some addr ->
      dict_get (section_size po) n = Some size ->
      exists h : nat,
        (h <= S k)%nat /\
        dict_get sections_align n = Some (candidate_align po h) /\
        (candidate_align po h | addr) /\
        (candidate_align po h | size) /\
        (forall h' : nat, (h' <= S k)%nat ->
           (candidate_align po h' | addr) ->
           (candidate_align po h' | size) ->
           candidate_align po h' <= candidate_align po h) /\
        1 <= candidate_align po h <= 2 * expect_sect_align po.
Proof.
  intros HE Hall.
  assert (Hok : forall n, In n sections_order ->
                  exists a, section_align po n = Ok a).
  { intros n Hn. destruct (Hall n Hn) as [Ha Hs].
    destruct (dict_get (section_addr po) n) as [addr|] eqn:Haddr;
      [| contradiction].
    destruct (dict_get (section_size po) n) as [size|] eqn:Hsize;
      [| contradiction].
    destruct (section_align_spec po n addr size k HE Haddr Hsize)
      as (h & _ & Hrun & _).
    eauto. }
  destruct (get_sections_align_from_spec po sections_order Hok
              (@nil (string * Z))) as (aligns & Hrun & Hin & _).
  exists aligns. split; [exact Hrun |].
  intros n addr size Hn Haddr Hsize.
  destruct (section_align_spec po n addr size k HE Haddr Hsize)
    as (h & Hh & Hsa & Hrest).
  destruct (Hin n Hn) as (a & Ha & Hget).
  rewrite Hsa in Ha. injection Ha as <-.
  exists h. split; [exact Hh |]. split; [exact Hget | exact Hrest].
Qed.

Lemma get_sections_align_largest_candidate_witness :
  exists sections_align,
    armfw_bin2elf_get_sections_align po_far_section
      [".text"; ".ARM.exidx"; ".zero"; ".data"] = Ok sections_align /\
    forall n addr size,
      In n [".text"; ".ARM.exidx"; ".zero"; ".data"] ->
      dict_get (section_addr po_far_section) n = Some addr ->
      dict_get (section_size po_far_section) n = Some size ->
      exists h : nat,
        (h <= 5)%nat /\
        dict_get sections_align n = Some (candidate_align po_far_section h) /\
        (candidate_align po_far_section h | addr) /\
        (candidate_align po_far_section h | size) /\
        (forall h' : nat, (h' <= 5)%nat ->
           (candidate_align po_far_section h' | addr) ->
           (candidate_align po_far_section h' | size) ->
           candidate_align po_far_section h'
           <= candidate_align po_far_section h) /\
        1 <= candidate_align po_far_section h
          <= 2 * expect_sect_align po_far_section.
Proof.
  apply (get_sections_align_largest_candidate po_far_section
           [".text"; ".ARM.exidx"; ".zero"; ".data"] 4).
  - reflexivity.
  - intros n Hn. simpl in Hn.
    repeat (destruct Hn as [<-|Hn]; [split; discriminate |]). destruct Hn.
Defined.

(** C3, as stated, fails on its bound: an address and a size that are both
    multiples of twice the expected alignment get that alignment, which
    exceeds the expected one. *)
Lemma section_align_exceeds_expected :
  dict_get (section_addr po_aligned_32) ".text" = Some 0x1000000 /\
  dict_get (section_size po_aligned_32) ".text" = Some 0x1000 /\
  expect_sect_align po_aligned_32 = 0x10 /\
  section_align po_aligned_32 ".text" = Ok 0x20 /\
  armfw_bin2elf_get_sections_align po_aligned_32 [".text"]
    = Ok [(".text", 0x20)] /\
  ~ (0x20 <= expect_sect_align po_aligned_32).
Proof.
  repeat split; try (vm_compute; reflexivity).
  vm_compute. intros H. apply H. reflexivity.
Qed.

(** ** ContainerBuilder *)

(** The file positions handed to the builder are never negative. *)
Lemma get_sections_pos_nonneg (po : Options) (sections_order : list string)
    (sections_pos : dict) (sectname : string) (pos : Z) :
  armfw_bin2elf_get_sections_pos po sections_order = Ok sections_pos ->
  dict_get sections_pos sectname = Some pos -> 0 <= pos.
Proof.
  unfold armfw_bin2elf_get_sections_pos.
  assert (Hgen : forall acc,
            (forall n v, dict_get acc n = Some v -> 0 <= v) ->
            get_sections_pos_from po sections_order acc = Ok sections_pos ->
            dict_get sections_pos sectname = Some pos -> 0 <= pos).
  { induction sections_order as [|s order IH]; intros acc Hacc; simpl.
    - intros [= <-]. apply Hacc.
    - unfold dict_lookup.
      destruct (dict_get (section_addr po) s) as [addr|];
        cbn [obind]; [| discriminate].
      apply IH. intros n v.
      destruct (string_dec s n) as [<-|Hne].
      + rewrite dict_get_set_same. intros [= <-].
        destruct (Z.ltb_spec (addr - baseaddr po) 0); lia.
      + rewrite dict_get_set_other by exact Hne. apply Hacc. }
  apply Hgen. intros n v. discriminate.
Qed.

(** C4, as amended: for a loaded section of positive size the builder
    installs the bytes the image holds from the file position on, at most
    as many as the size; it raises exactly when the image holds no byte
    there. *)
Theorem update_elffile_section_payload (po : Options) (img : image)
    (sections_pos sections_align : dict) (sectname : string)
    (sect : elf_section) (addr align size pos : Z) :
  sh_type sect <> SHT_NOBITS ->
  dict_get (section_addr po) sectname = Some addr ->
  dict_get sections_align sectname = Some align ->
  dict_get (section_size po) sectname = Some size ->
  dict_get sections_pos sectname = Some pos ->
  0 < size -> 0 <= pos ->
  (Z.of_nat (List.length img) <= pos ->
   exists msg,
     update_elffile_section po img sections_pos sections_align sectname sect
     = Raise (EOFError msg)) /\
  (pos < Z.of_nat (List.length img) ->
   exists sect',
     update_elffile_section po img sections_pos sections_align sectname sect
     = Ok sect' /\
     sect_data sect'
     = firstn (Z.to_nat size) (skipn (Z.to_nat pos) img) /\
     Z.of_nat (List.length (sect_data sect'))
     = Z.min size (Z.of_nat (List.length img) - pos) /\
     sh_size sect' = Z.of_nat (List.length (sect_data sect')) /\
     sh_addr sect' = addr /\ sh_addralign sect' = align).
Proof.
  intros Hty Haddr Halign Hsize Hpos Hs Hp.
  unfold update_elffile_section, dict_lookup.
  rewrite Haddr, Halign, Hsize, Hpos. cbn [obind sh_type].
  destruct (Z.leb_spec size 0); [lia |].
  unfold read_at.
  destruct (Z.ltb_spec pos 0); [lia |].
  destruct (Z.ltb_spec size 0); [lia |]. cbn [obind].
  assert (Hlen : Z.of_nat (List.length
                   (firstn (Z.to_nat size) (skipn (Z.to_nat pos) img)))
                 = Z.min size (Z.max 0 (Z.of_nat (List.length img) - pos))).
  { rewrite length_firstn, length_skipn. lia. }
  destruct (firstn (Z.to_nat size) (skipn (Z.to_nat pos) img))
    as [|b0 data] eqn:Hdata.
  - simpl in Hlen. split.
    + intros _. destruct (sh_type sect); [contradiction | |];
        eexists; reflexivity.
    + intros Hin. lia.
  - split.
    + intros Hout. simpl List.length in Hlen. lia.
    + intros Hin.
      destruct (sh_type sect); [contradiction | |];
        (eexists; split; [reflexivity |]);
        cbn [set_data sect_data sh_size sh_addr sh_addralign];
        repeat split; lia.
Qed.

Lemma update_elffile_section_payload_witness :
  (Z.of_nat (List.length (repeat x01 4)) <= 0 ->
   exists msg,
     update_elffile_section po_data_8 (repeat x01 4) [(".data", 0)]
       [(".data", 8)] ".data" sect_progbits
     = Raise (EOFError msg)) /\
  (0 < Z.of_nat (List.length (repeat x01 4)) ->
   exists sect',
     update_elffile_section po_data_8 (repeat x01 4) [(".data", 0)]
       [(".data", 8)] ".data" sect_progbits
     = Ok sect' /\
     sect_data sect'
     = firstn (Z.to_nat 8) (skipn (Z.to_nat 0) (repeat x01 4)) /\
     Z.of_nat (List.length (sect_data sect'))
     = Z.min 8 (Z.of_nat (List.length (repeat x01 4)) - 0) /\
     sh_size sect' = Z.of_nat (List.length (sect_data sect')) /\
     sh_addr sect' = 0x1000000 /\ sh_addralign sect' = 8).
Proof.
  apply (update_elffile_section_payload po_data_8 (repeat x01 4)
           [(".data", 0)] [(".data", 8)] ".data" sect_progbits
           0x1000000 8 8 0);
    try reflexivity; try discriminate; lia.
Defined.

(** C4, as stated, fails on a short read: the section asks for eight
    bytes, the image holds four, and the builder installs the four bytes
    without raising. *)
Lemma short_read_is_installed :
  dict_get (section_size po_data_8) ".data" = Some 8 /\
  List.length (repeat x01 4) = 4%nat /\
  update_elffile_section po_data_8 (repeat x01 4) [(".data", 0)]
    [(".data", 8)] ".data" sect_progbits
  = Ok {| sh_type := SHT_PROGBITS; sh_addr := 0x1000000;
          sh_addralign := 8; sh_size := 4; sect_data := repeat x01 4 |}.
Proof. repeat split. Qed.

(* ===================================================================== *)
(** * Part III: further properties of the code *)
(* ===================================================================== *)

(** ** AddressMath: sign extension and the [prel31] encoding *)

Lemma mod_pow2_succ_testbit (v n : Z) :
  0 <= n ->
  v mod 2 ^ (n + 1) = v mod 2 ^ n + (if Z.testbit v n then 2 ^ n else 0).
Proof.
  intros Hn. rewrite Z.pow_add_r by lia. change (2 ^ 1) with 2.
  pose proof (Z.pow_pos_nonneg 2 n ltac:(lia) Hn) as Hpos.
  rewrite Z.rem_mul_r by lia.
  destruct (Z.testbit v n) eqn:Hb.
  - apply Z.testbit_true in Hb; [| exact Hn]. rewrite Hb. lia.
  - apply Z.testbit_false in Hb; [| exact Hn]. rewrite Hb. lia.
Qed.

Lemma sign_extend_eq (value bits : Z) :
  1 <= bits ->
  sign_extend value bits
  = value mod 2 ^ (bits - 1)
    - (if Z.testbit value (bits - 1) then 2 ^ (bits - 1) else 0).
Proof.
  intros Hb. unfold sign_extend. cbv zeta.
  rewrite Z.shiftl_1_l.
  replace (2 ^ (bits - 1) - 1) with (Z.ones (bits - 1))
    by (rewrite Z.ones_equiv; lia).
  rewrite Z.land_ones by lia.
  rewrite land_pow2_testbit by lia. reflexivity.
Qed.

(** X1: [sign_extend(value, bits)] is the one integer of
    [-2^(bits-1) .. 2^(bits-1) - 1] that agrees with [value] on the low
    [bits] bits; a value already in that range is returned as it is. *)
Theorem sign_extend_signed_residue (value bits : Z) :
  1 <= bits ->
  - 2 ^ (bits - 1) <= sign_extend value bits < 2 ^ (bits - 1) /\
  sign_extend value bits mod 2 ^ bits = value mod 2 ^ bits /\
  (- 2 ^ (bits - 1) <= value < 2 ^ (bits - 1) ->
   sign_extend value bits = value).
Proof.
  intros Hb. rewrite sign_extend_eq by exact Hb.
  pose proof (Z.pow_pos_nonneg 2 (bits - 1) ltac:(lia) ltac:(lia)) as Hpos.
  pose proof (Z.mod_pos_bound value (2 ^ (bits - 1)) Hpos) as Hm.
  pose proof (mod_pow2_succ_testbit value (bits - 1) ltac:(lia)) as Hs.
  replace (bits - 1 + 1) with bits in Hs by lia.
  assert (Hp : 2 ^ bits = 2 * 2 ^ (bits - 1)).
  { replace bits with (bits - 1 + 1) at 1 by lia.
    rewrite Z.pow_add_r by lia. change (2 ^ 1) with 2. lia. }
  assert (Hcong : (value mod 2 ^ (bits - 1)
                   - (if Z.testbit value (bits - 1)
                      then 2 ^ (bits - 1) else 0)) mod 2 ^ bits
                  = value mod 2 ^ bits).
  { destruct (Z.testbit value (bits - 1)).
    - replace (value mod 2 ^ (bits - 1) - 2 ^ (bits - 1))
        with (value mod 2 ^ bits + (-1) * 2 ^ bits) by lia.
      rewrite Z.mod_add by lia. apply Z.mod_mod. lia.
    - rewrite Z.sub_0_r, <- (Z.add_0_r (value mod 2 ^ (bits - 1))), <- Hs.
      apply Z.mod_mod. lia. }
  split; [destruct (Z.testbit value (bits - 1)); lia |].
  split; [exact Hcong |].
  intros Hr.
  set (se := value mod 2 ^ (bits - 1)
             - (if Z.testbit value (bits - 1) then 2 ^ (bits - 1) else 0))
    in *.
  assert (Hse : - 2 ^ (bits - 1) <= se < 2 ^ (bits - 1))
    by (unfold se; destruct (Z.testbit value (bits - 1)); lia).
  assert (Heq : (se + 2 ^ (bits - 1)) mod 2 ^ bits
                = (value + 2 ^ (bits - 1)) mod 2 ^ bits).
  { rewrite <- (Zplus_mod_idemp_l se), Hcong, Zplus_mod_idemp_l.
    reflexivity. }
  rewrite !Z.mod_small in Heq by lia. lia.
Qed.

Lemma sign_extend_signed_residue_witness :
  - 2 ^ (31 - 1) <= sign_extend 0x7FFFFFF8 31 < 2 ^ (31 - 1) /\
  sign_extend 0x7FFFFFF8 31 mod 2 ^ 31 = 0x7FFFFFF8 mod 2 ^ 31 /\
  (- 2 ^ (31 - 1) <= 0x7FFFFFF8 < 2 ^ (31 - 1) ->
   sign_extend 0x7FFFFFF8 31 = 0x7FFFFFF8).
Proof. apply (sign_extend_signed_residue 0x7FFFFFF8 31). lia. Defined.

(** X2: [prel31_to_addr] undoes the [prel31] encoding: when the target lies
    less than [2^30] away from the word that refers to it, the word holds
    the low 31 bits of the distance, its bit 31 is clear, and decoding it
    at the address of the word gives the target back. *)
Theorem prel31_round_trip (target refptr : Z) :
  0 <= target < 2 ^ 32 ->
  - 2 ^ 30 <= target - refptr < 2 ^ 30 ->
  0 <= prel31_of_addr target refptr < 2 ^ 31 /\
  Z.land (prel31_of_addr target refptr) 0x80000000 = 0 /\
  prel31_to_addr (prel31_of_addr target refptr) refptr = target.
Proof.
  intros Ht Hd. unfold prel31_of_addr.
  pose proof (Z.mod_pos_bound (target - refptr) (2 ^ 31) ltac:(lia)) as Hm.
  split; [exact Hm |]. split.
  - change 0x80000000 with (2 ^ 31). rewrite land_pow2_testbit by lia.
    rewrite Z.mod_pow2_bits_high by lia. reflexivity.
  - unfold prel31_to_addr, c_uint. cbv zeta.
    destruct (sign_extend_signed_residue ((target - refptr) mod 2 ^ 31) 31
                ltac:(lia)) as (Hr & Hc & _).
    destruct (sign_extend_signed_residue (target - refptr) 31 ltac:(lia))
      as (_ & _ & Hid).
    change (31 - 1) with 30 in *.
    specialize (Hid Hd).
    set (se := sign_extend ((target - refptr) mod 2 ^ 31) 31) in *.
    rewrite Z.mod_mod in Hc by lia.
    assert (Hse : se = target - refptr).
    { assert (Heq : (se + 2 ^ 30) mod 2 ^ 31
                    = (target - refptr + 2 ^ 30) mod 2 ^ 31).
      { rewrite <- (Zplus_mod_idemp_l se), Hc, Zplus_mod_idemp_l.
        reflexivity. }
      rewrite !Z.mod_small in Heq by lia. lia. }
    rewrite Hse. replace (refptr + (target - refptr)) with target by lia.
    apply Z.mod_small. exact Ht.
Qed.

Lemma prel31_round_trip_witness :
  0 <= prel31_of_addr 0x1000008 0x1000010 < 2 ^ 31 /\
  Z.land (prel31_of_addr 0x1000008 0x1000010) 0x80000000 = 0 /\
  prel31_to_addr (prel31_of_addr 0x1000008 0x1000010) 0x1000010
  = 0x1000008.
Proof. apply (prel31_round_trip 0x1000008 0x1000010); lia. Defined.

(** ** EntryValidator *)

Lemma outside_text_false (addr memaddr_base func_align arr_pos : Z) :
  outside_text addr memaddr_base func_align arr_pos = Ok false <->
  memaddr_base < addr < memaddr_base + arr_pos /\
  func_align <> 0 /\ addr mod func_align = 0.
Proof.
  unfold outside_text, not_multiple.
  destruct (Z.leb_spec addr memaddr_base);
    [split; [discriminate | lia] |].
  destruct (Z.geb_spec addr (memaddr_base + arr_pos));
    [split; [discriminate | lia] |].
  destruct (Z.eqb_spec func_align 0);
    [split; [discriminate | lia] |].
  destruct (Z.eqb_spec (addr mod func_align) 0); simpl.
  - split; [lia | reflexivity].
  - split; [discriminate | lia].
Qed.

(** X3: Whatever path accepts it, an accepted entry has a first word that is
    not zero, has bit 31 clear, and resolves to a function-aligned address
    strictly inside the code region ahead of the candidate section. *)
Theorem proper_entry_points_into_text (po : Options) (img : image)
    (eexidx : ExIdxEntry) (memaddr_base func_align arr_pos ent_pos : Z) :
  armfw_is_proper_ARMexidx_entry po img eexidx memaddr_base func_align
    arr_pos ent_pos = Ok true ->
  tboffs eexidx <> 0 /\
  Z.land (tboffs eexidx) 0x80000000 = 0 /\
  memaddr_base
    < prel31_to_addr (tboffs eexidx) (memaddr_base + ent_pos)
    < memaddr_base + arr_pos /\
  func_align <> 0 /\
  prel31_to_addr (tboffs eexidx) (memaddr_base + ent_pos) mod func_align
  = 0.
Proof.
  unfold armfw_is_proper_ARMexidx_entry.
  destruct (Z.eqb_spec (tboffs eexidx) 0); [discriminate |].
  destruct (Z.eqb_spec (Z.land (tboffs eexidx) 0x80000000) 0);
    [| discriminate].
  cbn [orb negb].
  destruct (outside_text
              (prel31_to_addr (tboffs eexidx) (memaddr_base + ent_pos))
              memaddr_base func_align arr_pos) as [[|]| |] eqn:Hout;
    cbn [obind]; try discriminate.
  intros _. apply outside_text_false in Hout. intuition.
Qed.

Lemma proper_entry_points_into_text_witness :
  tboffs {| tboffs := 0x7FFFFFF8; entry := 0x01 |} <> 0 /\
  Z.land (tboffs {| tboffs := 0x7FFFFFF8; entry := 0x01 |}) 0x80000000
  = 0 /\
  0x1000000
    < prel31_to_addr (tboffs {| tboffs := 0x7FFFFFF8; entry := 0x01 |})
        (0x1000000 + 16)
    < 0x1000000 + 16 /\
  2 <> 0 /\
  prel31_to_addr (tboffs {| tboffs := 0x7FFFFFF8; entry := 0x01 |})
    (0x1000000 + 16) mod 2 = 0.
Proof.
  apply (proper_entry_points_into_text po_default []
           {| tboffs := 0x7FFFFFF8; entry := 0x01 |} 0x1000000 2 16 16).
  reflexivity.
Defined.

(** X4: With a first word that passes, the entry [EXIDX_CANTUNWIND] is
    accepted, and an entry with bit 31 set is accepted exactly when its
    bits 30 to 28 are zero; neither looks at the image. *)
Theorem inline_entries_accepted (po : Options) (img : image)
    (eexidx : ExIdxEntry) (memaddr_base func_align arr_pos ent_pos : Z) :
  tboffs eexidx <> 0 ->
  Z.land (tboffs eexidx) 0x80000000 = 0 ->
  memaddr_base
    < prel31_to_addr (tboffs eexidx) (memaddr_base + ent_pos)
    < memaddr_base + arr_pos ->
  func_align <> 0 ->
  prel31_to_addr (tboffs eexidx) (memaddr_base + ent_pos) mod func_align
  = 0 ->
  (entry eexidx = 0x01 ->
   armfw_is_proper_ARMexidx_entry po img eexidx memaddr_base func_align
     arr_pos ent_pos = Ok true) /\
  (Z.land (entry eexidx) 0x80000000 <> 0 ->
   armfw_is_proper_ARMexidx_entry po img eexidx memaddr_base func_align
     arr_pos ent_pos = Ok (Z.land (entry eexidx) 0x70000000 =? 0)).
Proof.
  intros Hnz Hhigh Hrange Hfa Hal.
  assert (Hout : outside_text
                   (prel31_to_addr (tboffs eexidx) (memaddr_base + ent_pos))
                   memaddr_base func_align arr_pos = Ok false)
    by (apply outside_text_false; auto).
  unfold armfw_is_proper_ARMexidx_entry.
  destruct (Z.eqb_spec (tboffs eexidx) 0); [contradiction |].
  rewrite Hhigh. cbn [Z.eqb orb negb]. rewrite Hout. cbn [obind].
  split.
  - intros ->. reflexivity.
  - intros Hbit.
    destruct (Z.eqb_spec (entry eexidx) 1) as [He|He].
    + rewrite He in Hbit. exfalso. apply Hbit. reflexivity.
    + destruct (Z.eqb_spec (Z.land (entry eexidx) 0x80000000) 0);
        [contradiction |]. cbn [negb].
      destruct (Z.land (entry eexidx) 0x70000000 =? 0); reflexivity.
Qed.

Lemma inline_entries_accepted_witness :
  (entry {| tboffs := 0x7FFFFFF8; entry := 0x80B0B0B0 |} = 0x01 ->
   armfw_is_proper_ARMexidx_entry po_default []
     {| tboffs := 0x7FFFFFF8; entry := 0x80B0B0B0 |} 0x1000000 2 16 16
   = Ok true) /\
  (Z.land (entry {| tboffs := 0x7FFFFFF8; entry := 0x80B0B0B0 |})
     0x80000000 <> 0 ->
   armfw_is_proper_ARMexidx_entry po_default []
     {| tboffs := 0x7FFFFFF8; entry := 0x80B0B0B0 |} 0x1000000 2 16 16
   = Ok (Z.land (entry {| tboffs := 0x7FFFFFF8; entry := 0x80B0B0B0 |})
           0x70000000 =? 0)).
Proof.
  apply (inline_entries_accepted po_default []
           {| tboffs := 0x7FFFFFF8; entry := 0x80B0B0B0 |} 0x1000000 2 16
           16); vm_compute; try reflexivity; try discriminate;
    try (split; reflexivity); try (split; [discriminate | reflexivity]);
    try (split; discriminate).
Defined.

(** A candidate section within the first two bytes of the image leaves no
    room for code before it: every entry is rejected there, without an
    exception, whatever the function alignment. *)
Lemma no_proper_entry_without_text (po : Options) (img : image)
    (eexidx : ExIdxEntry) (memaddr_base func_align arr_pos ent_pos : Z) :
  arr_pos <= 1 ->
  armfw_is_proper_ARMexidx_entry po img eexidx memaddr_base func_align
    arr_pos ent_pos = Ok false.
Proof.
  intros Harr. unfold armfw_is_proper_ARMexidx_entry.
  destruct (_ || _); [reflexivity |].
  unfold outside_text.
  destruct (Z.leb_spec
              (prel31_to_addr (tboffs eexidx) (memaddr_base + ent_pos))
              memaddr_base); [reflexivity |].
  destruct (Z.geb_spec
              (prel31_to_addr (tboffs eexidx) (memaddr_base + ent_pos))
              (memaddr_base + arr_pos)); [reflexivity | lia].
Qed.

(** X5: The out-of-line path seeks the table entry in the image: when the
    table offset resolves, inside the window before the candidate section,
    to an address below the base address, the seek is to a negative file
    offset and the validator raises instead of rejecting the entry. *)
Theorem table_entry_below_base_raises (po : Options) (img : image)
    (eexidx : ExIdxEntry) (memaddr_base func_align arr_pos ent_pos : Z) :
  tboffs eexidx <> 0 ->
  Z.land (tboffs eexidx) 0x80000000 = 0 ->
  memaddr_base
    < prel31_to_addr (tboffs eexidx) (memaddr_base + ent_pos)
    < memaddr_base + arr_pos ->
  func_align <> 0 ->
  prel31_to_addr (tboffs eexidx) (memaddr_base + ent_pos) mod func_align
  = 0 ->
  entry eexidx <> 0x01 ->
  Z.land (entry eexidx) 0x80000000 = 0 ->
  let tbent_offs := prel31_to_addr (entry eexidx) (memaddr_base + ent_pos) in
  memaddr_base + arr_pos - expect_sect_align po * 0x10 <= tbent_offs
    <= memaddr_base + arr_pos - 4 ->
  tbent_offs < memaddr_base ->
  tbent_offs mod 4 = 0 ->
  armfw_is_proper_ARMexidx_entry po img eexidx memaddr_base func_align
    arr_pos ent_pos = Raise OSError.
Proof.
  intros Hnz Hhigh Hrange Hfa Hal He1 Hbit tbent Hwin Hlow Hmod.
  assert (Hout : outside_text
                   (prel31_to_addr (tboffs eexidx) (memaddr_base + ent_pos))
                   memaddr_base func_align arr_pos = Ok false)
    by (apply outside_text_false; auto).
  unfold armfw_is_proper_ARMexidx_entry.
  destruct (Z.eqb_spec (tboffs eexidx) 0); [contradiction |].
  rewrite Hhigh. cbn [Z.eqb orb negb]. rewrite Hout. cbn [obind].
  destruct (Z.eqb_spec (entry eexidx) 1); [contradiction |].
  rewrite Hbit. cbn [Z.eqb negb]. fold tbent.
  destruct (Z.geb_spec tbent
              (memaddr_base + arr_pos - expect_sect_align po * 16));
    [| lia].
  destruct (Z.leb_spec tbent (memaddr_base + arr_pos - 4)); [| lia].
  cbn [andb orb]. rewrite Hmod. cbn [Z.eqb negb].
  unfold readinto_c_uint, read_at.
  destruct (Z.ltb_spec (tbent - memaddr_base) 0); [reflexivity | lia].
Qed.

Lemma table_entry_below_base_raises_witness :
  armfw_is_proper_ARMexidx_entry po_default []
    {| tboffs := 0x7FFFFFF8; entry := 0x7FFFFFE0 |} 0x1000000 2 16 16
  = Raise OSError.
Proof.
  apply (table_entry_below_base_raises po_default []
           {| tboffs := 0x7FFFFFF8; entry := 0x7FFFFFE0 |} 0x1000000 2 16
           16); vm_compute; try reflexivity; try discriminate;
    try (split; reflexivity); try (split; [discriminate | reflexivity]);
    try (split; discriminate).
Defined.

(** ** ExceptionIndexScanner: what a reported match is *)

Section Soundness.
Variables (po : Options) (img : image).
Variables (memaddr_base func_align sect_align : Z).

(** The entries counted are the records read, eight bytes each; a count
    that grows needs room for code before the candidate. *)
Lemma count_entries_count (fuel : nat) (pos entry_pos entry_count : Z)
    (eof : bool) (c p : Z) :
  count_entries fuel po img memaddr_base func_align pos entry_pos
    entry_count = Ok (eof, c, p) ->
  p = entry_pos + sizeof_ExIdxEntry * (c - entry_count) /\
  entry_count <= c /\
  (entry_count < c -> 2 <= pos).
Proof.
  revert entry_pos entry_count.
  induction fuel as [|fuel IH]; intros entry_pos entry_count;
    cbn [count_entries]; [discriminate |].
  destruct (readinto_ExIdxEntry img entry_pos) as [[e|]| |];
    cbn [obind]; try discriminate.
  - destruct (armfw_is_proper_ARMexidx_entry po img e memaddr_base
                func_align pos entry_pos) as [[|]| |] eqn:Hv;
      cbn [obind]; try discriminate.
    + intros H. apply IH in H. unfold sizeof_ExIdxEntry in *.
      destruct H as (Hp & Hc & _). split; [lia |]. split; [lia |].
      intros _. destruct (Z.le_gt_cases pos 1) as [Hle|]; [| lia].
      rewrite (no_proper_entry_without_text po img e memaddr_base
                 func_align pos entry_pos Hle) in Hv. discriminate.
    + intros [= <- <- <-]. unfold sizeof_ExIdxEntry. lia.
  - intros [= <- <- <-]. unfold sizeof_ExIdxEntry. lia.
Qed.

Lemma check_padding_result (entry_pos entry_count n : Z) :
  check_padding img sect_align entry_pos entry_count = Ok n ->
  n = entry_count \/ n = 0.
Proof.
  unfold check_padding.
  destruct (entry_count >? 0); [| intros [= <-]; auto].
  destruct (entry_pos mod sect_align >? 0); [| intros [= <-]; auto].
  destruct (read_at img entry_pos (sect_align - entry_pos mod sect_align))
    as [[|b0 rest]| |]; simpl; try discriminate.
  destruct (_ || _); intros [= <-]; auto.
Qed.

(** An accepted run lies inside the image, after at least two bytes, and
    is followed by one more whole record. *)
Lemma examine_candidate_accepted (fuel : nat) (pos n : Z) :
  examine_candidate fuel po img memaddr_base func_align sect_align pos
    = Ok (Some n) ->
  0 < n ->
  2 <= pos /\
  pos + n * sizeof_ExIdxEntry + sizeof_ExIdxEntry
    <= Z.of_nat (List.length img).
Proof.
  unfold examine_candidate.
  destruct (count_entries fuel po img memaddr_base func_align pos pos 0)
    as [[[eof c] p]| |] eqn:Hc; simpl; try discriminate.
  destruct eof; [discriminate |].
  destruct (check_padding img sect_align p c) as [n'| |] eqn:Hp;
    simpl; try discriminate.
  intros [= <-] Hn.
  apply check_padding_result in Hp. destruct Hp as [-> | ->]; [| lia].
  pose proof (count_entries_count _ _ _ _ _ _ _ Hc) as (Hpos & _ & H2).
  pose proof (count_entries_bounds _ _ _ _ _ _ _ _ _ _ _ Hc)
    as (_ & Hlen & _).
  specialize (Hlen eq_refl). unfold sizeof_ExIdxEntry in *.
  split; [apply H2; lia | lia].
Qed.

Variables (fuel_in : nat) (start_pos : Z).

Lemma scan_candidates_sound (fuel : nat) :
  forall (j : nat) (m m' : matches),
  scan_candidates fuel fuel_in po img memaddr_base func_align sect_align
    (candidate_pos start_pos sect_align j) m = Ok m' ->
  match_is_sound po img memaddr_base func_align sect_align fuel_in
    start_pos m ->
  match_is_sound po img memaddr_base func_align sect_align fuel_in
    start_pos m'.
Proof.
  induction fuel as [|fuel IH]; intros j m m'; simpl; [discriminate |].
  destruct (examine_candidate fuel_in po img memaddr_base func_align
              sect_align (candidate_pos start_pos sect_align j))
    as [[n|]| |] eqn:He; simpl; try discriminate.
  - replace (candidate_pos start_pos sect_align j + sect_align)
      with (candidate_pos start_pos sect_align (S j))
      by (unfold candidate_pos; lia).
    intros Hrun Hm. apply (IH (S j) _ _ Hrun).
    unfold consider. destruct (Z.gtb_spec n 0); [| exact Hm].
    right. cbn [match_count match_pos match_entries].
    split; [destruct Hm as [(-> & _)|(? & _)]; lia |].
    split; [lia |]. split; [exists j; reflexivity | exact He].
  - intros [= <-] Hm. exact Hm.
Qed.
End Soundness.

(** X6: What the scanner reports is either "not found", [(-1, 0)], or a
    candidate position at which the examination accepted a run: the length
    is the eight bytes of each entry of the run, the section lies inside
    the image after at least two bytes of code, and one more whole record
    follows it. *)
Theorem detect_result_is_an_accepted_run (fuel : nat) (po : Options)
    (img : image) (memaddr_base start_pos func_align sect_align : Z)
    (ws : list warning) (pos len : Z) :
  armfw_detect_sect_ARMexidx fuel po img memaddr_base start_pos func_align
    sect_align = (ws, Ok (pos, len)) ->
  (pos = -1 /\ len = 0 /\ ws = []) \/
  (exists (k : nat) (n : Z),
     pos = candidate_pos start_pos sect_align k /\
     examine_candidate fuel po img memaddr_base func_align sect_align pos
       = Ok (Some n) /\
     0 < n /\ len = n * sizeof_ExIdxEntry /\
     2 <= pos /\
     pos + len + sizeof_ExIdxEntry <= Z.of_nat (List.length img)).
Proof.
  unfold armfw_detect_sect_ARMexidx.
  destruct (negb (sect_align >=? sizeof_ExIdxEntry)); [discriminate |].
  unfold lift, mbind, eprint, ret.
  destruct (scan_candidates fuel fuel po img memaddr_base func_align
              sect_align start_pos no_match) as [m| |] eqn:Hscan;
    try discriminate.
  assert (Hm : match_is_sound po img memaddr_base func_align sect_align
                 fuel start_pos m).
  { apply (scan_candidates_sound po img memaddr_base func_align sect_align
             fuel start_pos fuel 0%nat no_match m).
    - replace (candidate_pos start_pos sect_align 0) with start_pos
        by (unfold candidate_pos; lia).
      exact Hscan.
    - left. repeat split. }
  destruct Hm as [(Hc & Hp & He)|(Hc & Hn & (k & Hk) & Hex)].
  - rewrite Hc. cbn. intros [= <- <- <-]. left. repeat split.
  - destruct (Z.ltb_spec (match_count m) 1); [lia |].
    intros Heq.
    assert (Hres : pos = match_pos m
                   /\ len = match_entries m * sizeof_ExIdxEntry).
    { destruct (match_count m >? 1); cbn in Heq;
        injection Heq as _ <- <-; split; reflexivity. }
    destruct Hres as [-> ->].
    right. exists k, (match_entries m).
    pose proof (examine_candidate_accepted po img memaddr_base func_align
                  sect_align fuel _ _ Hex Hn) as (H2 & Hlen).
    repeat split; auto.
Qed.

Lemma detect_result_is_an_accepted_run_witness :
  (32 = -1 /\ 16 = 0 /\ [Warn_multiple_matches 2 0x10] = []) \/
  (exists (k : nat) (n : Z),
     32 = candidate_pos 0 0x10 k /\
     examine_candidate 100 po_default img_two_runs 0x1000000 2 0x10 32
       = Ok (Some n) /\
     0 < n /\ 16 = n * sizeof_ExIdxEntry /\
     2 <= 32 /\
     32 + 16 + sizeof_ExIdxEntry
     <= Z.of_nat (List.length img_two_runs)).
Proof.
  apply (detect_result_is_an_accepted_run 100 po_default img_two_runs
           0x1000000 0 2 0x10 [Warn_multiple_matches 2 0x10] 32 16).
  vm_compute. reflexivity.
Defined.

(** X7: No candidate within the first two bytes of the image is ever
    accepted: the scanner cannot place the section at offset 0. *)
Theorem no_run_accepted_at_image_start (fuel : nat) (po : Options)
    (img : image) (memaddr_base func_align sect_align pos : Z) :
  pos <= 1 ->
  accepted fuel po img memaddr_base func_align sect_align pos = false.
Proof.
  intros Hpos. unfold accepted, run_length.
  destruct (examine_candidate fuel po img memaddr_base func_align
              sect_align pos) as [[n|]| |] eqn:He; try reflexivity.
  destruct (Z.gtb_spec n 0) as [Hn|]; [| reflexivity].
  pose proof (examine_candidate_accepted po img memaddr_base func_align
                sect_align fuel pos n He Hn) as (H2 & _). lia.
Qed.

Lemma no_run_accepted_at_image_start_witness :
  accepted 100 po_default
    (enc32 0x7FFFFFF8 ++ enc32 0x01 ++ repeat x00 24) 0x1000000 2 0x10 0
  = false.
Proof.
  apply (no_run_accepted_at_image_start 100 po_default
           (enc32 0x7FFFFFF8 ++ enc32 0x01 ++ repeat x00 24) 0x1000000 2
           0x10 0).
  lia.
Defined.

(** ** EmptyRegionScanner *)

Lemma read_at_window (img : image) (pos sect_align : Z) :
  0 <= pos -> 0 <= sect_align ->
  read_at img pos sect_align = Ok (window_at img pos sect_align).
Proof.
  intros Hp Hs. unfold read_at, window_at.
  destruct (Z.ltb_spec pos 0); [lia |].
  destruct (Z.ltb_spec sect_align 0); [lia | reflexivity].
Qed.

Lemma window_at_full (img : image) (pos sect_align : Z) :
  0 <= pos -> 0 < sect_align ->
  Z.of_nat (List.length (window_at img pos sect_align)) = sect_align ->
  pos + sect_align <= Z.of_nat (List.length img).
Proof.
  unfold window_at. rewrite length_firstn, length_skipn. lia.
Qed.

(** The test of the source, [0x00 in buf_set and len(buf_set) == 1], holds
    exactly for a window of zero bytes. *)
Lemma zero_window_test (buf : list byte) :
  buf <> [] ->
  existsb (fun b => byte_val b =? 0x00) buf && (distinct_bytes buf =? 1)
  = zero_fill buf.
Proof.
  intros Hne. destruct buf as [|b0 rest]; [contradiction |].
  unfold zero_fill, distinct_bytes.
  destruct (forallb (fun b => byte_val b =? 0) (b0 :: rest)) eqn:Hall.
  - rewrite forallb_forall in Hall.
    assert (Hex : existsb (fun b => byte_val b =? 0) (b0 :: rest) = true).
    { apply existsb_exists. exists b0. split; [left; reflexivity |].
      apply Hall. left. reflexivity. }
    rewrite Hex. cbn [andb].
    assert (Hz : forall x, In x (b0 :: rest) -> x = b0).
    { intros x Hx. pose proof (Hall x Hx) as H1.
      pose proof (Hall b0 (or_introl eq_refl)) as H2.
      apply Z.eqb_eq in H1, H2. unfold byte_val in *.
      assert (E : Byte.to_N x = Byte.to_N b0) by lia.
      apply (f_equal Byte.of_N) in E. rewrite !Byte.of_to_N in E.
      congruence. }
    apply all_equal_nodup_short in Hz.
    assert (Hin : In b0 (nodup byte_eq_dec (b0 :: rest)))
      by (apply nodup_In; left; reflexivity).
    destruct (nodup byte_eq_dec (b0 :: rest)) as [|a [|a' r]];
      [contradiction | reflexivity | simpl in Hz; lia].
  - destruct (existsb (fun b => byte_val b =? 0) (b0 :: rest)) eqn:Hex;
      [| reflexivity].
    cbn [andb].
    destruct (Z.eqb_spec
                (Z.of_nat (List.length (nodup byte_eq_dec (b0 :: rest)))) 1)
      as [H1|]; [| reflexivity].
    exfalso. apply existsb_exists in Hex. destruct Hex as (z & Hz & Hz0).
    assert (Hall' : forallb (fun b => byte_val b =? 0) (b0 :: rest) = true).
    { apply forallb_forall. intros x Hx.
      rewrite (nodup_short_all_equal (b0 :: rest) x z);
        [exact Hz0 | lia | exact Hx | exact Hz]. }
    congruence.
Qed.

Section EmptyScan.
Variables (img : image) (sect_align : Z).
Hypothesis sect_align_pos : 0 < sect_align.

Let window (pos : Z) : list byte := window_at img pos sect_align.
Let full (pos : Z) : Prop :=
  Z.of_nat (List.length (window pos)) = sect_align.

Lemma full_window_nonempty (pos : Z) : full pos -> window pos <> [].
Proof.
  unfold full. intros Hf Hnil. rewrite Hnil in Hf. simpl in Hf. lia.
Qed.

(** One turn of the loop on a whole window. *)
Lemma scan_empty_step (fuel : nat) (pos match_count match_pos : Z) :
  0 <= pos -> full pos ->
  scan_empty (S fuel) img sect_align pos match_count match_pos
  = if zero_fill (window pos) then
      scan_empty fuel img sect_align (pos + sect_align) (match_count + 1)
        (pos + sect_align)
    else if match_count >? 0 then Ok (match_count, match_pos)
    else scan_empty fuel img sect_align (pos + sect_align) match_count
           match_pos.
Proof.
  intros Hpos Hfull. cbn [scan_empty].
  rewrite read_at_window by lia. cbn [obind]. fold (window pos).
  unfold full in Hfull. rewrite Hfull, Z.eqb_refl. cbn [negb].
  rewrite zero_window_test by (apply full_window_nonempty; exact Hfull).
  reflexivity.
Qed.

(** One turn of the loop on a window cut short by the end of the file. *)
Lemma scan_empty_stop (fuel : nat) (pos match_count match_pos : Z) :
  0 <= pos -> ~ full pos ->
  scan_empty (S fuel) img sect_align pos match_count match_pos
  = Ok (match_count, match_pos).
Proof.
  intros Hpos Hfull. cbn [scan_empty].
  rewrite read_at_window by lia. cbn [obind]. fold (window pos).
  unfold full in Hfull.
  destruct (Z.eqb_spec (Z.of_nat (List.length (window pos))) sect_align);
    [contradiction | reflexivity].
Qed.

(** Windows that are whole but not zero are passed over while nothing has
    matched. *)
Lemma scan_empty_skip (i : nat) :
  forall (fuel : nat) (pos match_pos : Z),
  0 <= pos ->
  (forall k, (k < i)%nat ->
     full (candidate_pos pos sect_align k) /\
     zero_fill (window (candidate_pos pos sect_align k)) = false) ->
  scan_empty (i + fuel) img sect_align pos 0 match_pos
  = scan_empty fuel img sect_align (candidate_pos pos sect_align i) 0
      match_pos.
Proof.
  induction i as [|i IH]; intros fuel pos match_pos Hpos Hw.
  - replace (candidate_pos pos sect_align 0) with pos
      by (unfold candidate_pos; lia).
    reflexivity.
  - destruct (Hw 0%nat ltac:(lia)) as [Hf Hz].
    replace (candidate_pos pos sect_align 0) with pos in *
      by (unfold candidate_pos; lia).
    cbn [Nat.add]. rewrite scan_empty_step by assumption.
    rewrite Hz. cbn [Z.gtb Z.compare].
    rewrite IH.
    + rewrite candidate_pos_succ. reflexivity.
    + lia.
    + intros k Hk. rewrite candidate_pos_succ. apply Hw. lia.
Qed.

(** A run of zero windows is followed to its end. *)
Lemma scan_empty_run (r : nat) :
  forall (fuel : nat) (pos match_count match_pos : Z),
  0 <= pos -> 0 <= match_count ->
  (0 < r)%nat \/ 0 < match_count ->
  (forall k, (k < r)%nat ->
     full (candidate_pos pos sect_align k) /\
     zero_fill (window (candidate_pos pos sect_align k)) = true) ->
  ~ full (candidate_pos pos sect_align r) \/
  zero_fill (window (candidate_pos pos sect_align r)) = false ->
  scan_empty (r + S fuel) img sect_align pos match_count match_pos
  = Ok (match_count + Z.of_nat r,
        if Nat.eqb r 0 then match_pos else candidate_pos pos sect_align r).
Proof.
  induction r as [|r IH]; intros fuel pos mc mp Hpos Hmc Hsome Hw Hend.
  - replace (candidate_pos pos sect_align 0) with pos in *
      by (unfold candidate_pos; lia).
    cbn [Nat.add Nat.eqb]. replace (mc + Z.of_nat 0) with mc by lia.
    destruct Hsome as [|Hc]; [lia |].
    destruct (Z.eq_dec (Z.of_nat (List.length (window pos))) sect_align)
      as [Hf|Hf].
    + rewrite scan_empty_step by assumption.
      destruct Hend as [Hnf|Hz]; [contradiction |].
      rewrite Hz. destruct (Z.gtb_spec mc 0); [reflexivity | lia].
    + apply scan_empty_stop; assumption.
  - destruct (Hw 0%nat ltac:(lia)) as [Hf Hz].
    replace (candidate_pos pos sect_align 0) with pos in *
      by (unfold candidate_pos; lia).
    cbn [Nat.add Nat.eqb]. rewrite scan_empty_step by assumption.
    rewrite Hz. rewrite IH.
    + f_equal. f_equal; [lia |].
      destruct r; cbn [Nat.eqb]; rewrite ?candidate_pos_succ;
        [unfold candidate_pos; lia | reflexivity].
    + lia.
    + lia.
    + right. lia.
    + intros k Hk. rewrite candidate_pos_succ. apply Hw. lia.
    + rewrite candidate_pos_succ. exact Hend.
Qed.
End EmptyScan.

(** X8: The fallback scanner reports the end of the first run of zero-filled
    windows: after [i] whole windows that are not all zero come the zero
    windows [i .. j-1], and window [j] is cut short by the end of the file
    or is not all zero.  The result is the start of window [j], with
    length 0. *)
Theorem empty_scan_finds_end_of_first_zero_run (fuel : nat) (po : Options)
    (img : image) (memaddr_base start_pos func_align sect_align : Z)
    (i j : nat) :
  0 < sect_align -> 0 <= start_pos ->
  (i < j)%nat -> (j < fuel)%nat ->
  (forall k, (k < i)%nat ->
     let w := window_at img (candidate_pos start_pos sect_align k)
                sect_align in
     Z.of_nat (List.length w) = sect_align /\ zero_fill w = false) ->
  (forall k, (i <= k < j)%nat ->
     let w := window_at img (candidate_pos start_pos sect_align k)
                sect_align in
     Z.of_nat (List.length w) = sect_align /\ zero_fill w = true) ->
  (let w := window_at img (candidate_pos start_pos sect_align j)
              sect_align in
   Z.of_nat (List.length w) <> sect_align \/ zero_fill w = false) ->
  armfw_detect_empty_sect_ARMexidx fuel po img memaddr_base start_pos
    func_align sect_align
  = Ok (candidate_pos start_pos sect_align j, 0).
Proof.
  intros Hsa Hstart Hij Hfuel Hskip Hrun Hend.
  unfold armfw_detect_empty_sect_ARMexidx.
  replace fuel with (i + ((j - i) + S (fuel - j - 1)))%nat by lia.
  rewrite (scan_empty_skip img sect_align Hsa i) by assumption.
  assert (Hshift : forall k,
            candidate_pos (candidate_pos start_pos sect_align i) sect_align k
            = candidate_pos start_pos sect_align (i + k)).
  { intros k. unfold candidate_pos. lia. }
  rewrite (scan_empty_run img sect_align Hsa (j - i)).
  - cbn [obind]. destruct (j - i)%nat as [|r] eqn:Hr; [lia |].
    cbn [Nat.eqb]. rewrite Hshift.
    replace (i + S r)%nat with j by lia.
    destruct (Z.ltb_spec (0 + Z.of_nat (S r)) 1); [lia | reflexivity].
  - unfold candidate_pos. lia.
  - lia.
  - left. lia.
  - intros k Hk. rewrite Hshift. apply Hrun. lia.
  - rewrite Hshift. replace (i + (j - i))%nat with j by lia.
    destruct Hend as [H|H]; [left | right]; exact H.
Qed.

(** Window 0 of the sample holds code, windows 1 and 2 (bytes 16 to 47)
    are zero, window 3 is not. *)
Lemma empty_scan_finds_end_of_first_zero_run_witness :
  armfw_detect_empty_sect_ARMexidx 10 po_default
    (repeat x01 16 ++ repeat x00 32 ++ repeat x01 16 ++ repeat x00 16)
    0x1000000 0 2 0x10
  = Ok (candidate_pos 0 0x10 3, 0).
Proof.
  apply (empty_scan_finds_end_of_first_zero_run 10 po_default
           (repeat x01 16 ++ repeat x00 32 ++ repeat x01 16 ++ repeat x00 16)
           0x1000000 0 2 0x10 1 3); try lia.
  - intros k Hk. assert (k = 0%nat) as -> by lia.
    vm_compute. split; reflexivity.
  - intros k Hk.
    assert (k = 1%nat \/ k = 2%nat) as [-> | ->] by lia;
      vm_compute; split; reflexivity.
  - vm_compute. right. reflexivity.
Defined.

(** X9: When the image ends before any window of zero bytes, the fallback
    scanner reports "not found". *)
Theorem empty_scan_without_zero_window (fuel : nat) (po : Options)
    (img : image) (memaddr_base start_pos func_align sect_align : Z)
    (i : nat) :
  0 < sect_align -> 0 <= start_pos -> (i < fuel)%nat ->
  (forall k, (k < i)%nat ->
     let w := window_at img (candidate_pos start_pos sect_align k)
                sect_align in
     Z.of_nat (List.length w) = sect_align /\ zero_fill w = false) ->
  Z.of_nat (List.length
              (window_at img (candidate_pos start_pos sect_align i)
                 sect_align)) <> sect_align ->
  armfw_detect_empty_sect_ARMexidx fuel po img memaddr_base start_pos
    func_align sect_align = Ok (-1, 0).
Proof.
  intros Hsa Hstart Hfuel Hskip Hend.
  unfold armfw_detect_empty_sect_ARMexidx.
  replace fuel with (i + S (fuel - i - 1))%nat by lia.
  rewrite (scan_empty_skip img sect_align Hsa i) by assumption.
  rewrite (scan_empty_stop img sect_align Hsa);
    [reflexivity | unfold candidate_pos; lia | exact Hend].
Qed.

Lemma empty_scan_without_zero_window_witness :
  armfw_detect_empty_sect_ARMexidx 10 po_default (repeat x01 40) 0x1000000
    0 2 0x10 = Ok (-1, 0).
Proof.
  apply (empty_scan_without_zero_window 10 po_default (repeat x01 40)
           0x1000000 0 2 0x10 2); try lia.
  - intros k Hk.
    assert (k = 0%nat \/ k = 1%nat) as [-> | ->] by lia;
      vm_compute; split; reflexivity.
  - vm_compute. discriminate.
Defined.

(** X10: For a positive alignment the fallback scanner always returns, within
    as many turns as the image has bytes plus one; what it reports is
    "not found" or the end of a window of zero bytes that lies inside the
    image. *)
Theorem empty_scan_returns (fuel : nat) (po : Options) (img : image)
    (memaddr_base start_pos func_align sect_align : Z) :
  0 < sect_align -> 0 <= start_pos -> (List.length img < fuel)%nat ->
  exists pos,
    armfw_detect_empty_sect_ARMexidx fuel po img memaddr_base start_pos
      func_align sect_align = Ok (pos, 0) /\
    (pos = -1 \/
     (start_pos + sect_align <= pos <= Z.of_nat (List.length img) /\
      zero_fill (window_at img (pos - sect_align) sect_align) = true)).
Proof.
  intros Hsa Hstart Hfuel.
  assert (Hloop : forall f pos mc mp,
            start_pos <= pos ->
            Z.of_nat (List.length img) - pos < Z.of_nat f -> (0 < f)%nat ->
            0 <= mc ->
            (mc = 0 \/
             (start_pos + sect_align <= mp <= Z.of_nat (List.length img) /\
              zero_fill (window_at img (mp - sect_align) sect_align)
              = true)) ->
            exists mc' mp',
              scan_empty f img sect_align pos mc mp = Ok (mc', mp') /\
              0 <= mc' /\
              (mc' = 0 \/
               (start_pos + sect_align <= mp'
                  <= Z.of_nat (List.length img) /\
                zero_fill (window_at img (mp' - sect_align) sect_align)
                = true))).
  { induction f as [|f IH]; intros pos mc mp Hpos Hlen Hf Hmc Hinv; [lia |].
    destruct (Z.eq_dec
                (Z.of_nat (List.length (window_at img pos sect_align)))
                sect_align) as [Hfull|Hfull].
    - pose proof (window_at_full img pos sect_align ltac:(lia) Hsa Hfull)
        as Hin.
      rewrite (scan_empty_step img sect_align Hsa) by (auto; lia).
      destruct (zero_fill (window_at img pos sect_align)) eqn:Hz.
      + apply IH; try lia. right.
        replace (pos + sect_align - sect_align) with pos by lia.
        split; [lia | exact Hz].
      + destruct (Z.gtb_spec mc 0).
        * exists mc, mp. repeat split; auto.
        * apply IH; try lia; try exact Hinv.
    - rewrite (scan_empty_stop img sect_align Hsa) by (auto; lia).
      exists mc, mp. repeat split; auto. }
  destruct (Hloop fuel start_pos 0 (-1)) as (mc & mp & Hrun & Hmc & Hinv);
    try lia.
  unfold armfw_detect_empty_sect_ARMexidx. rewrite Hrun. cbn [obind].
  destruct (Z.ltb_spec mc 1).
  - exists (-1). split; [reflexivity | left; reflexivity].
  - exists mp. split; [reflexivity |].
    destruct Hinv as [|Hinv]; [lia | right; exact Hinv].
Qed.

Lemma empty_scan_returns_witness :
  exists pos,
    armfw_detect_empty_sect_ARMexidx 65 po_default
      (repeat x01 16 ++ repeat x00 32 ++ repeat x01 16) 0x1000000 0 2 0x10
    = Ok (pos, 0) /\
    (pos = -1 \/
     (0 + 0x10 <= pos
        <= Z.of_nat (List.length
                       (repeat x01 16 ++ repeat x00 32 ++ repeat x01 16)) /\
      zero_fill
        (window_at (repeat x01 16 ++ repeat x00 32 ++ repeat x01 16)
           (pos - 0x10) 0x10) = true)).
Proof.
  apply (empty_scan_returns 65 po_default
           (repeat x01 16 ++ repeat x00 32 ++ repeat x01 16) 0x1000000 0 2
           0x10); [lia | lia | vm_compute; lia].
Defined.

(** ** SectionLayoutResolver: what settling keeps *)

Lemma dict_mem_false (d : dict) (k : string) :
  dict_mem d k = false <-> dict_get d k = None.
Proof.
  unfold dict_mem. destruct (dict_get d k); split; congruence.
Qed.

Lemma dict_set_keys (d : dict) (k : string) (v : Z) :
  map fst (dict_set d k v)
  = if dict_mem d k then map fst d else map fst d ++ [k].
Proof.
  unfold dict_mem. induction d as [|[k' v'] d IH]; simpl; [reflexivity |].
  destruct (String.eqb_spec k k') as [->|Hne]; simpl; [reflexivity |].
  rewrite IH. destruct (dict_get d k); reflexivity.
Qed.

Lemma dict_get_None_keys (d : dict) (k : string) :
  dict_get d k = None -> ~ In k (map fst d).
Proof.
  induction d as [|[k' v'] d IH]; simpl; [tauto |].
  destruct (String.eqb_spec k k') as [->|Hne]; [discriminate |].
  intros H [Heq|Hin]; [congruence | exact (IH H Hin)].
Qed.

Lemma dict_set_wf (d : dict) (k : string) (v : Z) :
  dict_wf d -> dict_wf (dict_set d k v).
Proof.
  unfold dict_wf. intros Hwf. rewrite dict_set_keys.
  destruct (dict_mem d k) eqn:Hm; [exact Hwf |].
  apply dict_mem_false, dict_get_None_keys in Hm.
  apply NoDup_app; [exact Hwf | repeat constructor; intros [] |].
  intros a Ha [<-|[]]. contradiction.
Qed.

Lemma extends_refl (po : Options) : extends po po.
Proof. unfold extends. repeat split; auto. Qed.

Lemma extends_trans (po1 po2 po3 : Options) :
  extends po1 po2 -> extends po2 po3 -> extends po1 po3.
Proof.
  unfold extends. intros H1 H2.
  destruct H1 as (A1 & B1 & C1 & D1 & E1 & F1 & G1 & I1 & J1 & K1).
  destruct H2 as (A2 & B2 & C2 & D2 & E2 & F2 & G2 & I2 & J2 & K2).
  repeat split; try congruence; auto.
Qed.

Lemma extends_set_addr (po : Options) (k : string) (v : Z) :
  dict_get (section_addr po) k = None ->
  extends po (set_section_addr po (dict_set (section_addr po) k v)).
Proof.
  intros Hk. unfold extends, set_section_addr. cbn.
  repeat split; auto.
  - intros n w Hn. rewrite dict_get_set_other; [exact Hn | congruence].
  - apply dict_set_wf.
Qed.

Lemma extends_set_size (po : Options) (k : string) (v : Z) :
  dict_get (section_size po) k = None ->
  extends po (set_section_size po (dict_set (section_size po) k v)).
Proof.
  intros Hk. unfold extends, set_section_size. cbn.
  repeat split; auto.
  - intros n w Hn. rewrite dict_get_set_other; [exact Hn | congruence].
  - apply dict_set_wf.
Qed.

Lemma extends_settled (po po' : Options) (n : string) :
  extends po po' -> settled po n -> settled po' n.
Proof.
  unfold settled. intros He [Ha Hs].
  destruct He as (_ & _ & _ & _ & _ & _ & Haddr & Hsize & _).
  destruct (dict_get (section_addr po) n) as [a|] eqn:Ea; [| contradiction].
  destruct (dict_get (section_size po) n) as [s|] eqn:Es; [| contradiction].
  rewrite (Haddr n a Ea), (Hsize n s Es). split; discriminate.
Qed.

Lemma place_after_extends (po po' : Options) (n : string)
    (sect_pos sect_len pos' : Z) :
  place_after po n sect_pos sect_len = Ok (po', pos') ->
  extends po po' /\ dict_get (section_addr po') n <> None /\
  section_size po' = section_size po.
Proof.
  unfold place_after, dict_mem, dict_lookup.
  destruct (dict_get (section_addr po) n) as [a|] eqn:Ha; cbn [negb obind].
  - intros [= <- <-]. split; [apply extends_refl |].
    rewrite Ha. split; [discriminate | reflexivity].
  - intros [= <- <-]. split; [apply extends_set_addr; exact Ha |].
    unfold set_section_addr. cbn [section_addr section_size].
    rewrite dict_get_set_same. split; [discriminate | reflexivity].
Qed.

Lemma settle_sect_text_extends (po po' : Options) :
  armfw_bin2elf_settle_sect_text po = Ok po' ->
  extends po po' /\ settled po' ".text".
Proof.
  unfold armfw_bin2elf_settle_sect_text, dict_mem, dict_lookup.
  destruct (dict_get (section_addr po) ".ARM.exidx") as [a|];
    cbn [negb obind]; [| discriminate].
  destruct (dict_get (section_addr po) ".text") as [t|] eqn:Ht;
    cbn [negb obind].
  - rewrite Ht. cbn [obind].
    destruct (dict_get (section_size po) ".text") as [s|] eqn:Hs;
      cbn [negb]; intros [= <-].
    + split; [apply extends_refl |]. unfold settled.
      rewrite Ht, Hs. split; discriminate.
    + split; [apply extends_set_size; exact Hs |]. unfold settled.
      unfold set_section_size. cbn [section_addr section_size].
      rewrite Ht, dict_get_set_same. split; discriminate.
  - destruct (a - baseaddr po >? expect_func_align po * 8);
      cbn [obind]; [| discriminate].
    pose proof (extends_set_addr po ".text" (baseaddr po + 0) Ht) as He1.
    set (po1 := set_section_addr po
                  (dict_set (section_addr po) ".text" (baseaddr po + 0)))
      in *.
    assert (Hget1 : dict_get (section_addr po1) ".text"
                    = Some (baseaddr po + 0))
      by (unfold po1, set_section_addr; cbn [section_addr];
          apply dict_get_set_same).
    rewrite Hget1. cbn [obind].
    destruct (dict_get (section_size po1) ".text") as [s|] eqn:Hs;
      cbn [negb]; intros [= <-].
    + split; [exact He1 |]. unfold settled. rewrite Hget1, Hs.
      split; discriminate.
    + split.
      * apply (extends_trans _ po1); [exact He1 |].
        change (section_size po) with (section_size po1).
        apply extends_set_size. exact Hs.
      * unfold settled, set_section_size. cbn [section_addr section_size].
        rewrite Hget1, dict_get_set_same. split; discriminate.
Qed.

Lemma settle_sect_data_extends (po po' : Options) (img : image) :
  armfw_bin2elf_settle_sect_data po img = Ok po' ->
  extends po po' /\ settled po' ".data".
Proof.
  unfold armfw_bin2elf_settle_sect_data, dict_mem, dict_lookup.
  destruct (dict_get (section_addr po) ".ARM.exidx") as [a|];
    cbn [negb obind]; [| discriminate].
  destruct (dict_get (section_size po) ".ARM.exidx") as [l|];
    cbn [obind]; [| discriminate].
  destruct (place_after po ".data" (a - baseaddr po) l)
    as [[po1 pos1]| |] eqn:Hp; cbn [obind]; try discriminate.
  apply place_after_extends in Hp. destruct Hp as (He1 & Ha1 & Hs1).
  destruct (dict_get (section_size po1) ".data") as [s|] eqn:Hs;
    cbn [negb]; intros [= <-].
  - split; [exact He1 |]. unfold settled. rewrite Hs.
    split; [exact Ha1 | discriminate].
  - split.
    + apply (extends_trans _ po1); [exact He1 |].
      apply extends_set_size. exact Hs.
    + unfold settled, set_section_size. cbn [section_addr section_size].
      split; [exact Ha1 | rewrite dict_get_set_same; discriminate].
Qed.

Lemma settle_more_bss_extends (keys : list string) :
  forall (po po' : Options) (sect_pos sect_len : Z),
  settle_more_bss po keys sect_pos sect_len = Ok po' -> extends po po'.
Proof.
  induction keys as [|k keys IH]; intros po po' sect_pos sect_len; simpl.
  - intros [= <-]. apply extends_refl.
  - destruct (is_numbered_bss k); cbn [negb]; [| apply IH].
    destruct (dict_mem (section_size po) k); cbn [negb];
      [| intros [= <-]; apply extends_refl].
    destruct (place_after po k sect_pos sect_len) as [[po1 pos1]| |] eqn:Hp;
      cbn [obind]; try discriminate.
    apply place_after_extends in Hp. destruct Hp as (He1 & _).
    destruct (dict_lookup (section_size po1) k) as [l| |];
      cbn [obind]; try discriminate.
    intros Hrun. apply (extends_trans _ po1); [exact He1 |].
    exact (IH _ _ _ _ Hrun).
Qed.

Lemma settle_sect_bss_extends (po po' : Options) :
  armfw_bin2elf_settle_sect_bss po = Ok po' ->
  extends po po' /\ settled po' ".bss".
Proof.
  unfold armfw_bin2elf_settle_sect_bss, dict_mem, dict_lookup.
  destruct (dict_get (section_addr po) ".data") as [a|];
    cbn [negb obind]; [| discriminate].
  destruct (dict_get (section_size po) ".data") as [l|];
    cbn [obind]; [| discriminate].
  destruct (place_after po ".bss" (a - baseaddr po) l)
    as [[po1 pos1]| |] eqn:Hp; cbn [obind]; try discriminate.
  apply place_after_extends in Hp. destruct Hp as (He1 & Ha1 & Hs1).
  destruct (dict_get (section_size po1) ".bss") as [s|] eqn:Hs;
    cbn [negb obind]; intros Hrun.
  - apply settle_more_bss_extends in Hrun.
    split; [exact (extends_trans _ _ _ He1 Hrun) |].
    apply (extends_settled po1); [exact Hrun |].
    unfold settled. rewrite Hs. split; [exact Ha1 | discriminate].
  - apply settle_more_bss_extends in Hrun.
    split.
    + apply (extends_trans _ po1); [exact He1 |].
      eapply extends_trans; [apply extends_set_size; exact Hs |].
      exact Hrun.
    + apply (extends_settled _ _ _ Hrun).
      unfold settled, set_section_size. cbn [section_addr section_size].
      split; [exact Ha1 | rewrite dict_get_set_same; discriminate].
Qed.

Lemma settle_sect_ARMexidx_extends (fuel : nat) (po po' : Options)
    (img : image) (ws : list warning) :
  armfw_bin2elf_settle_sect_ARMexidx fuel po img = (ws, Ok po') ->
  extends po po' /\ settled po' ".ARM.exidx".
Proof.
  unfold armfw_bin2elf_settle_sect_ARMexidx.
  set (first_part := if negb (dict_mem (section_addr po) ".ARM.exidx")
                     then _ else _).
  assert (Hfirst : forall ws1 po1 len1,
            first_part = (ws1, Ok (po1, len1)) ->
            extends po po1 /\
            dict_get (section_addr po1) ".ARM.exidx" <> None /\
            section_size po1 = section_size po).
  { intros ws1 po1 len1. unfold first_part, dict_mem, dict_lookup.
    destruct (dict_get (section_addr po) ".ARM.exidx") as [a|] eqn:Ha;
      cbn [negb].
    - unfold lift, mbind, ret. intros [= _ <- _].
      split; [apply extends_refl |]. rewrite Ha.
      split; [discriminate | reflexivity].
    - unfold mbind at 1.
      destruct (armfw_detect_sect_ARMexidx fuel po img (baseaddr po) 0
                  (expect_func_align po) (expect_sect_align po))
        as [w1 [[p1 l1]| |]]; try discriminate.
      unfold mbind at 1.
      destruct (if p1 <? 0 then _ else _) as [w2 [[p2 l2]| |]];
        try (destruct (_ : M _); discriminate).
      unfold mbind at 1.
      destruct (if p2 <? 0 then _ else _) as [w3 [[p3 l3]| |]];
        try (destruct (_ : M _); discriminate).
      destruct (p3 <? 0); unfold raise, ret; [discriminate |].
      intros [= _ <- _].
      split; [apply extends_set_addr; exact Ha |].
      unfold set_section_addr. cbn [section_addr section_size].
      rewrite dict_get_set_same. split; [discriminate | reflexivity]. }
  unfold mbind.
  destruct first_part as [ws1 [[po1 len1]| |]]; try discriminate.
  destruct (Hfirst ws1 po1 len1 eq_refl) as (He1 & Ha1 & Hs1).
  unfold dict_mem, ret.
  destruct (dict_get (section_size po1) ".ARM.exidx") as [s|] eqn:Hs;
    cbn [negb]; intros [= _ <-].
  - split; [exact He1 |]. unfold settled. rewrite Hs.
    split; [exact Ha1 | discriminate].
  - split.
    + apply (extends_trans _ po1); [exact He1 |].
      apply extends_set_size. exact Hs.
    + unfold settled, set_section_size. cbn [section_addr section_size].
      split; [exact Ha1 | rewrite dict_get_set_same; discriminate].
Qed.

Lemma settle_extends (fuel : nat) (po po' : Options) (img : image)
    (ws : list warning) :
  armfw_bin2elf_settle fuel po img = (ws, Ok po') -> extends po po'.
Proof.
  unfold armfw_bin2elf_settle, mbind, lift.
  destruct (armfw_bin2elf_settle_sect_ARMexidx fuel po img)
    as [w1 [po1| |]] eqn:H1; try discriminate.
  apply settle_sect_ARMexidx_extends in H1. destruct H1 as [E1 _].
  destruct (armfw_bin2elf_settle_sect_text po1) as [po2| |] eqn:H2;
    try discriminate.
  apply settle_sect_text_extends in H2. destruct H2 as [E2 _].
  destruct (armfw_bin2elf_settle_sect_data po2 img) as [po3| |] eqn:H3;
    try discriminate.
  apply settle_sect_data_extends in H3. destruct H3 as [E3 _].
  destruct (armfw_bin2elf_settle_sect_bss po3) as [po4| |] eqn:H4;
    try discriminate.
  apply settle_sect_bss_extends in H4. destruct H4 as [E4 _].
  intros [= _ <-].
  exact (extends_trans _ _ _ E1
           (extends_trans _ _ _ E2 (extends_trans _ _ _ E3 E4))).
Qed.

(** X11: Settling only adds: whenever the first stage of the conversion
    returns, every address and size that was given is unchanged, the
    settings are unchanged, and [.ARM.exidx], [.text], [.data] and [.bss]
    each have an address and a size. *)
Theorem settle_keeps_overrides (fuel : nat) (po po' : Options)
    (img : image) (ws : list warning) :
  armfw_bin2elf_settle fuel po img = (ws, Ok po') ->
  extends po po' /\
  settled po' ".ARM.exidx" /\ settled po' ".text" /\
  settled po' ".data" /\ settled po' ".bss".
Proof.
  unfold armfw_bin2elf_settle, mbind, lift.
  destruct (armfw_bin2elf_settle_sect_ARMexidx fuel po img)
    as [w1 [po1| |]] eqn:H1; try discriminate.
  apply settle_sect_ARMexidx_extends in H1. destruct H1 as [E1 S1].
  destruct (armfw_bin2elf_settle_sect_text po1) as [po2| |] eqn:H2;
    try discriminate.
  apply settle_sect_text_extends in H2. destruct H2 as [E2 S2].
  destruct (armfw_bin2elf_settle_sect_data po2 img) as [po3| |] eqn:H3;
    try discriminate.
  apply settle_sect_data_extends in H3. destruct H3 as [E3 S3].
  destruct (armfw_bin2elf_settle_sect_bss po3) as [po4| |] eqn:H4;
    try discriminate.
  apply settle_sect_bss_extends in H4. destruct H4 as [E4 S4].
  intros [= _ <-].
  split; [exact (extends_trans _ _ _ E1
                   (extends_trans _ _ _ E2 (extends_trans _ _ _ E3 E4))) |].
  split; [exact (extends_settled _ _ _ E4
                   (extends_settled _ _ _ E3
                      (extends_settled _ _ _ E2 S1))) |].
  split; [exact (extends_settled _ _ _ E4 (extends_settled _ _ _ E3 S2)) |].
  split; [exact (extends_settled _ _ _ E4 S3) | exact S4].
Qed.

Lemma settle_keeps_overrides_witness :
  extends po_default po_two_runs_settled /\
  settled po_two_runs_settled ".ARM.exidx" /\
  settled po_two_runs_settled ".text" /\
  settled po_two_runs_settled ".data" /\
  settled po_two_runs_settled ".bss".
Proof.
  apply (settle_keeps_overrides 100 po_default po_two_runs_settled
           img_two_runs [Warn_multiple_matches 2 0x10]).
  vm_compute. reflexivity.
Defined.

(** ** SectionLayoutResolver: the regions of a plain conversion *)

Lemma section_addr_set_addr (po : Options) (d : dict) :
  section_addr (set_section_addr po d) = d.
Proof. reflexivity. Qed.

Lemma section_addr_set_size (po : Options) (d : dict) :
  section_addr (set_section_size po d) = section_addr po.
Proof. reflexivity. Qed.

Lemma section_size_set_size (po : Options) (d : dict) :
  section_size (set_section_size po d) = d.
Proof. reflexivity. Qed.

(** X12: With no section given by hand, when the scanner finds [.ARM.exidx] at
    offset [pos] with length [len] at the expected alignment and more than
    [8 * expect_func_align] bytes precede it, the four regions tile the
    image: code from the base address up to the anchor, the anchor, data
    from its end to the end of the image, and the uninitialized region
    from there to the end of the address space. *)
Theorem settle_regions_tile_image (fuel : nat) (po : Options) (img : image)
    (ws : list warning) (pos len : Z) :
  section_addr po = [] -> section_size po = [] ->
  armfw_detect_sect_ARMexidx fuel po img (baseaddr po) 0
    (expect_func_align po) (expect_sect_align po) = (ws, Ok (pos, len)) ->
  0 <= pos -> expect_func_align po * 8 < pos ->
  exists po',
    armfw_bin2elf_settle fuel po img = (ws, Ok po') /\
    section_addr po'
    = [(".ARM.exidx", baseaddr po + pos); (".text", baseaddr po);
       (".data", baseaddr po + pos + len);
       (".bss", baseaddr po + Z.of_nat (List.length img))] /\
    section_size po'
    = [(".ARM.exidx", len); (".text", pos);
       (".data", Z.of_nat (List.length img) - (pos + len));
       (".bss", Z.max 0 (addrspacelen po - Z.of_nat (List.length img)))].
Proof.
  intros Haddr Hsize Hscan Hpos0 Hpos.
  destruct po as [base alen fa sa addr size verb dry].
  cbn [section_addr section_size baseaddr expect_func_align
       expect_sect_align addrspacelen] in *.
  subst addr size.
  unfold armfw_bin2elf_settle, armfw_bin2elf_settle_sect_ARMexidx.
  cbn [section_addr section_size baseaddr expect_func_align
       expect_sect_align addrspacelen dict_mem dict_get negb].
  rewrite Hscan.
  assert (Hp : (pos <? 0) = false) by (apply Z.ltb_ge; lia).
  cbn [mbind ret]. rewrite Hp. cbn [mbind ret]. rewrite Hp.
  cbn [mbind ret raise]. rewrite Hp.
  cbn [mbind ret set_section_addr set_section_size section_addr
       section_size baseaddr addrspacelen expect_func_align
       expect_sect_align verbose dry_run dict_mem dict_get dict_set negb
       app lift].
  unfold armfw_bin2elf_settle_sect_text.
  cbn [section_addr section_size baseaddr expect_func_align dict_mem
       dict_lookup dict_get dict_set String.eqb Ascii.eqb Bool.eqb negb
       obind set_section_addr set_section_size addrspacelen
       expect_sect_align verbose dry_run].
  replace (base + pos - base >? fa * 8) with true
    by (symmetry; apply Z.gtb_lt; lia).
  cbn [section_addr section_size baseaddr expect_func_align dict_mem
       dict_lookup dict_get dict_set String.eqb Ascii.eqb Bool.eqb negb
       obind set_section_addr set_section_size addrspacelen
       expect_sect_align verbose dry_run mbind app].
  unfold armfw_bin2elf_settle_sect_data, place_after.
  cbn [section_addr section_size baseaddr expect_func_align dict_mem
       dict_lookup dict_get dict_set String.eqb Ascii.eqb Bool.eqb negb
       obind set_section_addr set_section_size addrspacelen
       expect_sect_align verbose dry_run mbind app].
  rewrite !Z.mod_1_r. cbn [Z.eqb negb].
  cbn [section_addr section_size baseaddr expect_func_align dict_mem
       dict_lookup dict_get dict_set String.eqb Ascii.eqb Bool.eqb negb
       obind set_section_addr set_section_size addrspacelen
       expect_sect_align verbose dry_run mbind app].
  unfold armfw_bin2elf_settle_sect_bss, place_after.
  cbn [section_addr section_size baseaddr expect_func_align dict_mem
       dict_lookup dict_get dict_set String.eqb Ascii.eqb Bool.eqb negb
       obind set_section_addr set_section_size addrspacelen
       expect_sect_align verbose dry_run mbind app].
  rewrite !Z.mod_1_r. cbn [Z.eqb negb].
  cbn [section_addr section_size baseaddr expect_func_align dict_mem
       dict_lookup dict_get dict_set String.eqb Ascii.eqb Bool.eqb negb
       obind set_section_addr set_section_size addrspacelen
       expect_sect_align verbose dry_run mbind app map fst
       settle_more_bss is_numbered_bss].
  rewrite !app_nil_r.
  eexists. split; [reflexivity |].
  rewrite section_addr_set_size, section_addr_set_addr,
    section_size_set_size. split.
  - repeat (apply (f_equal2 (@cons _));
              [apply (f_equal2 (@pair _ _)); [reflexivity | lia] |]).
    reflexivity.
  - repeat (apply (f_equal2 (@cons _));
              [apply (f_equal2 (@pair _ _)); [reflexivity | try lia] |]);
      try reflexivity.
    match goal with
    | |- context [?a <? 0] => destruct (Z.ltb_spec a 0); lia
    end.
Qed.

Lemma settle_regions_tile_image_witness :
  exists po',
    armfw_bin2elf_settle 100 po_default img_two_runs
      = ([Warn_multiple_matches 2 0x10], Ok po') /\
    section_addr po'
    = [(".ARM.exidx", baseaddr po_default + 32);
       (".text", baseaddr po_default);
       (".data", baseaddr po_default + 32 + 16);
       (".bss", baseaddr po_default
                + Z.of_nat (List.length img_two_runs))] /\
    section_size po'
    = [(".ARM.exidx", 16); (".text", 32);
       (".data", Z.of_nat (List.length img_two_runs) - (32 + 16));
       (".bss", Z.max 0 (addrspacelen po_default
                         - Z.of_nat (List.length img_two_runs)))].
Proof.
  apply (settle_regions_tile_image 100 po_default img_two_runs
           [Warn_multiple_matches 2 0x10] 32 16);
    [reflexivity | reflexivity | vm_compute; reflexivity | lia
    | vm_compute; reflexivity].
Defined.

(** ** SectionLayoutResolver: an image without a record *)

Lemma readinto_short_image (img : image) :
  (List.length img < 8)%nat -> readinto_ExIdxEntry img 0 = Ok None.
Proof.
  intros Hlen. unfold readinto_ExIdxEntry, read_at, sizeof_ExIdxEntry.
  cbn [Z.ltb Z.compare Z.to_nat skipn obind].
  destruct img as [|b0 [|b1 [|b2 [|b3 [|b4 [|b5 [|b6 [|b7 r]]]]]]]];
    simpl in Hlen; try lia; reflexivity.
Qed.

Lemma detect_short_image (fuel : nat) (po : Options) (img : image)
    (memaddr_base func_align sect_align : Z) :
  (0 < fuel)%nat -> (List.length img < 8)%nat ->
  sizeof_ExIdxEntry <= sect_align ->
  armfw_detect_sect_ARMexidx fuel po img memaddr_base 0 func_align
    sect_align = ([], Ok (-1, 0)).
Proof.
  intros Hfuel Hlen Hsa. unfold armfw_detect_sect_ARMexidx.
  destruct (Z.geb_spec sect_align sizeof_ExIdxEntry); [| lia].
  cbn [negb]. destruct fuel as [|fuel]; [lia |].
  cbn [scan_candidates]. unfold examine_candidate.
  cbn [count_entries]. rewrite readinto_short_image by exact Hlen.
  reflexivity.
Qed.

(** X13: An image shorter than one record cannot be converted without an
    address for [.ARM.exidx]: both scans and the fallback find nothing and
    the resolver raises [EOFError]. *)
Theorem settle_ARMexidx_needs_a_record (fuel : nat) (po : Options)
    (img : image) :
  (0 < fuel)%nat ->
  dict_get (section_addr po) ".ARM.exidx" = None ->
  16 <= expect_sect_align po ->
  (List.length img < 8)%nat ->
  armfw_bin2elf_settle_sect_ARMexidx fuel po img
  = ((if verbose po >? 1 then [Warn_looking_for_empty] else []),
     Raise (EOFError
              "No matches found for section '.ARM.exidx' in binary file.")).
Proof.
  intros Hfuel Haddr Hsa Hlen.
  unfold armfw_bin2elf_settle_sect_ARMexidx, dict_mem.
  rewrite Haddr. cbn [negb].
  rewrite detect_short_image
    by (auto; unfold sizeof_ExIdxEntry; lia).
  cbn [mbind ret Z.ltb Z.compare].
  rewrite detect_short_image; auto.
  2:{ unfold sizeof_ExIdxEntry. rewrite Z.shiftr_div_pow2 by lia.
      change (2 ^ 1) with 2. apply Z.div_le_lower_bound; lia. }
  cbn [mbind ret Z.ltb Z.compare app].
  assert (Hempty : armfw_detect_empty_sect_ARMexidx fuel po img
                     (baseaddr po) 0 (expect_func_align po)
                     (expect_sect_align po) = Ok (-1, 0)).
  { unfold armfw_detect_empty_sect_ARMexidx.
    destruct fuel as [|f]; [lia |].
    rewrite scan_empty_stop; [reflexivity | lia | lia |].
    unfold window_at. rewrite length_firstn, length_skipn. lia. }
  rewrite Hempty.
  destruct (verbose po >? 1); reflexivity.
Qed.

Lemma settle_ARMexidx_needs_a_record_witness :
  armfw_bin2elf_settle_sect_ARMexidx 1 po_default []
  = ((if verbose po_default >? 1 then [Warn_looking_for_empty] else []),
     Raise (EOFError
              "No matches found for section '.ARM.exidx' in binary file.")).
Proof.
  apply (settle_ARMexidx_needs_a_record 1 po_default []);
    [lia | reflexivity | vm_compute; discriminate | simpl; lia].
Defined.

(** ** SectionLayoutResolver: further [.bss] sections *)

Lemma place_after_other (po po' : Options) (k n : string)
    (sect_pos sect_len pos' : Z) :
  place_after po k sect_pos sect_len = Ok (po', pos') ->
  n <> k ->
  dict_get (section_addr po') n = dict_get (section_addr po) n.
Proof.
  unfold place_after, dict_mem, dict_lookup.
  destruct (dict_get (section_addr po) k) as [a|]; cbn [negb obind];
    intros [= <- <-] Hn; [reflexivity |].
  unfold set_section_addr. cbn [section_addr].
  apply dict_get_set_other. congruence.
Qed.

Lemma settle_more_bss_settles (keys : list string) :
  forall (po po' : Options) (sect_pos sect_len : Z),
  (forall k, In k keys -> dict_get (section_size po) k <> None) ->
  settle_more_bss po keys sect_pos sect_len = Ok po' ->
  forall n, In n keys -> is_numbered_bss n = true ->
  dict_get (section_addr po') n <> None.
Proof.
  induction keys as [|k keys IH]; intros po po' sect_pos sect_len Hkeys;
    simpl; [intros _ n [] |].
  destruct (is_numbered_bss k) eqn:Hk; cbn [negb].
  - destruct (dict_mem (section_size po) k) eqn:Hm; cbn [negb].
    + destruct (place_after po k sect_pos sect_len)
        as [[po1 pos1]| |] eqn:Hp; cbn [obind]; try discriminate.
      apply place_after_extends in Hp. destruct Hp as (He1 & Ha1 & Hs1).
      destruct (dict_lookup (section_size po1) k) as [l| |];
        cbn [obind]; try discriminate.
      intros Hrun n [<-|Hn] Hnum.
      * apply settle_more_bss_extends in Hrun.
        destruct Hrun as (_ & _ & _ & _ & _ & _ & Haddr & _).
        destruct (dict_get (section_addr po1) k) as [a|] eqn:Ha;
          [| contradiction].
        rewrite (Haddr k a Ha). discriminate.
      * apply (IH po1 po' pos1 l); auto.
        intros k' Hk'. rewrite Hs1. apply Hkeys. right. exact Hk'.
    + exfalso. apply dict_mem_false in Hm.
      exact (Hkeys k (or_introl eq_refl) Hm).
  - intros Hrun n [<-|Hn] Hnum; [congruence |].
    apply (IH po po' sect_pos sect_len); auto.
    intros k' Hk'. apply Hkeys. right. exact Hk'.
Qed.

Lemma settle_more_bss_other (keys : list string) :
  forall (po po' : Options) (sect_pos sect_len : Z) (n : string),
  settle_more_bss po keys sect_pos sect_len = Ok po' ->
  is_numbered_bss n = false \/ ~ In n keys ->
  dict_get (section_addr po') n = dict_get (section_addr po) n.
Proof.
  induction keys as [|k keys IH]; intros po po' sect_pos sect_len n; simpl.
  - intros [= <-] _. reflexivity.
  - destruct (is_numbered_bss k) eqn:Hk; cbn [negb].
    + destruct (dict_mem (section_size po) k); cbn [negb];
        [| intros [= <-] _; reflexivity].
      destruct (place_after po k sect_pos sect_len)
        as [[po1 pos1]| |] eqn:Hp; cbn [obind]; try discriminate.
      destruct (dict_lookup (section_size po1) k) as [l| |];
        cbn [obind]; try discriminate.
      intros Hrun Hn.
      assert (Hne : n <> k).
      { intros ->. destruct Hn as [Hn|Hn]; [congruence |].
        apply Hn. left. reflexivity. }
      rewrite (IH _ _ _ _ n Hrun) by tauto.
      exact (place_after_other _ _ _ _ _ _ _ Hp Hne).
    + intros Hrun Hn. apply (IH _ _ _ _ n Hrun). tauto.
Qed.

Lemma dict_get_keys (d : dict) (k : string) (v : Z) :
  dict_get d k = Some v -> In k (map fst d).
Proof.
  intros H. apply dict_get_In in H. apply (in_map fst) in H. exact H.
Qed.

(** X14: Settling [.bss] gives an address to every numbered section
    ([.bss2], [.bss10], ...) that has a size, and keeps that size; apart
    from [.bss] itself, it gives an address to no other section. *)
Theorem settle_sect_bss_numbered_sections (po po' : Options) (n : string) :
  armfw_bin2elf_settle_sect_bss po = Ok po' ->
  (forall size,
     is_numbered_bss n = true ->
     dict_get (section_size po) n = Some size ->
     dict_get (section_size po') n = Some size /\
     dict_get (section_addr po') n <> None) /\
  (n <> ".bss"%string ->
   is_numbered_bss n = false \/ dict_get (section_size po) n = None ->
   dict_get (section_addr po') n = dict_get (section_addr po) n).
Proof.
  intros Hrun.
  pose proof (settle_sect_bss_extends po po' Hrun) as [Hext _].
  revert Hrun.
  unfold armfw_bin2elf_settle_sect_bss, dict_mem, dict_lookup.
  destruct (dict_get (section_addr po) ".data") as [a|];
    cbn [negb obind]; [| discriminate].
  destruct (dict_get (section_size po) ".data") as [l|];
    cbn [obind]; [| discriminate].
  destruct (place_after po ".bss" (a - baseaddr po) l)
    as [[po1 pos1]| |] eqn:Hp; cbn [obind]; try discriminate.
  pose proof (place_after_extends _ _ _ _ _ _ Hp) as (He1 & Ha1 & Hs1).
  assert (Hmore : forall po2 len2,
            section_addr po2 = section_addr po1 ->
            (forall k v, dict_get (section_size po) k = Some v ->
               dict_get (section_size po2) k = Some v) ->
            (forall k, k <> ".bss"%string ->
               dict_get (section_size po) k = None ->
               dict_get (section_size po2) k = None) ->
            settle_more_bss po2 (map fst (section_size po2)) pos1 len2
              = Ok po' ->
            (forall size,
               is_numbered_bss n = true ->
               dict_get (section_size po) n = Some size ->
               dict_get (section_size po') n = Some size /\
               dict_get (section_addr po') n <> None) /\
            (n <> ".bss"%string ->
             is_numbered_bss n = false
             \/ dict_get (section_size po) n = None ->
             dict_get (section_addr po') n = dict_get (section_addr po) n)).
  { intros po2 len2 Haddr2 Hkeep Hnone Hrun. split.
    - intros size Hnum Hsize. split.
      + destruct Hext as (_ & _ & _ & _ & _ & _ & _ & Hs & _).
        exact (Hs n size Hsize).
      + apply (settle_more_bss_settles _ _ _ _ _
                 (fun k Hk H => dict_get_None_keys _ _ H Hk) Hrun);
          [| exact Hnum].
        exact (dict_get_keys _ _ _ (Hkeep n size Hsize)).
    - intros Hne Hcase.
      rewrite (settle_more_bss_other _ _ _ _ _ n Hrun).
      + rewrite Haddr2. exact (place_after_other _ _ _ _ _ _ _ Hp Hne).
      + destruct Hcase as [Hnum|Hsize]; [left; exact Hnum |].
        right. apply dict_get_None_keys. exact (Hnone n Hne Hsize). }
  destruct (dict_get (section_size po1) ".bss") as [s|] eqn:Hs;
    cbn [negb obind]; intros Hrun.
  - apply (Hmore po1 s); auto.
    + intros k v Hk. rewrite Hs1. exact Hk.
    + intros k _ Hk. rewrite Hs1. exact Hk.
  - eapply Hmore; [| | | exact Hrun].
    + reflexivity.
    + intros k v Hk. unfold set_section_size. cbn [section_size].
      rewrite dict_get_set_other; [rewrite Hs1; exact Hk |].
      intros <-. rewrite Hs1 in Hs. congruence.
    + intros k Hne Hk. unfold set_section_size. cbn [section_size].
      rewrite dict_get_set_other by congruence. rewrite Hs1. exact Hk.
Qed.

Lemma settle_sect_bss_numbered_sections_witness :
  (forall size,
     is_numbered_bss ".bss2" = true ->
     dict_get (section_size po_bss2_sized) ".bss2" = Some size ->
     dict_get (section_size po_bss2_settled) ".bss2" = Some size /\
     dict_get (section_addr po_bss2_settled) ".bss2" <> None) /\
  (".bss2"%string <> ".bss"%string ->
   is_numbered_bss ".bss2" = false
   \/ dict_get (section_size po_bss2_sized) ".bss2" = None ->
   dict_get (section_addr po_bss2_settled) ".bss2"
   = dict_get (section_addr po_bss2_sized) ".bss2").
Proof.
  apply (settle_sect_bss_numbered_sections po_bss2_sized po_bss2_settled
           ".bss2").
  vm_compute. reflexivity.
Defined.

(** ** LayoutReconciler: the order in closed form *)

Lemma insert_sorted_sorted (a : Z) (l : list Z) :
  StronglySorted Z.lt l ->
  StronglySorted Z.lt (insert_sorted a l).
Proof.
  induction 1 as [|b l Hs IH Hall]; simpl.
  - constructor; constructor.
  - destruct (Z.ltb_spec a b).
    + constructor; [constructor; assumption |].
      constructor; [assumption |].
      rewrite Forall_forall in *. intros x Hx. specialize (Hall x Hx). lia.
    + destruct (Z.eqb_spec a b); [constructor; assumption |].
      constructor; [exact IH |].
      rewrite Forall_forall in *. intros x Hx.
      apply insert_sorted_In in Hx. destruct Hx as [->|Hx];
        [lia | exact (Hall x Hx)].
Qed.

Lemma sorted_set_sorted (l : list Z) :
  StronglySorted Z.lt (sorted_set l).
Proof.
  unfold sorted_set. induction l as [|a l IH]; simpl;
    [constructor | apply insert_sorted_sorted; exact IH].
Qed.

Lemma list_mem_In (n : string) (l : list string) :
  list_mem n l = true <-> In n l.
Proof.
  unfold list_mem. rewrite existsb_exists. split.
  - intros (x & Hx & Heq). apply String.eqb_eq in Heq. subst. exact Hx.
  - intros H. exists n. split; [exact H | apply String.eqb_refl].
Qed.

Section ClosedOrder.
Variable po : Options.
Hypothesis addr_wf : dict_wf (section_addr po).

Lemma item_address_unique (n : string) (a a' : Z) :
  In (n, a) (section_addr po) -> In (n, a') (section_addr po) -> a = a'.
Proof.
  intros H1 H2.
  apply (dict_wf_In_get _ _ _ addr_wf) in H1.
  apply (dict_wf_In_get _ _ _ addr_wf) in H2. congruence.
Qed.

(** The first inner loop appends the empty sections of the address. *)
Lemma add_empty_fold (sortaddr : Z) (items : dict) :
  forall order,
  fold_left
    (fun order (item : string * Z) =>
       let (sectname, addr) := item in
       if addr =? sortaddr then
         match dict_get (section_size po) sectname with
         | Some size => if size <? 1 then order ++ [sectname] else order
         | None => order
         end
       else order)
    items order
  = order
    ++ map fst
         (filter (fun item : string * Z =>
                    (snd item =? sortaddr)
                    && sized_below_one po (fst item))
            items).
Proof.
  induction items as [|[k v] items IH]; intros order; simpl.
  - rewrite app_nil_r. reflexivity.
  - rewrite IH. unfold sized_below_one.
    destruct (v =? sortaddr); cbn [andb]; [| reflexivity].
    destruct (dict_get (section_size po) k) as [size|]; [| reflexivity].
    destruct (size <? 1); [| reflexivity].
    cbn [map fst]. rewrite <- app_assoc. reflexivity.
Qed.

Lemma add_empty_sections_eq (sortaddr : Z) (order : list string) :
  add_empty_sections po sortaddr order
  = order
    ++ map fst
         (filter (fun item : string * Z =>
                    (snd item =? sortaddr)
                    && sized_below_one po (fst item))
            (section_addr po)).
Proof. apply add_empty_fold. Qed.

(** The second inner loop appends the sections of the address that the
    order does not hold yet. *)
Lemma add_other_sections_eq (sortaddr : Z) (items : dict) :
  NoDup (map fst items) ->
  forall order,
  fold_left
    (fun order (item : string * Z) =>
       let (sectname, addr) := item in
       if addr =? sortaddr then
         if negb (list_mem sectname order) then order ++ [sectname]
         else order
       else order)
    items order
  = order
    ++ map fst
         (filter (fun item : string * Z =>
                    (snd item =? sortaddr)
                    && negb (list_mem (fst item) order))
            items).
Proof.
  induction items as [|[k v] items IH]; intros Hnd order; simpl.
  - rewrite app_nil_r. reflexivity.
  - inversion Hnd as [|? ? Hnotin Hnd']; subst.
    rewrite (IH Hnd'). cbn [fst snd].
    destruct (v =? sortaddr); cbn [andb]; [| reflexivity].
    destruct (list_mem k order) eqn:Hmem; cbn [negb]; [reflexivity |].
    cbn [map]. rewrite <- app_assoc. cbn [app]. f_equal. f_equal.
    f_equal. apply filter_ext_in. intros [k' v'] Hin. cbn [fst snd].
    f_equal. f_equal.
    assert (Hne : k' <> k).
    { intros ->. apply Hnotin. apply (in_map fst) in Hin. exact Hin. }
    unfold list_mem. rewrite existsb_app. cbn [existsb].
    destruct (String.eqb_spec k' k); [contradiction |].
    rewrite !orb_false_r. reflexivity.
Qed.

(** One address handled: its sections are appended, the empty ones
    first, when the order holds no section of that address yet. *)
Lemma sections_at_appended (sortaddr : Z) (order : list string) :
  (forall n, In n order -> ~ In (n, sortaddr) (section_addr po)) ->
  add_other_sections po sortaddr (add_empty_sections po sortaddr order)
  = order ++ sections_at po sortaddr.
Proof.
  intros Hfresh. unfold add_other_sections.
  rewrite (add_other_sections_eq sortaddr (section_addr po) addr_wf).
  rewrite add_empty_sections_eq, <- app_assoc. unfold sections_at.
  f_equal. f_equal. f_equal.
  apply filter_ext_in. intros [k v] Hin. cbn [fst snd].
  destruct (Z.eqb_spec v sortaddr) as [->|]; cbn [andb]; [| reflexivity].
  f_equal.
  destruct (sized_below_one po k) eqn:Hs.
  - apply list_mem_In. apply in_or_app. right.
    apply in_map_iff. exists (k, sortaddr). split; [reflexivity |].
    apply filter_In. split; [exact Hin |].
    cbn [fst snd]. rewrite Z.eqb_refl, Hs. reflexivity.
  - destruct (list_mem k _) eqn:Hmem; [| reflexivity].
    exfalso. apply list_mem_In in Hmem. apply in_app_or in Hmem.
    destruct Hmem as [Hold|Hnew].
    + exact (Hfresh k Hold Hin).
    + apply in_map_iff in Hnew. destruct Hnew as ([k' v'] & Hk & Hf).
      cbn [fst] in Hk. subst k'.
      apply filter_In in Hf. destruct Hf as [_ Hf]. cbn [fst snd] in Hf.
      rewrite Hs, andb_false_r in Hf. discriminate.
Qed.

Lemma sections_at_In (sortaddr : Z) (n : string) :
  In n (sections_at po sortaddr) <-> In (n, sortaddr) (section_addr po).
Proof.
  unfold sections_at. rewrite in_app_iff, !in_map_iff. split.
  - intros [([k v] & Hk & Hf)|([k v] & Hk & Hf)];
      cbn [fst] in Hk; subst k; apply filter_In in Hf;
      destruct Hf as [Hin Hf]; cbn [fst snd] in Hf;
      apply andb_prop in Hf; destruct Hf as [Hv _];
      apply Z.eqb_eq in Hv; subst v; exact Hin.
  - intros Hin. destruct (sized_below_one po n) eqn:Hs; [left | right];
      exists (n, sortaddr); (split; [reflexivity |]);
      apply filter_In; (split; [exact Hin |]); cbn [fst snd];
      rewrite Z.eqb_refl, Hs; reflexivity.
Qed.

(** The loop over sorted addresses appends, address by address, the
    sections within the limit. *)
Lemma order_from_closed (addrspace_limit : Z) (addrs : list Z) :
  StronglySorted Z.lt addrs ->
  forall order,
  (forall n a, In n order -> In a addrs ->
     ~ In (n, a) (section_addr po)) ->
  exists ws,
    order_from po addrspace_limit addrs order
    = (ws, Ok (order
               ++ flat_map (sections_at po)
                    (filter (fun a => a <=? addrspace_limit) addrs))).
Proof.
  induction 1 as [|a addrs Hs IH Hall]; intros order Hfresh; simpl.
  - exists []. rewrite app_nil_r. reflexivity.
  - destruct (Z.gtb_spec a addrspace_limit) as [Hgt|Hle].
    + exists [Warn_beyond_limit a].
      destruct (Z.leb_spec a addrspace_limit); [lia |].
      replace (filter (fun a0 => a0 <=? addrspace_limit) addrs) with
        (@nil Z); [rewrite app_nil_r; reflexivity |].
      symmetry. clear IH Hs Hfresh. induction addrs as [|b addrs IHa];
        [reflexivity |].
      inversion Hall as [|? ? Hb Hall']; subst. simpl.
      destruct (Z.leb_spec b addrspace_limit); [lia |]. apply IHa.
      exact Hall'.
    + destruct (Z.leb_spec a addrspace_limit); [| lia].
      rewrite sections_at_appended
        by (intros n Hn; apply (Hfresh n a Hn); left; reflexivity).
      destruct (IH (order ++ sections_at po a)) as (ws & Heq).
      { intros n a' Hn Ha'. apply in_app_or in Hn.
        destruct Hn as [Hn|Hn].
        - apply (Hfresh n a' Hn). right. exact Ha'.
        - apply sections_at_In in Hn. intros Hin'.
          pose proof (item_address_unique _ _ _ Hn Hin') as ->.
          rewrite Forall_forall in Hall. specialize (Hall _ Ha'). lia. }
      exists ws. rewrite Heq. cbn [flat_map]. rewrite app_assoc.
      reflexivity.
Qed.
End ClosedOrder.

(** The order of sections in closed form: for each address within the
    limit, ascending, the sections placed there, those with a size below
    one first. *)
Lemma get_sections_order_closed (po : Options) (addrspace_limit : Z) :
  dict_wf (section_addr po) ->
  exists ws,
    armfw_bin2elf_get_sections_order po addrspace_limit
    = (ws, Ok (sections_within po addrspace_limit)).
Proof.
  intros Hwf. unfold armfw_bin2elf_get_sections_order, sections_within.
  destruct (order_from_closed po Hwf addrspace_limit
              (sorted_set (map snd (section_addr po)))
              (sorted_set_sorted _) []) as (ws & Heq).
  { intros n a []. }
  exists ws. exact Heq.
Qed.

Lemma StronglySorted_filter {A} (R : A -> A -> Prop) (f : A -> bool)
    (l : list A) :
  StronglySorted R l -> StronglySorted R (filter f l).
Proof.
  induction 1 as [|a l Hs IH Hall]; simpl; [constructor |].
  destruct (f a); [| exact IH].
  constructor; [exact IH |].
  rewrite Forall_forall in *. intros x Hx. apply filter_In in Hx.
  apply Hall. tauto.
Qed.

Lemma StronglySorted_app {A} (R : A -> A -> Prop) (l1 l2 : list A) :
  StronglySorted R l1 -> StronglySorted R l2 ->
  (forall x y, In x l1 -> In y l2 -> R x y) ->
  StronglySorted R (l1 ++ l2).
Proof.
  induction 1 as [|a l1 Hs IH Hall]; intros H2 Hcross; simpl;
    [exact H2 |].
  constructor.
  - apply IH; [exact H2 |]. intros x y Hx Hy. apply Hcross; [right |];
      assumption.
  - rewrite Forall_forall in *. intros x Hx. apply in_app_or in Hx.
    destruct Hx as [Hx|Hx]; [exact (Hall x Hx) |].
    apply Hcross; [left; reflexivity | exact Hx].
Qed.

Lemma all_pairs_StronglySorted {A} (R : A -> A -> Prop) (l : list A) :
  (forall x y, In x l -> In y l -> R x y) -> StronglySorted R l.
Proof.
  induction l as [|a l IH]; intros Hall; constructor.
  - apply IH. intros x y Hx Hy. apply Hall; right; assumption.
  - rewrite Forall_forall. intros x Hx.
    apply Hall; [left; reflexivity | right; exact Hx].
Qed.

Lemma StronglySorted_lt_NoDup (l : list Z) :
  StronglySorted Z.lt l -> NoDup l.
Proof.
  induction 1 as [|a l Hs IH Hall]; constructor; [| exact IH].
  intros Hin. rewrite Forall_forall in Hall. specialize (Hall a Hin). lia.
Qed.

Lemma NoDup_map_fst_filter (f : string * Z -> bool) (items : dict) :
  NoDup (map fst items) -> NoDup (map fst (filter f items)).
Proof.
  induction items as [|[k v] items IH]; simpl; intros Hnd; [constructor |].
  inversion Hnd as [|? ? Hnotin Hnd']; subst.
  destruct (f (k, v)); [| exact (IH Hnd')].
  simpl. constructor; [| exact (IH Hnd')].
  intros Hin. apply Hnotin. apply in_map_iff in Hin.
  destruct Hin as (it & Hk & Hf). apply filter_In in Hf.
  rewrite <- Hk. apply in_map. tauto.
Qed.

Section OrderProperties.
Variables (po : Options) (addrspace_limit : Z).
Hypothesis addr_wf : dict_wf (section_addr po).

Lemma sections_at_addr (sortaddr : Z) (n : string) :
  In n (sections_at po sortaddr) -> addr_of po n = sortaddr.
Proof.
  intros Hn. apply (sections_at_In po) in Hn.
  apply (dict_wf_In_get _ _ _ addr_wf) in Hn.
  unfold addr_of. rewrite Hn. reflexivity.
Qed.

Lemma sections_at_NoDup (sortaddr : Z) : NoDup (sections_at po sortaddr).
Proof.
  unfold sections_at. apply NoDup_app.
  - apply NoDup_map_fst_filter. exact addr_wf.
  - apply NoDup_map_fst_filter. exact addr_wf.
  - intros n H1 H2. apply in_map_iff in H1, H2.
    destruct H1 as ([k1 v1] & Hk1 & Hf1), H2 as ([k2 v2] & Hk2 & Hf2).
    cbn [fst] in *. subst k1 k2.
    apply filter_In in Hf1, Hf2. cbn [fst snd] in *.
    destruct Hf1 as [_ Hf1], Hf2 as [_ Hf2].
    apply andb_prop in Hf1, Hf2.
    destruct Hf1 as [_ Hf1], Hf2 as [_ Hf2].
    rewrite Hf1 in Hf2. discriminate.
Qed.

Lemma sections_at_sorted (sortaddr : Z) :
  StronglySorted (may_precede po) (sections_at po sortaddr).
Proof.
  assert (Hsized : forall f n,
            In n (map fst
                    (filter (fun item : string * Z =>
                               (snd item =? sortaddr) && f (fst item))
                       (section_addr po))) ->
            f n = true /\ In (n, sortaddr) (section_addr po)).
  { intros f n Hn. apply in_map_iff in Hn.
    destruct Hn as ([k v] & Hk & Hf). cbn [fst] in Hk. subst k.
    apply filter_In in Hf. destruct Hf as [Hin Hf]. cbn [fst snd] in Hf.
    apply andb_prop in Hf. destruct Hf as [Hv Hf].
    apply Z.eqb_eq in Hv. subst v. auto. }
  assert (Haddr : forall n, In (n, sortaddr) (section_addr po) ->
                    addr_of po n = sortaddr).
  { intros n Hn. apply (dict_wf_In_get _ _ _ addr_wf) in Hn.
    unfold addr_of. rewrite Hn. reflexivity. }
  unfold sections_at. apply StronglySorted_app.
  - apply all_pairs_StronglySorted. intros x y Hx Hy.
    apply (Hsized (sized_below_one po)) in Hx, Hy.
    right. rewrite (Haddr x), (Haddr y) by tauto. tauto.
  - apply all_pairs_StronglySorted. intros x y Hx Hy.
    apply (Hsized (fun n => negb (sized_below_one po n))) in Hx, Hy.
    right. rewrite (Haddr x), (Haddr y) by tauto.
    split; [reflexivity |]. intros Hs. destruct Hy as [Hy _].
    rewrite Hs in Hy. discriminate.
  - intros x y Hx Hy.
    apply (Hsized (sized_below_one po)) in Hx.
    apply (Hsized (fun n => negb (sized_below_one po n))) in Hy.
    right. rewrite (Haddr x), (Haddr y) by tauto. tauto.
Qed.

Lemma sections_within_In (n : string) :
  In n (sections_within po addrspace_limit) <->
  exists a, dict_get (section_addr po) n = Some a /\ a <= addrspace_limit.
Proof.
  unfold sections_within. rewrite in_flat_map. split.
  - intros (a & Ha & Hn). apply filter_In in Ha. destruct Ha as [_ Ha].
    apply Z.leb_le in Ha. apply (sections_at_In po) in Hn.
    exists a. split; [exact (dict_wf_In_get _ _ _ addr_wf Hn) | exact Ha].
  - intros (a & Hget & Ha). exists a. apply dict_get_In in Hget. split.
    + apply filter_In. split; [| apply Z.leb_le; exact Ha].
      apply sorted_set_In. apply (in_map snd) in Hget. exact Hget.
    + apply (sections_at_In po). exact Hget.
Qed.

Lemma flat_sections_NoDup (addrs : list Z) :
  NoDup addrs -> NoDup (flat_map (sections_at po) addrs).
Proof.
  induction 1 as [|a addrs Hnotin Hnd IH]; simpl; [constructor |].
  apply NoDup_app; [apply sections_at_NoDup | exact IH |].
  intros n Hn Hn'. apply in_flat_map in Hn'.
  destruct Hn' as (a' & Ha' & Hn').
  apply sections_at_addr in Hn, Hn'. congruence.
Qed.

Lemma flat_sections_sorted (addrs : list Z) :
  StronglySorted Z.lt addrs ->
  StronglySorted (may_precede po) (flat_map (sections_at po) addrs).
Proof.
  induction 1 as [|a addrs Hs IH Hall]; simpl; [constructor |].
  apply StronglySorted_app; [apply sections_at_sorted | exact IH |].
  intros x y Hx Hy. apply in_flat_map in Hy.
  destruct Hy as (a' & Ha' & Hy).
  apply sections_at_addr in Hx, Hy.
  rewrite Forall_forall in Hall. specialize (Hall a' Ha').
  left. lia.
Qed.
End OrderProperties.

(** X15: The order lists every section whose address is within the limit, each
    once, and no other section; the function never raises. *)
Theorem get_sections_order_lists_each_once (po : Options)
    (addrspace_limit : Z) :
  dict_wf (section_addr po) ->
  exists ws order,
    armfw_bin2elf_get_sections_order po addrspace_limit = (ws, Ok order) /\
    NoDup order /\
    (forall n,
       In n order <->
       exists a,
         dict_get (section_addr po) n = Some a /\ a <= addrspace_limit).
Proof.
  intros Hwf.
  destruct (get_sections_order_closed po addrspace_limit Hwf) as (ws & Heq).
  exists ws, (sections_within po addrspace_limit).
  split; [exact Heq |]. split.
  - apply flat_sections_NoDup; [exact Hwf |].
    apply NoDup_filter, StronglySorted_lt_NoDup, sorted_set_sorted.
  - apply sections_within_In. exact Hwf.
Qed.

Lemma get_sections_order_lists_each_once_witness :
  exists ws order,
    armfw_bin2elf_get_sections_order po_far_section (2 ^ 32 - 1)
      = (ws, Ok order) /\
    NoDup order /\
    (forall n,
       In n order <->
       exists a,
         dict_get (section_addr po_far_section) n = Some a /\
         a <= 2 ^ 32 - 1).
Proof.
  apply (get_sections_order_lists_each_once po_far_section (2 ^ 32 - 1)).
  unfold dict_wf. vm_compute.
  repeat (constructor; [simpl; intuition discriminate |]). constructor.
Defined.

(** X16: Along the order the addresses never decrease, and among the sections
    of one address those with a size below one come before the others. *)
Theorem get_sections_order_sorted (po : Options) (addrspace_limit : Z)
    (ws : list warning) (order : list string) :
  dict_wf (section_addr po) ->
  armfw_bin2elf_get_sections_order po addrspace_limit = (ws, Ok order) ->
  StronglySorted (may_precede po) order.
Proof.
  intros Hwf Hrun.
  destruct (get_sections_order_closed po addrspace_limit Hwf) as (ws' & Heq).
  rewrite Heq in Hrun. injection Hrun as _ <-.
  apply flat_sections_sorted; [exact Hwf |].
  apply StronglySorted_filter, sorted_set_sorted.
Qed.

Lemma get_sections_order_sorted_witness :
  StronglySorted (may_precede po_far_section)
    [".text"; ".ARM.exidx"; ".zero"; ".data"; ".bss"].
Proof.
  apply (get_sections_order_sorted po_far_section (2 ^ 32 - 1)
           [Warn_beyond_limit 0x100000000]).
  - unfold dict_wf. vm_compute.
    repeat (constructor; [simpl; intuition discriminate |]). constructor.
  - vm_compute. reflexivity.
Defined.

(** ** LayoutReconciler: sizes, alignments and positions of the order *)

Lemma budgets_split (po : Options) (addrspace_limit : Z)
    (l1 l2 : list string) (x : string) :
  In (x, budget po addrspace_limit x l2)
    (budgets po addrspace_limit (l1 ++ x :: l2)).
Proof.
  induction l1 as [|a l1 IH]; simpl; [left; reflexivity | right; exact IH].
Qed.

Lemma settled_size_le (explicit : option Z) (b : Z) :
  settled_size explicit b <= b.
Proof.
  unfold settled_size. destruct explicit as [size|]; [| lia].
  destruct (Z.gtb_spec size b); lia.
Qed.

(** X17: After the pass no section of the order runs into the next one: its
    end is at most the address of the section that follows it in the
    order, for the last one at most [baseaddr + addrspacelen + 1], and
    never beyond [addrspace_limit + 1 - expect_sect_align]. *)
Theorem update_sect_sizes_no_overlap (po po' : Options)
    (sections_order : list string) (addrspace_limit : Z)
    (ws : list warning) :
  NoDup sections_order ->
  (forall n, In n sections_order ->
     dict_get (section_addr po) n <> None) ->
  armfw_bin2elf_update_sect_sizes po sections_order addrspace_limit
    = (ws, Ok po') ->
  forall lower x higher,
    sections_order = lower ++ x :: higher ->
    exists size,
      dict_get (section_size po') x = Some size /\
      addr_of po x + size <= next_addr po higher /\
      addr_of po x + size
      <= addrspace_limit + 1 - expect_sect_align po.
Proof.
  intros Hnd Haddr Hrun lower x higher Hsplit.
  destruct (Forall_Exists_dec (fun p : string * Z => 0 <= snd p)
              (fun p => Z_le_dec 0 (snd p))
              (budgets po addrspace_limit sections_order)) as [Hall|Hex].
  - rewrite Forall_forall in Hall.
    assert (Hbud : forall n b,
              In (n, b) (budgets po addrspace_limit sections_order) ->
              0 <= b) by (intros n b Hn; exact (Hall _ Hn)).
    destruct (update_sect_sizes_ok po sections_order addrspace_limit
                Hnd Haddr Hbud) as (po1 & Heq & _ & Hset & _).
    rewrite Heq in Hrun. injection Hrun as _ <-.
    pose proof (budgets_split po addrspace_limit lower higher x) as Hin.
    rewrite <- Hsplit in Hin.
    exists (settled_size (dict_get (section_size po) x)
              (budget po addrspace_limit x higher)).
    split; [exact (Hset _ _ Hin) |].
    pose proof (settled_size_le (dict_get (section_size po) x)
                  (budget po addrspace_limit x higher)) as Hle.
    unfold budget in *. split; lia.
  - rewrite Exists_exists in Hex. destruct Hex as ([n b] & Hn & Hb).
    simpl in Hb.
    destruct (update_sect_sizes_negative_budget po sections_order
                addrspace_limit Hnd Haddr) as (ws1 & msg & Heq).
    { exists n, b. split; [exact Hn | lia]. }
    rewrite Heq in Hrun. discriminate.
Qed.

Lemma update_sect_sizes_no_overlap_witness :
  exists size,
    dict_get
      (section_size
         (set_section_size po_extra_bss
            [(".ARM.exidx", 0x20); (".text", 0x1000); (".data", 0xFE0);
             (".bss", 0x17FE000); (".bss2", 0x800001)])) ".bss"
    = Some size /\
    addr_of po_extra_bss ".bss" + size
    <= next_addr po_extra_bss [".bss2"] /\
    addr_of po_extra_bss ".bss" + size
    <= 2 ^ 32 - 1 + 1 - expect_sect_align po_extra_bss.
Proof.
  apply (update_sect_sizes_no_overlap po_extra_bss
           (set_section_size po_extra_bss
              [(".ARM.exidx", 0x20); (".text", 0x1000); (".data", 0xFE0);
               (".bss", 0x17FE000); (".bss2", 0x800001)])
           [".text"; ".ARM.exidx"; ".data"; ".bss"; ".bss2"] (2 ^ 32 - 1)
           [Warn_size_reduced ".bss" 0x17FE000]
           ltac:(repeat (constructor; [simpl; intuition discriminate |]);
                 constructor)
           ltac:(intros n Hn; simpl in Hn;
                 repeat (destruct Hn as [<-|Hn]; [discriminate |]);
                 destruct Hn)
           ltac:(vm_compute; reflexivity)
           [".text"; ".ARM.exidx"; ".data"] ".bss" [".bss2"]).
  reflexivity.
Defined.

Lemma halve_until_divides_positive (x : Z) :
  forall a, 1 <= a ->
  exists r, halve_until_divides x a = Ok r /\ 1 <= r <= a /\ (r | x).
Proof.
  intros a Ha.
  assert (Hgen : forall n : nat, forall a, 1 <= a -> Z.to_nat a = n ->
            exists r,
              halve_until_divides x a = Ok r /\ 1 <= r <= a /\ (r | x)).
  { induction n as [n IH] using lt_wf_ind. intros b Hb Hn.
    rewrite halve_until_divides_step.
    destruct (Z.eqb_spec b 0); [lia |].
    destruct (Z.eqb_spec (x mod b) 0) as [Hm|Hm].
    - exists b. split; [reflexivity |]. split; [lia |].
      apply Z.mod_divide; [lia | exact Hm].
    - assert (b <> 1) by (intros ->; apply Hm, Z.mod_1_r).
      assert (Hh : Z.shiftr b 1 = b / 2)
        by (rewrite Z.shiftr_div_pow2 by lia; reflexivity).
      pose proof (Z.div_mod b 2 ltac:(lia)).
      pose proof (Z.mod_pos_bound b 2 ltac:(lia)).
      destruct (IH (Z.to_nat (Z.shiftr b 1)) ltac:(lia) (Z.shiftr b 1)
                  ltac:(lia) eq_refl) as (r & Hr & Hrange & Hdiv).
      exists r. split; [exact Hr |]. split; [lia | exact Hdiv]. }
  exact (Hgen (Z.to_nat a) a Ha eq_refl).
Qed.

(** X18: Whatever the expected alignment, as long as it is positive: the
    halving ends, and the alignment inferred for a section lies between 1
    and twice the expected alignment and divides the size of the
    section. *)
Theorem section_align_bounds (po : Options) (sectname : string)
    (addr size : Z) :
  1 <= expect_sect_align po ->
  dict_get (section_addr po) sectname = Some addr ->
  dict_get (section_size po) sectname = Some size ->
  exists sect_align,
    section_align po sectname = Ok sect_align /\
    1 <= sect_align <= 2 * expect_sect_align po /\
    (sect_align | size).
Proof.
  intros HE Haddr Hsize.
  unfold section_align, dict_lookup. rewrite Haddr, Hsize. cbn [obind].
  assert (Hs : Z.shiftl (expect_sect_align po) 1
               = 2 * expect_sect_align po)
    by (rewrite Z.shiftl_mul_pow2 by lia; change (2 ^ 1) with 2; lia).
  rewrite Hs.
  destruct (halve_until_divides_positive addr (2 * expect_sect_align po)
              ltac:(lia)) as (r1 & Hr1 & Hrange1 & _).
  rewrite Hr1. cbn [obind].
  destruct (halve_until_divides_positive size r1 ltac:(lia))
    as (r2 & Hr2 & Hrange2 & Hdiv2).
  rewrite Hr2. cbn [obind].
  exists r2. split; [reflexivity |]. split; [lia | exact Hdiv2].
Qed.

Lemma section_align_bounds_witness :
  exists sect_align,
    section_align po_far_section ".data" = Ok sect_align /\
    1 <= sect_align <= 2 * expect_sect_align po_far_section /\
    (sect_align | 0x2000).
Proof.
  apply (section_align_bounds po_far_section ".data" 0x1001020 0x2000);
    [vm_compute; discriminate | reflexivity | reflexivity].
Defined.

(** X19: An expected alignment of zero makes the inference divide by zero. *)
Theorem section_align_zero (po : Options) (sectname : string) (addr : Z) :
  expect_sect_align po = 0 ->
  dict_get (section_addr po) sectname = Some addr ->
  section_align po sectname = Raise ZeroDivisionError.
Proof.
  intros HE Haddr. unfold section_align, dict_lookup.
  rewrite Haddr, HE. cbn [obind].
  rewrite halve_until_divides_step. reflexivity.
Qed.

Lemma section_align_zero_witness :
  section_align po_no_alignment ".text" = Raise ZeroDivisionError.
Proof.
  apply (section_align_zero po_no_alignment ".text" 0x1000000);
    reflexivity.
Defined.

Lemma get_sections_pos_from_spec (po : Options)
    (sections_order : list string) :
  (forall n, In n sections_order ->
     dict_get (section_addr po) n <> None) ->
  forall acc, exists d,
    get_sections_pos_from po sections_order acc = Ok d /\
    (forall n, In n sections_order ->
       dict_get d n = Some (Z.max 0 (addr_of po n - baseaddr po))) /\
    (forall n, ~ In n sections_order -> dict_get d n = dict_get acc n).
Proof.
  induction sections_order as [|s order IH]; intros Haddr acc; simpl.
  - exists acc. repeat split; auto. intros n [].
  - unfold dict_lookup.
    destruct (dict_get (section_addr po) s) as [addr|] eqn:Hs;
      [| exfalso; apply (Haddr s); [left; reflexivity | exact Hs]].
    cbn [obind].
    destruct (IH (fun n Hn => Haddr n (or_intror Hn))
                (dict_set acc s
                   (if addr - baseaddr po <? 0 then 0
                    else addr - baseaddr po)))
      as (d & Hrun & Hin & Hout).
    exists d. split; [exact Hrun |]. split.
    + intros n [<-|Hn]; [| exact (Hin n Hn)].
      destruct (in_dec string_dec s order) as [Hso|Hso];
        [exact (Hin s Hso) |].
      rewrite (Hout s Hso), dict_get_set_same. f_equal.
      unfold addr_of. rewrite Hs.
      destruct (Z.ltb_spec (addr - baseaddr po) 0); lia.
    + intros n Hn. rewrite Hout by tauto.
      apply dict_get_set_other. intros ->. apply Hn. left. reflexivity.
Qed.

(** X20: The file position of every section of the order is its distance from
    the base address, or zero for a section below the base address; the
    table holds nothing else. *)
Theorem get_sections_pos_spec (po : Options) (sections_order : list string) :
  (forall n, In n sections_order ->
     dict_get (section_addr po) n <> None) ->
  exists sections_pos,
    armfw_bin2elf_get_sections_pos po sections_order = Ok sections_pos /\
    (forall n, In n sections_order ->
       dict_get sections_pos n
       = Some (Z.max 0 (addr_of po n - baseaddr po))) /\
    (forall n, ~ In n sections_order -> dict_get sections_pos n = None).
Proof.
  intros Haddr. unfold armfw_bin2elf_get_sections_pos.
  destruct (get_sections_pos_from_spec po sections_order Haddr [])
    as (d & Hrun & Hin & Hout).
  exists d. split; [exact Hrun |]. split; [exact Hin |].
  intros n Hn. rewrite (Hout n Hn). reflexivity.
Qed.

Lemma get_sections_pos_spec_witness :
  exists sections_pos,
    armfw_bin2elf_get_sections_pos po_far_section
      [".text"; ".ARM.exidx"; ".zero"; ".data"; ".bss"] = Ok sections_pos /\
    (forall n, In n [".text"; ".ARM.exidx"; ".zero"; ".data"; ".bss"] ->
       dict_get sections_pos n
       = Some (Z.max 0 (addr_of po_far_section n
                        - baseaddr po_far_section))) /\
    (forall n, ~ In n [".text"; ".ARM.exidx"; ".zero"; ".data"; ".bss"] ->
       dict_get sections_pos n = None).
Proof.
  apply (get_sections_pos_spec po_far_section
           [".text"; ".ARM.exidx"; ".zero"; ".data"; ".bss"]).
  intros n Hn. simpl in Hn.
  repeat (destruct Hn as [<-|Hn]; [discriminate |]). destruct Hn.
Defined.

(** ** The conversion, up to the layout *)

Lemma update_sect_sizes_shape (po po' : Options)
    (sections_order : list string) (addrspace_limit : Z)
    (ws : list warning) :
  armfw_bin2elf_update_sect_sizes po sections_order addrspace_limit
    = (ws, Ok po') ->
  exists sizes, po' = set_section_size po sizes.
Proof.
  unfold armfw_bin2elf_update_sect_sizes, mbind, ret.
  destruct (mfold _ _ _) as [w [st| |]]; try discriminate.
  intros [= _ <-]. exists (fst st). reflexivity.
Qed.

Lemma update_sect_sizes_sizes (po po' : Options)
    (sections_order : list string) (addrspace_limit : Z)
    (ws : list warning) :
  NoDup sections_order ->
  (forall n, In n sections_order ->
     dict_get (section_addr po) n <> None) ->
  armfw_bin2elf_update_sect_sizes po sections_order addrspace_limit
    = (ws, Ok po') ->
  forall lower x higher,
    sections_order = lower ++ x :: higher ->
    dict_get (section_size po') x
    = Some (settled_size (dict_get (section_size po) x)
              (budget po addrspace_limit x higher)).
Proof.
  intros Hnd Haddr Hrun lower x higher Hsplit.
  destruct (Forall_Exists_dec (fun p : string * Z => 0 <= snd p)
              (fun p => Z_le_dec 0 (snd p))
              (budgets po addrspace_limit sections_order)) as [Hall|Hex].
  - rewrite Forall_forall in Hall.
    assert (Hbud : forall n b,
              In (n, b) (budgets po addrspace_limit sections_order) ->
              0 <= b) by (intros n b Hn; exact (Hall _ Hn)).
    destruct (update_sect_sizes_ok po sections_order addrspace_limit
                Hnd Haddr Hbud) as (po1 & Heq & _ & Hset & _).
    rewrite Heq in Hrun. injection Hrun as _ <-.
    pose proof (budgets_split po addrspace_limit lower higher x) as Hin.
    rewrite <- Hsplit in Hin. exact (Hset _ _ Hin).
  - rewrite Exists_exists in Hex. destruct Hex as ([n b] & Hn & Hb).
    simpl in Hb.
    destruct (update_sect_sizes_negative_budget po sections_order
                addrspace_limit Hnd Haddr) as (ws1 & msg & Heq).
    { exists n, b. split; [exact Hn | lia]. }
    rewrite Heq in Hrun. discriminate.
Qed.

Lemma get_sections_align_from_inv (po : Options) (order : list string) :
  forall acc aligns,
  get_sections_align_from po order acc = Ok aligns ->
  forall n, In n order -> exists a, section_align po n = Ok a.
Proof.
  induction order as [|s order IH]; intros acc aligns Hrun n Hn;
    [destruct Hn |].
  simpl in Hrun.
  destruct (section_align po s) as [a| |] eqn:Hs; try discriminate.
  cbn [obind] in Hrun.
  destruct Hn as [<-|Hn]; [exists a; exact Hs |].
  exact (IH _ _ Hrun n Hn).
Qed.

(** X21: Whenever the conversion gets as far as the layout: every address given
    by hand is in it unchanged; the order lists each section placed within
    the 32-bit address space once; no section of the order runs into the
    next one, or beyond the address space less one alignment unit; and
    the tables of file positions and alignments have an entry for every
    section of the order. *)
Theorem layout_sections_do_not_overlap (fuel : nat) (po : Options)
    (img : image) (ws : list warning) (lay : layout) :
  dict_wf (section_addr po) ->
  armfw_bin2elf_layout fuel po img = (ws, Ok lay) ->
  (forall n a, dict_get (section_addr po) n = Some a ->
     dict_get (section_addr (lay_po lay)) n = Some a) /\
  NoDup (lay_order lay) /\
  (forall n,
     In n (lay_order lay) <->
     exists a,
       dict_get (section_addr (lay_po lay)) n = Some a /\ a <= 2 ^ 32 - 1) /\
  (forall lower x higher,
     lay_order lay = lower ++ x :: higher ->
     exists size,
       dict_get (section_size (lay_po lay)) x = Some size /\
       addr_of (lay_po lay) x + size <= next_addr (lay_po lay) higher /\
       addr_of (lay_po lay) x + size
       <= 2 ^ 32 - expect_sect_align (lay_po lay)) /\
  (forall n, In n (lay_order lay) ->
     dict_get (lay_pos lay) n
     = Some (Z.max 0 (addr_of (lay_po lay) n - baseaddr (lay_po lay))) /\
     exists sect_align,
       dict_get (lay_align lay) n = Some sect_align /\
       section_align (lay_po lay) n = Ok sect_align).
Proof.
  intros Hwf. unfold armfw_bin2elf_layout.
  unfold mbind at 1.
  destruct (armfw_bin2elf_settle fuel po img) as [w1 [po1| |]] eqn:H1;
    try discriminate.
  apply settle_extends in H1.
  destruct H1 as (Eb & El & _ & Ea & _ & _ & Haddr & _ & Hwf1 & _).
  specialize (Hwf1 Hwf).
  destruct (get_sections_order_closed po1 (2 ^ 32 - 1) Hwf1) as (w2 & H2).
  rewrite H2. unfold mbind at 1.
  set (order := sections_within po1 (2 ^ 32 - 1)) in *.
  assert (Hnd : NoDup order).
  { apply flat_sections_NoDup; [exact Hwf1 |].
    apply NoDup_filter, StronglySorted_lt_NoDup, sorted_set_sorted. }
  assert (Hin : forall n,
            In n order <->
            exists a, dict_get (section_addr po1) n = Some a
                      /\ a <= 2 ^ 32 - 1)
    by (intros n; apply sections_within_In; exact Hwf1).
  assert (Hhas : forall n, In n order ->
                   dict_get (section_addr po1) n <> None).
  { intros n Hn. apply Hin in Hn. destruct Hn as (a & -> & _).
    discriminate. }
  unfold mbind at 1.
  destruct (armfw_bin2elf_update_sect_sizes po1 order (2 ^ 32 - 1))
    as [w3 [po2| |]] eqn:H3; try discriminate.
  destruct (update_sect_sizes_shape _ _ _ _ _ H3) as (sizes & Hpo2).
  pose proof (update_sect_sizes_sizes _ _ _ _ _ Hnd Hhas H3) as Hsizes.
  assert (Haddr2 : section_addr po2 = section_addr po1)
    by (rewrite Hpo2; reflexivity).
  assert (Hb2 : baseaddr po2 = baseaddr po1) by (rewrite Hpo2; reflexivity).
  assert (Hl2 : addrspacelen po2 = addrspacelen po1)
    by (rewrite Hpo2; reflexivity).
  assert (Ha2 : expect_sect_align po2 = expect_sect_align po1)
    by (rewrite Hpo2; reflexivity).
  clear Hpo2 sizes.
  unfold mbind, lift, ret.
  destruct (armfw_bin2elf_get_sections_align po2 order)
    as [aligns| |] eqn:H4; try discriminate.
  assert (Hhas2 : forall n, In n order ->
                    dict_get (section_addr po2) n <> None)
    by (rewrite Haddr2; exact Hhas).
  destruct (get_sections_pos_from_spec po2 order Hhas2 [])
    as (d & H5 & Hpos & _).
  unfold armfw_bin2elf_get_sections_pos. rewrite H5.
  intros [= _ <-]. cbn [lay_po lay_order lay_align lay_pos].
  split; [intros n a Hn; rewrite Haddr2; exact (Haddr n a Hn) |].
  split; [exact Hnd |].
  split; [intros n; rewrite Haddr2; exact (Hin n) |].
  split.
  - intros lower x higher Hsplit.
    rewrite (Hsizes lower x higher Hsplit).
    eexists. split; [reflexivity |].
    pose proof (settled_size_le (dict_get (section_size po1) x)
                  (budget po1 (2 ^ 32 - 1) x higher)) as Hle.
    assert (Hao : forall n, addr_of po2 n = addr_of po1 n)
      by (intros n; unfold addr_of; rewrite Haddr2; reflexivity).
    assert (Hna : next_addr po2 higher = next_addr po1 higher)
      by (unfold next_addr; destruct higher; [lia | apply Hao]).
    rewrite Hao, Hna, Ha2. unfold budget in *. split; lia.
  - intros n Hn. split; [exact (Hpos n Hn) |].
    unfold armfw_bin2elf_get_sections_align in H4.
    destruct (get_sections_align_from_spec po2 order
                (get_sections_align_from_inv po2 order [] aligns H4) [])
      as (aligns' & Hrun & Hal & _).
    rewrite H4 in Hrun. injection Hrun as <-.
    destruct (Hal n Hn) as (a & Hsa & Hget).
    exists a. split; assumption.
Qed.

Lemma layout_sections_do_not_overlap_witness :
  (forall n a, dict_get (section_addr po_default) n = Some a ->
     dict_get (section_addr (lay_po lay_two_runs)) n = Some a) /\
  NoDup (lay_order lay_two_runs) /\
  (forall n,
     In n (lay_order lay_two_runs) <->
     exists a,
       dict_get (section_addr (lay_po lay_two_runs)) n = Some a
       /\ a <= 2 ^ 32 - 1) /\
  (forall lower x higher,
     lay_order lay_two_runs = lower ++ x :: higher ->
     exists size,
       dict_get (section_size (lay_po lay_two_runs)) x = Some size /\
       addr_of (lay_po lay_two_runs) x + size
       <= next_addr (lay_po lay_two_runs) higher /\
       addr_of (lay_po lay_two_runs) x + size
       <= 2 ^ 32 - expect_sect_align (lay_po lay_two_runs)) /\
  (forall n, In n (lay_order lay_two_runs) ->
     dict_get (lay_pos lay_two_runs) n
     = Some (Z.max 0 (addr_of (lay_po lay_two_runs) n
                      - baseaddr (lay_po lay_two_runs))) /\
     exists sect_align,
       dict_get (lay_align lay_two_runs) n = Some sect_align /\
       section_align (lay_po lay_two_runs) n = Ok sect_align).
Proof.
  apply (layout_sections_do_not_overlap 100 po_default img_two_runs
           [Warn_multiple_matches 2 0x10] lay_two_runs).
  - unfold dict_wf. vm_compute. constructor.
  - vm_compute. reflexivity.
Defined.

(** ** The template copy *)

Lemma copy_loop_spec (chunk : nat) (dry : bool) :
  (0 < chunk)%nat ->
  forall (fuel : nat) (rest written : list byte) (n : Z),
  (List.length rest < fuel)%nat ->
  copy_loop fuel chunk dry rest written n
  = Ok (if dry then written else written ++ rest,
        n + Z.of_nat (List.length rest)).
Proof.
  intros Hchunk.
  induction fuel as [|fuel IH]; intros rest written n Hlen; [lia |].
  cbn [copy_loop].
  destruct rest as [|b rest].
  - rewrite firstn_nil. cbn [List.length]. rewrite app_nil_r, Z.add_0_r.
    destruct dry; reflexivity.
  - destruct chunk as [|chunk]; [lia |].
    cbn [firstn]. rewrite IH.
    + cbn [skipn List.length]. f_equal. f_equal.
      * destruct dry; [reflexivity |].
        rewrite <- app_assoc. cbn [app].
        rewrite firstn_skipn. reflexivity.
      * rewrite <- (firstn_skipn chunk rest) at 3.
        rewrite length_app. lia.
    + cbn [skipn List.length] in *. rewrite length_skipn. lia.
Qed.

(** X22: The template is copied byte for byte, whatever its length against the
    buffer of one MiB; the count is its length; in a dry run nothing is
    written. *)
Theorem copy_template_is_exact (fuel : nat) (po : Options)
    (template : list byte) :
  (List.length template < fuel)%nat ->
  armfw_bin2elf_copy_template fuel po template
  = Ok (if dry_run po then None else Some template,
        Z.of_nat (List.length template)).
Proof.
  intros Hfuel. unfold armfw_bin2elf_copy_template.
  rewrite copy_loop_spec by (auto; lia).
  cbn [obind app]. destruct (dry_run po); reflexivity.
Qed.

Lemma copy_template_is_exact_witness :
  armfw_bin2elf_copy_template 5 po_default [x01; x02; x03]
  = Ok (if dry_run po_default then None else Some [x01; x02; x03],
        Z.of_nat (List.length [x01; x02; x03])).
Proof.
  apply (copy_template_is_exact 5 po_default [x01; x02; x03]).
  simpl. lia.
Defined.

(** ** The section arguments of the command line *)

Lemma append_nil_r (s : string) : (s ++ EmptyString)%string = s.
Proof. induction s as [|c s IH]; simpl; [reflexivity | rewrite IH; reflexivity]. Qed.

Lemma append_assoc (s1 s2 s3 : string) :
  ((s1 ++ s2) ++ s3)%string = (s1 ++ (s2 ++ s3))%string.
Proof.
  induction s1 as [|c s1 IH]; simpl; [reflexivity | rewrite IH; reflexivity].
Qed.

Lemma length_append (s1 s2 : string) :
  String.length (s1 ++ s2)%string
  = (String.length s1 + String.length s2)%nat.
Proof.
  induction s1 as [|c s1 IH]; simpl; [reflexivity | rewrite IH; reflexivity].
Qed.

Lemma all_chars_append (p : ascii -> bool) (s1 s2 : string) :
  all_chars p (s1 ++ s2)%string = all_chars p s1 && all_chars p s2.
Proof.
  induction s1 as [|c s1 IH]; simpl; [reflexivity |].
  rewrite IH, andb_assoc. reflexivity.
Qed.

(** What the greedy class match splits off. *)
Lemma span_chars_spec (p : ascii -> bool) (s : string) :
  s = (fst (span_chars p s) ++ snd (span_chars p s))%string /\
  all_chars p (fst (span_chars p s)) = true /\
  match snd (span_chars p s) with
  | String c _ => p c = false
  | EmptyString => True
  end.
Proof.
  induction s as [|c s IH]; simpl; [auto |].
  destruct (p c) eqn:Hc.
  - destruct (span_chars p s) as [run rest]. simpl in *.
    destruct IH as (Heq & Hall & Hrest).
    rewrite Hc, Hall, <- Heq. auto.
  - simpl. auto.
Qed.

Lemma span_chars_app (p : ascii -> bool) (run rest : string) :
  all_chars p run = true ->
  match rest with String c _ => p c = false | EmptyString => True end ->
  span_chars p (run ++ rest)%string = (run, rest).
Proof.
  intros Hall Hrest. induction run as [|c run IH]; simpl in *.
  - destruct rest as [|c rest]; [reflexivity |]. simpl.
    rewrite Hrest. reflexivity.
  - apply andb_true_iff in Hall. destruct Hall as [Hc Hall].
    rewrite Hc, (IH Hall). reflexivity.
Qed.

Lemma search_name_none (s : string) :
  search_name s = None
  <-> all_chars (fun c => negb (is_name_char c)) s = true.
Proof.
  induction s as [|c s IH]; simpl; [tauto |].
  destruct (is_name_char c); simpl; [| exact IH].
  destruct (span_chars is_name_char s); split; discriminate.
Qed.

Lemma search_name_some (s name rest : string) :
  search_name s = Some (name, rest) ->
  name <> EmptyString /\ all_chars is_name_char name = true.
Proof.
  induction s as [|c s IH]; simpl; [discriminate |].
  destruct (is_name_char c) eqn:Hc; [| exact IH].
  pose proof (span_chars_spec is_name_char s) as (_ & Hall & _).
  destruct (span_chars is_name_char s) as [run rest']. simpl in Hall.
  intros [= <- <-]. split; [discriminate |].
  simpl. rewrite Hc, Hall. reflexivity.
Qed.

Lemma in_range_spec (lo hi : nat) (c : ascii) :
  in_range lo hi c = true -> (lo <= nat_of_ascii c <= hi)%nat.
Proof.
  unfold in_range. intros H. apply andb_true_iff in H.
  destruct H as [H1 H2]. apply Nat.leb_le in H1, H2. lia.
Qed.

Lemma digit_value_range (c : ascii) (d : Z) :
  digit_value c = Some d -> 0 <= d.
Proof.
  unfold digit_value.
  destruct (in_range 48 57 c) eqn:H1;
    [apply in_range_spec in H1; intros H; injection H as <-; lia |].
  destruct (in_range 65 70 c) eqn:H2;
    [apply in_range_spec in H2; intros H; injection H as <-; lia |].
  destruct (in_range 97 102 c) eqn:H3; [| discriminate].
  apply in_range_spec in H3. intros H. injection H as <-. lia.
Qed.

Lemma digits_value_nonneg (base : Z) (s : string) :
  0 <= base ->
  forall acc v, 0 <= acc -> digits_value base s acc = Some v -> 0 <= v.
Proof.
  intros Hb. induction s as [|c s IH]; intros acc v Hacc; simpl.
  - intros [= <-]. exact Hacc.
  - destruct (digit_value c) as [d|] eqn:Hd; [| discriminate].
    apply digit_value_range in Hd.
    destruct (d <? base); [| discriminate].
    apply IH. nia.
Qed.

Lemma digits_value_app (base : Z) (s1 s2 : string) :
  forall acc,
  digits_value base (s1 ++ s2)%string acc
  = match digits_value base s1 acc with
    | Some v => digits_value base s2 v
    | None => None
    end.
Proof.
  induction s1 as [|c s1 IH]; intros acc; simpl; [reflexivity |].
  destruct (digit_value c) as [d|]; [| reflexivity].
  destruct (d <? base); [apply IH | reflexivity].
Qed.

Lemma int_base0_inv (literal : string) :
  match int_base0 literal with
  | inl e => e = Arg_ValueError literal
  | inr v => 0 <= v
  end.
Proof.
  assert (Hdigits : forall base ds,
            0 <= base ->
            match
              match ds with
              | EmptyString => inl (Arg_ValueError literal)
              | _ => match digits_value base ds 0 with
                     | Some v => inr v
                     | None => inl (Arg_ValueError literal)
                     end
              end
            with
            | inl e => e = Arg_ValueError literal
            | inr v => 0 <= v
            end).
  { intros base ds Hb. destruct ds as [|c ds]; [reflexivity |].
    destruct (digits_value base (String c ds) 0) as [v|] eqn:Hv;
      [| reflexivity].
    exact (digits_value_nonneg base _ Hb 0 v (Z.le_refl 0) Hv). }
  assert (Hdec : forall (guard : Z -> bool),
            match
              match digits_value 10 literal 0 with
              | Some v =>
                  if guard v then inr v else inl (Arg_ValueError literal)
              | None => inl (Arg_ValueError literal)
              end
            with
            | inl e => e = Arg_ValueError literal
            | inr v => 0 <= v
            end).
  { intros guard.
    destruct (digits_value 10 literal 0) as [v|] eqn:Hv; [| reflexivity].
    destruct (guard v); [| reflexivity].
    exact (digits_value_nonneg 10 _ ltac:(lia) 0 v (Z.le_refl 0) Hv). }
  destruct literal as [|c0 rest];
    [exact (Hdec (fun _ => (String.length EmptyString <=? 4300)%nat)) |].
  destruct (Ascii.eqb_spec c0 "0"%char) as [->|Hne].
  - destruct rest as [|c ds];
      [exact (Hdec (fun _ => (String.length "0" <=? 4300)%nat)) |].
    unfold int_base0.
    destruct (Ascii.eqb c "x" || Ascii.eqb c "X");
      [exact (Hdigits 16 ds ltac:(lia)) |].
    destruct (Ascii.eqb c "b" || Ascii.eqb c "B");
      [exact (Hdigits 2 ds ltac:(lia)) |].
    exact (Hdec (fun v => (v =? 0)
                          && (String.length (String "0" (String c ds))
                              <=? 4300)%nat)).
  - assert (Hgen : int_base0 (String c0 rest)
                   = match digits_value 10 (String c0 rest) 0 with
                     | Some v =>
                         if (String.length (String c0 rest) <=? 4300)%nat
                         then inr v
                         else inl (Arg_ValueError (String c0 rest))
                     | None => inl (Arg_ValueError (String c0 rest))
                     end).
    { unfold int_base0.
      destruct c0 as [[] [] [] [] [] [] [] []]; try reflexivity.
      contradiction Hne. reflexivity. }
    rewrite Hgen.
    exact (Hdec (fun _ => (String.length (String c0 rest) <=? 4300)%nat)).
Qed.

Lemma group_entry_inv (name : string) (group : option string) :
  match group_entry name group with
  | inl e => exists literal, e = Arg_ValueError literal
  | inr d => d = [] \/ exists v, 0 <= v /\ d = [(name, v)]
  end.
Proof.
  destruct group as [literal|]; simpl; [| left; reflexivity].
  pose proof (int_base0_inv literal) as H.
  destruct (int_base0 literal) as [e|v].
  - exists literal. exact H.
  - right. exists v. split; [exact H | reflexivity].
Qed.

Lemma parse_section_param_shape (s : string) (sect : section_param) :
  parse_section_param s = inr sect ->
  exists name rest addr len,
    search_name s = Some (name, rest) /\
    group_entry name addr = inr (sp_addr sect) /\
    group_entry name len = inr (sp_len sect).
Proof.
  unfold parse_section_param.
  destruct (search_name s) as [[name rest]|]; [| discriminate].
  destruct (optional_number "@" rest) as [addr rest1].
  destruct (optional_number ":" rest1) as [len rest2].
  destruct (group_entry name addr) as [e|sect_addr] eqn:Ha; [discriminate |].
  destruct (group_entry name len) as [e|sect_len] eqn:Hl; [discriminate |].
  intros [= <-]. exists name, rest, addr, len. auto.
Qed.

(** X23: Whatever the argument: when [parse_section_param] returns, the address
    and the length it holds, if any, are under one and the same name, a
    nonempty word of the class [[0-9A-Za-z._-]], and neither is
    negative. *)
Theorem parse_section_param_values (s : string) (sect : section_param) :
  parse_section_param s = inr sect ->
  exists name,
    name <> EmptyString /\ all_chars is_name_char name = true /\
    (sp_addr sect = [] \/ exists a, 0 <= a /\ sp_addr sect = [(name, a)]) /\
    (sp_len sect = [] \/ exists l, 0 <= l /\ sp_len sect = [(name, l)]).
Proof.
  intros Hrun.
  destruct (parse_section_param_shape s sect Hrun)
    as (name & rest & addr & len & Hname & Ha & Hl).
  destruct (search_name_some s name rest Hname) as [Hne Hall].
  exists name. split; [exact Hne |]. split; [exact Hall |].
  pose proof (group_entry_inv name addr) as Ia. rewrite Ha in Ia.
  pose proof (group_entry_inv name len) as Il. rewrite Hl in Il.
  split; assumption.
Qed.

Lemma parse_section_param_values_witness :
  exists name,
    name <> EmptyString /\ all_chars is_name_char name = true /\
    (sp_addr {| sp_addr := [(".bss2", 0x2800000)];
                sp_len := [(".bss2", 0x40)] |} = [] \/
     exists a, 0 <= a /\
       sp_addr {| sp_addr := [(".bss2", 0x2800000)];
                  sp_len := [(".bss2", 0x40)] |} = [(name, a)]) /\
    (sp_len {| sp_addr := [(".bss2", 0x2800000)];
               sp_len := [(".bss2", 0x40)] |} = [] \/
     exists l, 0 <= l /\
       sp_len {| sp_addr := [(".bss2", 0x2800000)];
                 sp_len := [(".bss2", 0x40)] |} = [(name, l)]).
Proof.
  apply (parse_section_param_values ".bss2@0x2800000:64"
           {| sp_addr := [(".bss2", 0x2800000)];
              sp_len := [(".bss2", 0x40)] |}).
  vm_compute. reflexivity.
Defined.

(** X24: [parse_section_param] fails on [arg_m.group] exactly when the argument
    holds no character of the class [[0-9A-Za-z._-]]; every other failure
    is the [ValueError] of a refused number. *)
Theorem parse_section_param_needs_a_name (s : string) :
  (parse_section_param s = inl Arg_AttributeError
   <-> all_chars (fun c => negb (is_name_char c)) s = true) /\
  (forall e, parse_section_param s = inl e ->
     e = Arg_AttributeError \/ exists literal, e = Arg_ValueError literal).
Proof.
  unfold parse_section_param.
  destruct (search_name s) as [[name rest]|] eqn:Hs.
  - assert (Hno : all_chars (fun c => negb (is_name_char c)) s <> true).
    { intros H. apply search_name_none in H. congruence. }
    destruct (optional_number "@" rest) as [addr rest1].
    destruct (optional_number ":" rest1) as [len rest2].
    pose proof (group_entry_inv name addr) as Ia.
    pose proof (group_entry_inv name len) as Il.
    destruct (group_entry name addr) as [e|sect_addr].
    + destruct Ia as (literal & ->). split.
      * split; [discriminate | intros H; contradiction].
      * intros e [= <-]. right. exists literal. reflexivity.
    + destruct (group_entry name len) as [e|sect_len].
      * destruct Il as (literal & ->). split.
        -- split; [discriminate | intros H; contradiction].
        -- intros e [= <-]. right. exists literal. reflexivity.
      * split; [split; [discriminate | intros H; contradiction] |].
        intros e. discriminate.
  - apply search_name_none in Hs. split.
    + split; [intros _; exact Hs | reflexivity].
    + intros e [= <-]. left. reflexivity.
Qed.

(** *** Numbers written in hexadecimal *)

Lemma hex_char_spec (d : Z) :
  0 <= d < 16 ->
  digit_value (hex_char d) = Some d /\ is_num_char (hex_char d) = true.
Proof.
  intros Hd.
  assert (H : d = 0 \/ d = 1 \/ d = 2 \/ d = 3 \/ d = 4 \/ d = 5 \/ d = 6
              \/ d = 7 \/ d = 8 \/ d = 9 \/ d = 10 \/ d = 11 \/ d = 12
              \/ d = 13 \/ d = 14 \/ d = 15) by lia.
  repeat (destruct H as [-> | H]; [split; reflexivity |]).
  subst d. split; reflexivity.
Qed.

Lemma hex_digits_spec (fuel : nat) :
  forall (n : Z) (acc : string),
  (0 < fuel)%nat -> 0 <= n < 16 ^ Z.of_nat fuel ->
  exists h,
    hex_digits fuel n acc = (h ++ acc)%string /\
    h <> EmptyString /\
    all_chars is_num_char h = true /\
    forall a0,
      digits_value 16 h a0
      = Some (a0 * 16 ^ Z.of_nat (String.length h) + n).
Proof.
  induction fuel as [|fuel IH]; intros n acc Hfuel Hn; [lia |].
  cbn [hex_digits].
  assert (Hmod : 0 <= n mod 16 < 16) by (apply Z.mod_pos_bound; lia).
  destruct (hex_char_spec (n mod 16) Hmod) as [Hval Hnum].
  destruct (Z.eqb_spec (n / 16) 0) as [Hq|Hq].
  - exists (String (hex_char (n mod 16)) EmptyString).
    split; [reflexivity |]. split; [discriminate |].
    split; [simpl; rewrite Hnum; reflexivity |].
    intros a0. cbn [digits_value String.length]. rewrite Hval.
    destruct (Z.ltb_spec (n mod 16) 16); [| lia].
    f_equal. change (16 ^ Z.of_nat 1) with 16.
    pose proof (Z.div_mod n 16 ltac:(lia)). lia.
  - assert (Hq0 : 0 < n / 16).
    { pose proof (Z.div_pos n 16 ltac:(lia) ltac:(lia)). lia. }
    assert (Hf : (0 < fuel)%nat).
    { destruct fuel; [| lia]. change (16 ^ Z.of_nat 1) with 16 in Hn.
      rewrite Z.div_small in Hq0 by lia. lia. }
    assert (Hqn : 0 <= n / 16 < 16 ^ Z.of_nat fuel).
    { split; [lia |]. apply Z.div_lt_upper_bound; [lia |].
      replace (Z.of_nat (S fuel)) with (Z.of_nat fuel + 1) in Hn by lia.
      rewrite Z.pow_add_r in Hn by lia. lia. }
    destruct (IH (n / 16) (String (hex_char (n mod 16)) acc) Hf Hqn)
      as (h & Hrun & Hne & Hall & Hdig).
    exists (h ++ String (hex_char (n mod 16)) EmptyString)%string.
    split; [rewrite Hrun, append_assoc; reflexivity |].
    split; [destruct h; [contradiction | discriminate] |].
    split.
    + rewrite all_chars_append, Hall. simpl. rewrite Hnum. reflexivity.
    + intros a0. rewrite digits_value_app, Hdig.
      cbn [digits_value]. rewrite Hval.
      destruct (Z.ltb_spec (n mod 16) 16); [| lia].
      f_equal. rewrite length_append. cbn [String.length].
      replace (Z.of_nat (String.length h + 1))
        with (Z.of_nat (String.length h) + 1) by lia.
      rewrite Z.pow_add_r by lia.
      pose proof (Z.div_mod n 16 ltac:(lia)). lia.
Qed.

Lemma hex_of_Z_spec (n : Z) :
  0 <= n ->
  hex_of_Z n <> EmptyString /\
  all_chars is_num_char (hex_of_Z n) = true /\
  digits_value 16 (hex_of_Z n) 0 = Some n.
Proof.
  intros Hn. unfold hex_of_Z.
  assert (Hb : 0 <= n < 16 ^ Z.of_nat (S (Z.to_nat (Z.log2 n)))).
  { split; [exact Hn |].
    pose proof (Z.log2_nonneg n) as Hl.
    replace (Z.of_nat (S (Z.to_nat (Z.log2 n)))) with (Z.log2 n + 1) by lia.
    change 16 with (2 ^ 4). rewrite <- Z.pow_mul_r by lia.
    destruct (Z.eq_dec n 0) as [->|Hn0]; [reflexivity |].
    pose proof (Z.log2_spec n ltac:(lia)) as [_ Hlt].
    replace (Z.succ (Z.log2 n)) with (Z.log2 n + 1) in Hlt by lia.
    apply (Z.lt_le_trans _ _ _ Hlt).
    apply Z.pow_le_mono_r; lia. }
  destruct (hex_digits_spec (S (Z.to_nat (Z.log2 n))) n EmptyString
              (Nat.lt_0_succ _) Hb)
    as (h & Hrun & Hne & Hall & Hdig).
  rewrite Hrun, append_nil_r.
  split; [exact Hne |]. split; [exact Hall |].
  rewrite Hdig. reflexivity.
Qed.

Lemma search_name_app (name rest : string) :
  name <> EmptyString -> all_chars is_name_char name = true ->
  match rest with
  | String c _ => is_name_char c = false
  | EmptyString => True
  end ->
  search_name (name ++ rest)%string = Some (name, rest).
Proof.
  intros Hne Hall Hrest. destruct name as [|c name]; [contradiction |].
  simpl in Hall. apply andb_true_iff in Hall. destruct Hall as [Hc Hall].
  simpl. rewrite Hc, (span_chars_app _ _ _ Hall Hrest). reflexivity.
Qed.

Lemma optional_number_app (sep : ascii) (run rest : string) :
  run <> EmptyString -> all_chars is_num_char run = true ->
  match rest with
  | String c _ => is_num_char c = false
  | EmptyString => True
  end ->
  optional_number sep (String sep (run ++ rest))%string = (Some run, rest).
Proof.
  intros Hne Hall Hrest. unfold optional_number.
  rewrite Ascii.eqb_refl, (span_chars_app _ _ _ Hall Hrest).
  destruct run; [contradiction | reflexivity].
Qed.

(** X25: An argument written as [NAME@0xADDR:0xLEN], with the numbers in the
    hexadecimal form that [format(n, 'x')] prints, is parsed to just this
    address and this length under this name. *)
Theorem parse_section_param_round_trip (name : string) (addr len : Z) :
  name <> EmptyString -> all_chars is_name_char name = true ->
  0 <= addr -> 0 <= len ->
  parse_section_param
    (name ++ "@0x" ++ hex_of_Z addr ++ ":0x" ++ hex_of_Z len)%string
  = inr {| sp_addr := [(name, addr)]; sp_len := [(name, len)] |}.
Proof.
  intros Hne Hname Haddr Hlen.
  destruct (hex_of_Z_spec addr Haddr) as (Hane & Hanum & Haval).
  destruct (hex_of_Z_spec len Hlen) as (Hlne & Hlnum & Hlval).
  set (ha := hex_of_Z addr) in *. set (hl := hex_of_Z len) in *.
  assert (Hstr : (name ++ "@0x" ++ ha ++ ":0x" ++ hl)%string
                 = (name ++ String "@" (("0x" ++ ha)
                      ++ String ":" (("0x" ++ hl) ++ EmptyString)))%string)
    by (rewrite append_nil_r; reflexivity).
  rewrite Hstr. unfold parse_section_param.
  rewrite search_name_app; [| exact Hne | exact Hname | reflexivity].
  rewrite optional_number_app;
    [| discriminate | simpl; exact Hanum | reflexivity].
  rewrite optional_number_app; [| discriminate | simpl; exact Hlnum | exact I].
  assert (Hint : forall h v,
            h <> EmptyString -> digits_value 16 h 0 = Some v ->
            group_entry name (Some ("0x" ++ h)%string) = inr [(name, v)]).
  { intros h v Hh Hv. unfold group_entry, int_base0.
    cbn [append Ascii.eqb Bool.eqb orb].
    destruct h as [|c h]; [contradiction |].
    rewrite Hv. reflexivity. }
  rewrite (Hint ha addr Hane Haval), (Hint hl len Hlne Hlval).
  reflexivity.
Qed.

Lemma parse_section_param_round_trip_witness :
  parse_section_param
    (".bss2" ++ "@0x" ++ hex_of_Z 0x2800000 ++ ":0x" ++ hex_of_Z 64)%string
  = inr {| sp_addr := [(".bss2", 0x2800000)]; sp_len := [(".bss2", 64)] |}.
Proof.
  apply (parse_section_param_round_trip ".bss2" 0x2800000 64);
    [discriminate | reflexivity | lia | lia].
Defined.

(** *** The arguments, flattened *)

Lemma dict_update_wf (other : dict) :
  forall d, dict_wf d -> dict_wf (dict_update d other).
Proof.
  unfold dict_update.
  induction other as [|[k v] other IH]; intros d Hwf; simpl;
    [exact Hwf |].
  apply IH, dict_set_wf, Hwf.
Qed.

Lemma dict_update_get (other : dict) :
  dict_wf other ->
  forall d n,
  dict_get (dict_update d other) n
  = match dict_get other n with
    | Some v => Some v
    | None => dict_get d n
    end.
Proof.
  unfold dict_update, dict_wf.
  induction other as [|[k v] other IH]; intros Hwf d n; simpl;
    [reflexivity |].
  inversion Hwf as [|? ? Hnotin Hnd]; subst.
  rewrite (IH Hnd).
  destruct (String.eqb_spec n k) as [->|Hne].
  - destruct (dict_get other k) as [v'|] eqn:Hk.
    + exfalso. apply Hnotin. apply dict_get_In in Hk.
      apply (in_map fst) in Hk. exact Hk.
    + apply dict_get_set_same.
  - destruct (dict_get other n); [reflexivity |].
    apply dict_get_set_other. congruence.
Qed.

(** X26: Of the section arguments the last one wins: after flattening, a name
    has the address and the size of the last argument that gives one, and
    what the arguments before it gave where it gives none. *)
Theorem main_flatten_sections_last_wins (section : list section_param)
    (sect : section_param) (n : string) :
  dict_wf (sp_addr sect) -> dict_wf (sp_len sect) ->
  dict_get (fst (main_flatten_sections (section ++ [sect]))) n
  = match dict_get (sp_addr sect) n with
    | Some v => Some v
    | None => dict_get (fst (main_flatten_sections section)) n
    end /\
  dict_get (snd (main_flatten_sections (section ++ [sect]))) n
  = match dict_get (sp_len sect) n with
    | Some v => Some v
    | None => dict_get (snd (main_flatten_sections section)) n
    end.
Proof.
  intros Ha Hl. unfold main_flatten_sections.
  rewrite fold_left_app. cbn [fold_left fst snd].
  split; apply dict_update_get; assumption.
Qed.

Lemma main_flatten_sections_last_wins_witness :
  dict_get
    (fst (main_flatten_sections
            ([{| sp_addr := [(".bss", 0x2000000)];
                 sp_len := [(".bss", 0x100)] |}]
             ++ [{| sp_addr := [(".bss", 0x2400000)]; sp_len := [] |}])))
    ".bss"
  = match dict_get
            (sp_addr {| sp_addr := [(".bss", 0x2400000)]; sp_len := [] |})
            ".bss" with
    | Some v => Some v
    | None =>
        dict_get
          (fst (main_flatten_sections
                  [{| sp_addr := [(".bss", 0x2000000)];
                      sp_len := [(".bss", 0x100)] |}])) ".bss"
    end /\
  dict_get
    (snd (main_flatten_sections
            ([{| sp_addr := [(".bss", 0x2000000)];
                 sp_len := [(".bss", 0x100)] |}]
             ++ [{| sp_addr := [(".bss", 0x2400000)]; sp_len := [] |}])))
    ".bss"
  = match dict_get
            (sp_len {| sp_addr := [(".bss", 0x2400000)]; sp_len := [] |})
            ".bss" with
    | Some v => Some v
    | None =>
        dict_get
          (snd (main_flatten_sections
                  [{| sp_addr := [(".bss", 0x2000000)];
                      sp_len := [(".bss", 0x100)] |}])) ".bss"
    end.
Proof.
  apply (main_flatten_sections_last_wins
           [{| sp_addr := [(".bss", 0x2000000)];
               sp_len := [(".bss", 0x100)] |}]
           {| sp_addr := [(".bss", 0x2400000)]; sp_len := [] |} ".bss").
  - unfold dict_wf. simpl. repeat constructor. intros [].
  - unfold dict_wf. simpl. constructor.
Defined.

(** A dictionary as the command line can give it: no name twice, every
    name a nonempty word of the class, no value negative. *)
Lemma dict_update_from_argument (d other : dict) (name : string) :
  name <> EmptyString -> all_chars is_name_char name = true ->
  (other = [] \/ exists v, 0 <= v /\ other = [(name, v)]) ->
  dict_wf d ->
  (forall n v, dict_get d n = Some v ->
     0 <= v /\ n <> EmptyString /\ all_chars is_name_char n = true) ->
  dict_wf (dict_update d other) /\
  (forall n v, dict_get (dict_update d other) n = Some v ->
     0 <= v /\ n <> EmptyString /\ all_chars is_name_char n = true).
Proof.
  intros Hne Hname Hother Hwf Hall.
  destruct Hother as [->|(v0 & Hv0 & ->)]; [split; assumption |].
  split; [apply dict_update_wf; exact Hwf |].
  intros n v. unfold dict_update. cbn [fold_left fst snd].
  destruct (String.eqb_spec name n) as [<-|Hn].
  - rewrite dict_get_set_same. intros [= <-]. auto.
  - rewrite dict_get_set_other by exact Hn. apply Hall.
Qed.

(** X27: The two dictionaries [main] builds from section arguments that all
    parse: no name occurs twice in either, every name is a nonempty word
    of the class [[0-9A-Za-z._-]], and no address and no size is
    negative. *)
Theorem main_sections_from_arguments (args : list string)
    (section : list section_param) :
  Forall2 (fun s sect => parse_section_param s = inr sect) args section ->
  dict_wf (fst (main_flatten_sections section)) /\
  dict_wf (snd (main_flatten_sections section)) /\
  (forall n v,
     dict_get (fst (main_flatten_sections section)) n = Some v \/
     dict_get (snd (main_flatten_sections section)) n = Some v ->
     0 <= v /\ n <> EmptyString /\ all_chars is_name_char n = true).
Proof.
  intros Hparse. unfold main_flatten_sections.
  assert (Hgen : forall st : dict * dict,
            (dict_wf (fst st) /\
             forall n v, dict_get (fst st) n = Some v ->
               0 <= v /\ n <> EmptyString
               /\ all_chars is_name_char n = true) ->
            (dict_wf (snd st) /\
             forall n v, dict_get (snd st) n = Some v ->
               0 <= v /\ n <> EmptyString
               /\ all_chars is_name_char n = true) ->
            let st' :=
              fold_left
                (fun (st : dict * dict) sect =>
                   (dict_update (fst st) (sp_addr sect),
                    dict_update (snd st) (sp_len sect)))
                section st in
            (dict_wf (fst st') /\
             forall n v, dict_get (fst st') n = Some v ->
               0 <= v /\ n <> EmptyString
               /\ all_chars is_name_char n = true) /\
            (dict_wf (snd st') /\
             forall n v, dict_get (snd st') n = Some v ->
               0 <= v /\ n <> EmptyString
               /\ all_chars is_name_char n = true)).
  { induction Hparse as [|s sect args section Hs _ IH]; intros st H1 H2;
      [split; assumption |].
    cbn [fold_left]. apply IH; cbn [fst snd].
    - destruct (parse_section_param_shape s sect Hs)
        as (name & rest & addr & len & Hname & Ha & _).
      destruct (search_name_some s name rest Hname) as [Hne Hall].
      pose proof (group_entry_inv name addr) as Ia. rewrite Ha in Ia.
      destruct H1 as [Hwf Hval].
      exact (dict_update_from_argument _ _ name Hne Hall Ia Hwf Hval).
    - destruct (parse_section_param_shape s sect Hs)
        as (name & rest & addr & len & Hname & _ & Hl).
      destruct (search_name_some s name rest Hname) as [Hne Hall].
      pose proof (group_entry_inv name len) as Il. rewrite Hl in Il.
      destruct H2 as [Hwf Hval].
      exact (dict_update_from_argument _ _ name Hne Hall Il Hwf Hval). }
  destruct (Hgen ([], [])) as [[Hw1 Hv1] [Hw2 Hv2]].
  - split; [constructor | intros n v; discriminate].
  - split; [constructor | intros n v; discriminate].
  - split; [exact Hw1 |]. split; [exact Hw2 |].
    intros n v [H|H]; [exact (Hv1 n v H) | exact (Hv2 n v H)].
Qed.

Lemma main_sections_from_arguments_witness :
  dict_wf
    (fst (main_flatten_sections
            [{| sp_addr := [(".bss", 0x2000000)];
                sp_len := [(".bss", 0x100)] |};
             {| sp_addr := []; sp_len := [(".bss2", 64)] |}])) /\
  dict_wf
    (snd (main_flatten_sections
            [{| sp_addr := [(".bss", 0x2000000)];
                sp_len := [(".bss", 0x100)] |};
             {| sp_addr := []; sp_len := [(".bss2", 64)] |}])) /\
  (forall n v,
     dict_get
       (fst (main_flatten_sections
               [{| sp_addr := [(".bss", 0x2000000)];
                   sp_len := [(".bss", 0x100)] |};
                {| sp_addr := []; sp_len := [(".bss2", 64)] |}])) n
     = Some v \/
     dict_get
       (snd (main_flatten_sections
               [{| sp_addr := [(".bss", 0x2000000)];
                   sp_len := [(".bss", 0x100)] |};
                {| sp_addr := []; sp_len := [(".bss2", 64)] |}])) n
     = Some v ->
     0 <= v /\ n <> EmptyString /\ all_chars is_name_char n = true).
Proof.
  apply (main_sections_from_arguments
           [".bss@0x2000000:0x100"; ".bss2:64"]%string
           [{| sp_addr := [(".bss", 0x2000000)];
               sp_len := [(".bss", 0x100)] |};
            {| sp_addr := []; sp_len := [(".bss2", 64)] |}]).
  repeat constructor.
Defined.

(** ** The address space set up by [main] *)

Lemma dict_argmax_spec (rest : dict) :
  forall first : string * Z,
  let best := fold_left
                (fun (best item : string * Z) =>
                   if snd item >? snd best then item else best)
                rest first in
  In best (first :: rest) /\
  (forall item, In item (first :: rest) -> snd item <= snd best).
Proof.
  induction rest as [|it rest IH]; intros first; cbn [fold_left].
  - split; [left; reflexivity |]. intros item [<-|[]]. lia.
  - cbv zeta in IH.
    destruct (Z.gtb_spec (snd it) (snd first)) as [Hgt|Hle].
    + destruct (IH it) as [Hin Hmax]. split.
      * destruct Hin as [<-|Hin]; [right; left; reflexivity |].
        right. right. exact Hin.
      * intros item [<-|[<-|Hitem]].
        -- specialize (Hmax it (or_introl eq_refl)). lia.
        -- apply Hmax. left. reflexivity.
        -- apply Hmax. right. exact Hitem.
    + destruct (IH first) as [Hin Hmax]. split.
      * destruct Hin as [<-|Hin]; [left; reflexivity |].
        right. right. exact Hin.
      * intros item [<-|[<-|Hitem]].
        -- apply Hmax. left. reflexivity.
        -- specialize (Hmax first (or_introl eq_refl)). lia.
        -- apply Hmax. right. exact Hitem.
Qed.

(** X28: [main] looks at a section with the largest address: without a size
    for it the run ends in [KeyError]; else the address space is made to
    reach the end of that section, up to [0xFFFFFFFF], when it did not
    reach it. *)
Theorem main_expand_addrspacelen_spec (po : Options) :
  dict_wf (section_addr po) ->
  section_addr po <> [] ->
  exists sect_last addr,
    dict_get (section_addr po) sect_last = Some addr /\
    (forall n a, dict_get (section_addr po) n = Some a -> a <= addr) /\
    match dict_get (section_size po) sect_last with
    | None => main_expand_addrspacelen po = Raise (KeyError sect_last)
    | Some size =>
        main_expand_addrspacelen po
        = Ok (if addr + size - baseaddr po >? addrspacelen po
              then set_addrspacelen po
                     (Z.min (addr + size - baseaddr po) 0xFFFFFFFF)
              else po)
    end.
Proof.
  intros Hwf Hne. unfold main_expand_addrspacelen.
  destruct (section_addr po) as [|first rest] eqn:Hd; [contradiction |].
  unfold dict_argmax.
  destruct (dict_argmax_spec rest first) as [Hin Hmax].
  set (best := fold_left _ rest first) in *.
  destruct best as [k a] eqn:Hbest. cbn [fst snd] in *.
  pose proof (dict_wf_In_get _ _ _ Hwf Hin) as Hget.
  exists k, a. split; [exact Hget |]. split.
  - intros n a' Hn. apply dict_get_In in Hn.
    exact (Hmax (n, a') Hn).
  - unfold dict_lookup. rewrite Hget. cbn [obind].
    destruct (dict_get (section_size po) k) as [size|]; cbn [obind];
      [| reflexivity].
    destruct (a + size - baseaddr po >? addrspacelen po); reflexivity.
Qed.

Lemma main_expand_addrspacelen_spec_witness :
  exists sect_last addr,
    dict_get (section_addr po_extra_bss) sect_last = Some addr /\
    (forall n a,
       dict_get (section_addr po_extra_bss) n = Some a -> a <= addr) /\
    match dict_get (section_size po_extra_bss) sect_last with
    | None =>
        main_expand_addrspacelen po_extra_bss = Raise (KeyError sect_last)
    | Some size =>
        main_expand_addrspacelen po_extra_bss
        = Ok (if addr + size - baseaddr po_extra_bss
                 >? addrspacelen po_extra_bss
              then set_addrspacelen po_extra_bss
                     (Z.min (addr + size - baseaddr po_extra_bss)
                        0xFFFFFFFF)
              else po_extra_bss)
    end.
Proof.
  apply (main_expand_addrspacelen_spec po_extra_bss).
  - unfold dict_wf. vm_compute.
    repeat (constructor; [simpl; intuition discriminate |]). constructor.
  - discriminate.
Defined.
